(** * policytree: exact and hybrid policy-tree search

    A shallow embedding of the two copies of [tree_search.cpp] in the
    repository:

    - [src/src/tree_search.cpp], the original exact search
      (module [Core] below);
    - [src/r-package/policytree/src/tree_search.cpp], the fork that adds
      [split_step], [min_node_size], the [depth]/[height] fields and the
      hybrid expander (module [RPkg] below).

    Conventions of the embedding.

    - A [double] that holds a reward or a sum of rewards is an IEEE 754
      binary64 number, in the Standard Library's specification of floating
      point ([SpecFloat]: 53 bits of mantissa, round to nearest even,
      overflow to the infinities, NaN); [+], [-], [<] and [>] on rewards
      are its [SFadd], [SFsub] and [SFltb].
    - The matrices hold integers: an entry of X or Y is a [Z]; an entry
      [z] of Y enters the arithmetic as [Fin z], the double of that value.
      The feature values of X are only compared, and are compared as
      integers.
    - A [size_t] that counts elements of a container is a [nat]; where the
      source subtracts two of them the wrap-around is written out.
    - An [int] ([level], [depth], [height], [split_step], the split
      counter) is a [Z]; none of them leaves the range of [int] on the
      inputs considered, and overflow is not modelled.
    - Undefined behaviour of the C++ program (dereferencing [end()], indexing
      a vector out of range) is the result [Undefined]; recursion is bounded
      by a fuel argument and running out of it is [OutOfFuel]. *)

From Stdlib Require Import ZArith List Bool Arith Lia Permutation.
From Stdlib Require Import Sorting.Sorted.
From Stdlib Require Import SpecFloat.
Import ListNotations.

Local Open Scope Z_scope.

(** ** Results of running C++ code *)

Inductive run (A : Type) : Type :=
| Ret (a : A)
| Undefined
| OutOfFuel.

Arguments Ret {A} a.
Arguments Undefined {A}.
Arguments OutOfFuel {A}.

Definition bind {A B : Type} (c : run A) (k : A -> run B) : run B :=
  match c with
  | Ret a => k a
  | Undefined => Undefined
  | OutOfFuel => OutOfFuel
  end.

Notation "x <- c ;; k" := (bind c (fun x => k))
  (at level 61, c at next level, right associativity).
Notation "' pat <- c ;; k" := (bind c (fun x => match x with pat => k end))
  (at level 61, pat pattern, c at next level, right associativity).

(** [v[i]] on a [std::vector]: out of range is undefined behaviour. *)
Definition at_ {A : Type} (v : list A) (i : nat) : run A :=
  match nth_error v i with
  | Some a => Ret a
  | None => Undefined
  end.

(** [v[i] = a] on a [std::vector]. *)
Fixpoint set_at {A : Type} (v : list A) (i : nat) (a : A) : run (list A) :=
  match v, i with
  | [], _ => Undefined
  | _ :: v', O => Ret (a :: v')
  | b :: v', S i' => v'' <- set_at v' i' a ;; Ret (b :: v'')
  end.

(** ** Numbers *)

(** [(size_t) -1]. *)
Definition SIZE_MAX : Z := 2 ^ 64 - 1.

(** [a - b] on [size_t]. *)
Definition size_sub (a b : nat) : Z :=
  if (b <=? a)%nat then Z.of_nat (a - b)
  else 2 ^ 64 - Z.of_nat (b - a).

(** The bound [num_points - 1] of the move loop, a [size_t]: with no point
    it wraps to [SIZE_MAX]. *)
Definition loop_bound (num_points : nat) : nat :=
  if (num_points =? 0)%nat then Z.to_nat SIZE_MAX else (num_points - 1)%nat.

(** A [double]: binary64, with [double_prec] bits of mantissa and the
    infinities at exponent [double_emax]. *)
Definition double : Type := spec_float.

Definition double_prec : Z := 53.

Definition double_emax : Z := 1024.

(** Negative infinity. *)
Definition NInf : double := S754_infinity true.

(** The double of the integer [z] (the nearest one, when [z] is not a
    double itself): the literal [0.0] is [Fin 0], the entry [z] of the
    reward matrix is [Fin z]. *)
Definition Fin (z : Z) : double :=
  binary_normalize double_prec double_emax z 0 false.

(** Modelled from the spec: the constant [INF] of tree_search.h, positive
    infinity; the source only uses [-INF]. *)
Definition neg_INF : double := NInf.

(** [a + b] on doubles. *)
Definition dadd (a b : double) : double := SFadd double_prec double_emax a b.

(** [a - b] on doubles. *)
Definition dsub (a b : double) : double := SFsub double_prec double_emax a b.

(** [a < b] on doubles, also written [b > a]: false when either is NaN. *)
Definition dlt (a b : double) : bool := SFltb a b.

Arguments Fin : simpl never.
Arguments dadd : simpl never.
Arguments dsub : simpl never.
Arguments dlt : simpl never.

(** The integers on which the arithmetic of doubles is the arithmetic of
    integers: those of magnitude below 2^53. *)
Definition small (z : Z) : Prop := Z.abs z < 2 ^ 53.

(** [m] followed by [k] zero bits. *)
Definition shl (m : positive) (k : nat) : positive := Nat.iter k xO m.

(** The double of sign [s] and magnitude [n], for [n] of at most 53 bits:
    its mantissa is [n] shifted to 53 bits. *)
Definition normal (s : bool) (n : positive) : double :=
  S754_finite s (shl n (53 - Pos.to_nat (Pos.size n)))
              (Zpos (Pos.size n) - 53).

Definition signed (s : bool) (n : positive) : Z :=
  if s then Zneg n else Zpos n.

(** ** Data view, points and sorted sets *)

(** Modelled from the spec: the class [Data] of tree_search.h, a read-only
    view of the N x p matrix X and the N x d matrix Y. *)
Record Data : Type := mkData {
  num_rows : nat;
  num_features : nat;
  num_rewards : nat;
  get_value : nat -> nat -> Z;
  get_reward : nat -> nat -> Z
}.

(** Modelled from the spec: the struct [Point] of tree_search.h, a sample
    index together with the data view; [get_value] and [get_reward] read
    the sample's row. *)
Abbreviation Point := nat (only parsing).

(** A [flat_set] is the sorted sequence of its points; the comparator it
    was built with is [cmp_func data j] for the set at position [j] of a
    family. *)
Abbreviation flat_set := (list nat) (only parsing).
Abbreviation family := (list (list nat)) (only parsing).

Section SortedSets.

Variable data : Data.

(** The lambda of [create_sorted_sets]. *)
Definition cmp_func (cmp_dim : nat) (lhs rhs : Point) : bool :=
  let a := get_value data lhs cmp_dim in
  let b := get_value data rhs cmp_dim in
  if a =? b then (lhs <? rhs)%nat else a <? b.

(** [flat_set::insert] / [emplace]: the point is placed at its position in
    the order, unless an equivalent one is present. *)
Fixpoint insert (cmp : Point -> Point -> bool) (x : Point) (s : flat_set)
  : flat_set :=
  match s with
  | [] => [x]
  | y :: s' =>
      if cmp x y then x :: s
      else if cmp y x then y :: insert cmp x s'
      else s
  end.

(** [s.erase(s.find(x))]: [find] looks the point up through the comparator;
    erasing [end()] when it is absent is undefined. *)
Fixpoint erase_found (cmp : Point -> Point -> bool) (x : Point) (s : flat_set)
  : run flat_set :=
  match s with
  | [] => Undefined
  | y :: s' =>
      if cmp y x then s'' <- erase_found cmp x s' ;; Ret (y :: s'')
      else if cmp x y then Undefined
      else Ret s'
  end.

(** The inner loop of [create_sorted_sets]: [emplace] of the samples
    [0 .. num_rows - 1] in turn. *)
Definition fill_set (cmp_dim : nat) : flat_set :=
  fold_left (fun setj i => insert (cmp_func cmp_dim) i setj)
            (seq 0 (num_rows data)) [].

Definition create_sorted_sets (make_empty : bool) : family :=
  map (fun cmp_dim => if make_empty then [] else fill_set cmp_dim)
      (seq 0 (num_features data)).

(** The loop over [j != p] of the move step. *)
Fixpoint move_others (p : nat) (point_bk : Point) (js : list nat)
         (left right : family) : run (family * family) :=
  match js with
  | [] => Ret (left, right)
  | j :: js' =>
      if (j =? p)%nat then move_others p point_bk js' left right
      else
        rj <- at_ right j ;;
        rj' <- erase_found (cmp_func j) point_bk rj ;;
        right' <- set_at right j rj' ;;
        lj <- at_ left j ;;
        left' <- set_at left j (insert (cmp_func j) point_bk lj) ;;
        move_others p point_bk js' left' right'
  end.

(** One move of the split boundary on feature [p]: lines 343-354 of the
    r-package file and 284-301 of the original.  The first point of
    [right[p]] leaves every set of [right] and enters every set of [left]. *)
Definition move_point (p : nat) (left right : family)
  : run (Point * family * family) :=
  rp <- at_ right p ;;
  match rp with
  | [] => Undefined
  | point_bk :: rp' =>
      right1 <- set_at right p rp' ;;
      lp <- at_ left p ;;
      left1 <- set_at left p (insert (cmp_func p) point_bk lp) ;;
      '(left2, right2) <-
        move_others p point_bk (seq 0 (num_features data)) left1 right1 ;;
      Ret (point_bk, left2, right2)
  end.

(** [k] moves in a row, without the search in between. *)
Fixpoint move_points (p : nat) (k : nat) (left right : family)
  : run (family * family) :=
  match k with
  | O => Ret (left, right)
  | S k' =>
      '(_, left', right') <- move_point p left right ;;
      move_points p k' left' right'
  end.

(** [reward_sum[d]] of [level_zero_learning] after its inner loop: the
    rewards of action [d] added one by one to [0.0], in iteration order. *)
Definition reward_sum (s : flat_set) (d : nat) : double :=
  fold_left (fun acc point => dadd acc (Fin (get_reward data point d)))
            s (Fin 0).

(** The cumulative-sum loop of [level_one_learning] for one action [d]:
    [sum_array[d][n] = sum_array[d][n - 1] + reward] for [n = 1, 2, ...]. *)
Fixpoint fill_sum_row (d : nat) (points : flat_set) (n : nat)
         (sum_array : list (list double)) : run (list (list double)) :=
  match points with
  | [] => Ret sum_array
  | point :: points' =>
      let n := S n in
      row <- at_ sum_array d ;;
      prev <- at_ row (n - 1) ;;
      row' <- set_at row n (dadd prev (Fin (get_reward data point d))) ;;
      sum_array' <- set_at sum_array d row' ;;
      fill_sum_row d points' n sum_array'
  end.

Fixpoint fill_sum_array (ds : list nat) (points : flat_set)
         (sum_array : list (list double)) : run (list (list double)) :=
  match ds with
  | [] => Ret sum_array
  | d :: ds' =>
      sum_array' <- fill_sum_row d points 0 sum_array ;;
      fill_sum_array ds' points sum_array'
  end.

(** The zero-initialised [num_rewards] x [num_points + 1] scratch array of
    [tree_search]. *)
Definition new_sum_array : list (list double) :=
  repeat (repeat (Fin 0) (num_rows data + 1)) (num_rewards data).

End SortedSets.

(** ** The r-package search: [src/r-package/policytree/src/tree_search.cpp] *)

Module RPkg.

(** Modelled from the spec: the struct [Node] of the r-package's
    tree_search.h, which is not among the sources.  The fields are those
    the .cpp file reads and writes; the constructor takes
    [(index, value, reward, action_id, depth, height)].  [left_child] and
    [right_child] are set together or not at all. *)
Record NodeData : Type := mkNodeData {
  index : nat;
  value : Z;
  reward : double;
  action_id : nat;
  depth : Z;
  height : Z;
  complete_sorted_sets : family
}.

Inductive Node : Type :=
| Leaf (nd : NodeData)
| Internal (nd : NodeData) (left_child right_child : Node).

Definition node_data (t : Node) : NodeData :=
  match t with
  | Leaf nd => nd
  | Internal nd _ _ => nd
  end.

(** [new Node(index, value, reward, action_id, depth, height)]. *)
Definition new_Node (index : nat) (value : Z) (reward : double)
           (action_id : nat) (depth height : Z) : Node :=
  Leaf (mkNodeData index value reward action_id depth height []).

(** [t->left_child = l; t->right_child = r]. *)
Definition set_children (t l r : Node) : Node :=
  Internal (node_data t) l r.

(** [t->complete_sorted_sets = sets]. *)
Definition set_complete_sorted_sets (t : Node) (sets : family) : Node :=
  let upd nd :=
    mkNodeData (index nd) (value nd) (reward nd) (action_id nd)
               (depth nd) (height nd) sets in
  match t with
  | Leaf nd => Leaf (upd nd)
  | Internal nd l r => Internal (upd nd) l r
  end.

(** Modelled from the spec: [Node::is_leaf], a node without children. *)
Definition is_leaf (t : Node) : bool :=
  match t with
  | Leaf _ => true
  | Internal _ _ _ => false
  end.

Section Search.

Variable data : Data.

(** The loop over [d] of [level_zero_learning]. *)
Fixpoint level_zero_loop (sorted_sets : family) (ds : list nat)
         (best_reward : double) (best_action : nat) : run (double * nat) :=
  match ds with
  | [] => Ret (best_reward, best_action)
  | d :: ds' =>
      s0 <- at_ sorted_sets 0 ;;
      let reward_sum_d := reward_sum data s0 d in
      if dlt best_reward reward_sum_d
      then level_zero_loop sorted_sets ds' reward_sum_d d
      else level_zero_loop sorted_sets ds' best_reward best_action
  end.

Definition level_zero_learning (sorted_sets : family) (this_depth : Z)
  : run Node :=
  '(best_reward, best_action) <-
    level_zero_loop sorted_sets (seq 0 (num_rewards data)) neg_INF 0%nat ;;
  Ret (new_Node 0 0 best_reward best_action this_depth 0).

(** The locals of [level_one_learning] that survive a candidate. *)
Record L1State : Type := mkL1 {
  best_action_left : nat;
  best_action_right : nat;
  split_val : Z;
  split_var : nat;
  best_reward : double;
  global_best_left : double;
  global_best_right : double
}.

(** The loop over [d] that picks the best action on each side of a
    candidate split after the [n]-th point. *)
Fixpoint side_actions (sum_array : list (list double)) (n num_points : nat)
         (ds : list nat) (left_best right_best : double)
         (left_action right_action : nat)
  : run (double * double * nat * nat) :=
  match ds with
  | [] => Ret (left_best, right_best, left_action, right_action)
  | d :: ds' =>
      row <- at_ sum_array d ;;
      left_reward <- at_ row n ;;
      total <- at_ row num_points ;;
      let right_reward := dsub total left_reward in
      let '(left_best, left_action) :=
        if dlt left_best left_reward then (left_reward, d)
        else (left_best, left_action) in
      let '(right_best, right_action) :=
        if dlt right_best right_reward then (right_reward, d)
        else (right_best, right_action) in
      side_actions sum_array n num_points ds'
                   left_best right_best left_action right_action
  end.

(** The [for (;;)] loop of [level_one_learning] over the set of feature
    [p]; [it] is the part of the set from the iterator on. *)
Fixpoint level_one_scan (p num_points : nat) (split_step : Z)
         (min_node_size : nat) (sum_array : list (list double))
         (it : flat_set) (n : nat) (split_counter : Z)
         (samples_counter : nat) (st : L1State) : run L1State :=
  match it with
  | [] => Undefined
  | point :: it' =>
      let n := S n in
      let value := get_value data point p in
      match it' with
      | [] => Ret st
      | next :: _ =>
          let next_value := get_value data next p in
          let split_counter := split_counter + 1 in
          let samples_counter := S samples_counter in
          if value =? next_value then
            level_one_scan p num_points split_step min_node_size sum_array
                           it' n split_counter samples_counter st
          else if (samples_counter <? min_node_size)%nat
                  || (size_sub num_points samples_counter
                      <? Z.of_nat min_node_size) then
            level_one_scan p num_points split_step min_node_size sum_array
                           it' n split_counter samples_counter st
          else if split_counter >=? split_step then
            '(left_best, right_best, left_action, right_action) <-
              side_actions sum_array n num_points
                           (seq 0 (num_rewards data))
                           neg_INF neg_INF 0%nat 0%nat ;;
            let st' :=
              if dlt (best_reward st) (dadd left_best right_best)
              then mkL1 left_action right_action value p
                        (dadd left_best right_best) left_best right_best
              else st in
            level_one_scan p num_points split_step min_node_size sum_array
                           it' n 0 samples_counter st'
          else
            level_one_scan p num_points split_step min_node_size sum_array
                           it' n split_counter samples_counter st
      end
  end.

(** The loop over the features of [level_one_learning]. *)
Fixpoint level_one_features (ps : list nat) (sorted_sets : family)
         (num_points : nat) (split_step : Z) (min_node_size : nat)
         (sum_array : list (list double)) (st : L1State)
  : run (L1State * list (list double)) :=
  match ps with
  | [] => Ret (st, sum_array)
  | p :: ps' =>
      sp <- at_ sorted_sets p ;;
      sum_array' <-
        fill_sum_array data (seq 0 (num_rewards data)) sp sum_array ;;
      st' <- level_one_scan p num_points split_step min_node_size sum_array'
                            sp 0 0 0 st ;;
      level_one_features ps' sorted_sets num_points split_step min_node_size
                         sum_array' st'
  end.

Definition level_one_learning (sorted_sets : family)
           (sum_array : list (list double)) (split_step : Z)
           (min_node_size : nat) (this_depth : Z)
  : run (Node * list (list double)) :=
  s0 <- at_ sorted_sets 0 ;;
  let num_points := length s0 in
  '(st, sum_array') <-
    level_one_features (seq 0 (num_features data)) sorted_sets num_points
                       split_step min_node_size sum_array
                       (mkL1 0 0 0 0 neg_INF neg_INF neg_INF) ;;
  if dlt neg_INF (best_reward st) then
    if (best_action_left st =? best_action_right st)%nat then
      Ret (new_Node 0 0 (best_reward st) (best_action_left st) this_depth 0,
           sum_array')
    else
      let left := new_Node 0 0 (global_best_left st) (best_action_left st)
                           (this_depth + 1) 0 in
      let right := new_Node 0 0 (global_best_right st) (best_action_right st)
                            (this_depth + 1) 0 in
      let ans := new_Node (split_var st) (split_val st) (best_reward st) 0
                          this_depth 1 in
      let ans := set_children ans left right in
      let ans := set_complete_sorted_sets ans sorted_sets in
      Ret (ans, sum_array')
  else
    t <- level_zero_learning sorted_sets (this_depth + 1) ;;
    Ret (t, sum_array').

(** The best candidate so far of [find_best_split]:
    [(best_left_child, best_right_child, best_split_var, best_split_val)],
    [None] while [best_left_child == nullptr]. *)
Definition Best : Type := option (Node * Node * nat * Z).

Section Recursion.

(** The recursive call
    [find_best_split(., level - 1, split_step, min_node_size, data,
    sum_array, this_depth + 1)]. *)
Variable search : family -> list (list double) -> run (Node * list (list double)).

(** The loop over [n] of [find_best_split] for the split feature [p]. *)
Fixpoint split_loop (iters : nat) (p num_points : nat) (split_step : Z)
         (min_node_size : nat) (left right : family) (split_counter : Z)
         (samples_counter : nat) (best : Best) (sum_array : list (list double))
  : run (Best * list (list double)) :=
  match iters with
  | O => Ret (best, sum_array)
  | S iters' =>
      '(point_bk, left, right) <- move_point data p left right ;;
      rp <- at_ right p ;;
      match rp with
      | [] => Undefined
      | next :: _ =>
          let split_counter := split_counter + 1 in
          let samples_counter := S samples_counter in
          if get_value data point_bk p >=? get_value data next p then
            split_loop iters' p num_points split_step min_node_size
                       left right split_counter samples_counter best sum_array
          else if (samples_counter <? min_node_size)%nat
                  || (size_sub num_points samples_counter
                      <? Z.of_nat min_node_size) then
            split_loop iters' p num_points split_step min_node_size
                       left right split_counter samples_counter best sum_array
          else if split_counter >=? split_step then
            '(left_child, sum_array) <- search left sum_array ;;
            '(right_child, sum_array) <- search right sum_array ;;
            let candidate :=
              Some (left_child, right_child, p, get_value data point_bk p) in
            let best :=
              match best with
              | None => candidate
              | Some (best_left_child, best_right_child, _, _) =>
                  if dlt (dadd (reward (node_data best_left_child))
                               (reward (node_data best_right_child)))
                         (dadd (reward (node_data left_child))
                               (reward (node_data right_child)))
                  then candidate else best
              end in
            split_loop iters' p num_points split_step min_node_size
                       left right 0 samples_counter best sum_array
          else
            split_loop iters' p num_points split_step min_node_size
                       left right split_counter samples_counter best sum_array
      end
  end.

(** The loop over the split features of [find_best_split]. *)
Fixpoint feature_loop (ps : list nat) (sorted_sets : family)
         (num_points : nat) (split_step : Z) (min_node_size : nat)
         (best : Best) (sum_array : list (list double))
  : run (Best * list (list double)) :=
  match ps with
  | [] => Ret (best, sum_array)
  | p :: ps' =>
      let right_sorted_sets := sorted_sets in
      let left_sorted_sets := create_sorted_sets data true in
      '(best, sum_array) <-
        split_loop (loop_bound num_points) p num_points split_step
                   min_node_size left_sorted_sets right_sorted_sets 0 0
                   best sum_array ;;
      feature_loop ps' sorted_sets num_points split_step min_node_size
                   best sum_array
  end.

End Recursion.

Fixpoint find_best_split (fuel : nat) (sorted_sets : family) (level : Z)
         (split_step : Z) (min_node_size : nat)
         (sum_array : list (list double)) (this_depth : Z)
  : run (Node * list (list double)) :=
  match fuel with
  | O => OutOfFuel
  | S fuel' =>
      if level =? 0 then
        t <- level_zero_learning sorted_sets (this_depth + 1) ;;
        Ret (t, sum_array)
      else if level =? 1 then
        level_one_learning sorted_sets sum_array split_step min_node_size
                           (this_depth + 1)
      else
        s0 <- at_ sorted_sets 0 ;;
        let num_points := length s0 in
        '(best, sum_array) <-
          feature_loop
            (fun sets sa =>
               find_best_split fuel' sets (level - 1) split_step
                               min_node_size sa (this_depth + 1))
            (seq 0 (num_features data)) sorted_sets num_points
            split_step min_node_size None sum_array ;;
        match best with
        | None =>
            t <- level_zero_learning sorted_sets (this_depth + 1) ;;
            Ret (t, sum_array)
        | Some (best_left_child, best_right_child,
                best_split_var, best_split_val) =>
            if (is_leaf best_left_child && is_leaf best_right_child)
               && (action_id (node_data best_left_child)
                   =? action_id (node_data best_right_child))%nat
            then
              let leaf_reward :=
                dadd (reward (node_data best_left_child))
                     (reward (node_data best_right_child)) in
              let leaf_action := action_id (node_data best_left_child) in
              let best_ans_as_leaf :=
                new_Node 0 0 leaf_reward leaf_action this_depth 0 in
              Ret (set_complete_sorted_sets best_ans_as_leaf sorted_sets,
                   sum_array)
            else
              let best_reward :=
                dadd (reward (node_data best_left_child))
                     (reward (node_data best_right_child)) in
              let height :=
                Z.max (height (node_data best_left_child))
                      (height (node_data best_right_child)) + 1 in
              let ret := new_Node best_split_var best_split_val best_reward
                                  0 (this_depth + 1) height in
              let ret := set_children ret best_left_child best_right_child in
              Ret (set_complete_sorted_sets ret sorted_sets, sum_array)
        end
  end.

Definition tree_search (fuel : nat) (depth : Z) (split_step : Z)
           (min_node_size : nat) : run Node :=
  let sorted_sets := create_sorted_sets data false in
  let sum_array := new_sum_array data in
  '(t, _) <- find_best_split fuel sorted_sets depth split_step min_node_size
                             sum_array 0 ;;
  Ret t.

(** The inner breadth-first walk of [tree_search_hybrid]; the result is
    the sequence of nodes pushed on the expansion queue. *)
Fixpoint bfs_loop (fuel : nat) (bfs_queue : list Node)
         (expansion_tree_height chop_depth : Z) : run (list Node) :=
  match bfs_queue with
  | [] => Ret []
  | bfs_node :: bfs_queue' =>
      match fuel with
      | O => OutOfFuel
      | S fuel' =>
          if expansion_tree_height - height (node_data bfs_node)
             =? chop_depth then
            pushed <- bfs_loop fuel' bfs_queue'
                               expansion_tree_height chop_depth ;;
            Ret (bfs_node :: pushed)
          else if expansion_tree_height - height (node_data bfs_node)
                  <? chop_depth then
            match bfs_node with
            | Leaf _ =>
                bfs_loop fuel' bfs_queue' expansion_tree_height chop_depth
            | Internal _ l r =>
                bfs_loop fuel' (bfs_queue' ++ [l; r])
                         expansion_tree_height chop_depth
            end
          else
            bfs_loop fuel' bfs_queue' expansion_tree_height chop_depth
      end
  end.

(** The [while (!expansion_queue.empty())] loop of [tree_search_hybrid].
    The loop writes to no node that the queue holds: [expansion_tree] is
    fresh and the assignment [expansion_node = expansion_tree] rebinds a
    local pointer.  Its only effects are on the queue and on [sum_array]. *)
Fixpoint expansion_loop (fuel search_fuel : nat)
         (expansion_queue : list Node)
         (max_global_depth complete_split_depth chop_depth : Z)
         (split_step : Z) (min_node_size : nat)
         (sum_array : list (list double)) : run unit :=
  match expansion_queue with
  | [] => Ret tt
  | expansion_node :: expansion_queue' =>
      match fuel with
      | O => OutOfFuel
      | S fuel' =>
          if height (node_data expansion_node) <? 1 then
            expansion_loop fuel' search_fuel expansion_queue'
                           max_global_depth complete_split_depth chop_depth
                           split_step min_node_size sum_array
          else if depth (node_data expansion_node) >=? max_global_depth then
            expansion_loop fuel' search_fuel expansion_queue'
                           max_global_depth complete_split_depth chop_depth
                           split_step min_node_size sum_array
          else
            '(expansion_tree, sum_array) <-
              find_best_split
                search_fuel
                (complete_sorted_sets (node_data expansion_node))
                complete_split_depth split_step min_node_size sum_array
                (depth (node_data expansion_node)) ;;
            let bfs_queue :=
              match expansion_tree with
              | Leaf _ => []
              | Internal _ l r => [l; r]
              end in
            pushed <- bfs_loop fuel' bfs_queue
                               (height (node_data expansion_tree))
                               chop_depth ;;
            expansion_loop fuel' search_fuel (expansion_queue' ++ pushed)
                           max_global_depth complete_split_depth chop_depth
                           split_step min_node_size sum_array
      end
  end.

Definition tree_search_hybrid (fuel search_fuel : nat)
           (max_global_depth complete_split_depth chop_depth
            repeat_splits : Z)
           (split_step : Z) (min_node_size : nat) : run Node :=
  let sorted_sets := create_sorted_sets data false in
  let sum_array := new_sum_array data in
  let start := new_Node 0 0 (Fin 0) 0 0 0 in
  let start := set_complete_sorted_sets start sorted_sets in
  _ <- expansion_loop fuel search_fuel [start]
                      max_global_depth complete_split_depth chop_depth
                      split_step min_node_size sum_array ;;
  Ret start.

(** Modelled from the spec: the dispatch of the host entry point
    [tree_search_rcpp], whose definition is not among the sources (only
    its generated wrapper in RcppExports.cpp is): the exact search at
    [depth] when [exact_search], else the hybrid expander with
    [max_global_depth = depth] and the three hybrid parameters. *)
Definition tree_search_rcpp (fuel search_fuel : nat)
           (depth split_step : Z) (min_node_size : nat)
           (exact_search : bool)
           (hybrid_complete_split_depth hybrid_chop_depth
            hybrid_repeat_splits : Z) : run Node :=
  if exact_search
  then tree_search search_fuel depth split_step min_node_size
  else tree_search_hybrid fuel search_fuel depth
                          hybrid_complete_split_depth hybrid_chop_depth
                          hybrid_repeat_splits split_step min_node_size.

End Search.

End RPkg.

(** ** The original search: [src/src/tree_search.cpp]

    The [#ifdef DEBUG] checks are not compiled in and are left out. *)

Module Core.

(** Modelled from the spec: the struct [Node] of the original
    tree_search.h, which is not among the sources; the constructor takes
    [(index, value, reward, action_id)].  [index] and [action_id] are
    [size_t] fields that the source fills with [-1], so they range over
    [Z] with [(size_t) -1 = SIZE_MAX]. *)
Record NodeData : Type := mkNodeData {
  index : Z;
  value : Z;
  reward : double;
  action_id : Z
}.

Inductive Node : Type :=
| Leaf (nd : NodeData)
| Internal (nd : NodeData) (left_child right_child : Node).

Definition node_data (t : Node) : NodeData :=
  match t with
  | Leaf nd => nd
  | Internal nd _ _ => nd
  end.

(** [new Node(index, value, reward, action_id)]. *)
Definition new_Node (index value : Z) (reward : double) (action_id : Z)
  : Node :=
  Leaf (mkNodeData index value reward action_id).

(** [t->left_child = l; t->right_child = r]. *)
Definition set_children (t l r : Node) : Node :=
  Internal (node_data t) l r.

Section Search.

Variable data : Data.

Fixpoint level_zero_loop (sorted_sets : family) (ds : list nat)
         (best_reward : double) (best_action : Z) : run (double * Z) :=
  match ds with
  | [] => Ret (best_reward, best_action)
  | d :: ds' =>
      s0 <- at_ sorted_sets 0 ;;
      let reward_sum_d := reward_sum data s0 d in
      if dlt best_reward reward_sum_d
      then level_zero_loop sorted_sets ds' reward_sum_d (Z.of_nat d)
      else level_zero_loop sorted_sets ds' best_reward best_action
  end.

Definition level_zero_learning (sorted_sets : family) : run Node :=
  '(best_reward, best_action) <-
    level_zero_loop sorted_sets (seq 0 (num_rewards data)) neg_INF SIZE_MAX ;;
  Ret (new_Node SIZE_MAX (-1) best_reward best_action).

Record L1State : Type := mkL1 {
  best_action_left : Z;
  best_action_right : Z;
  split_val : Z;
  split_var : Z;
  best_reward : double;
  global_best_left : double;
  global_best_right : double
}.

Fixpoint side_actions (sum_array : list (list double)) (n num_points : nat)
         (ds : list nat) (left_best right_best : double)
         (left_action right_action : Z)
  : run (double * double * Z * Z) :=
  match ds with
  | [] => Ret (left_best, right_best, left_action, right_action)
  | d :: ds' =>
      row <- at_ sum_array d ;;
      left_reward <- at_ row n ;;
      total <- at_ row num_points ;;
      let right_reward := dsub total left_reward in
      let '(left_best, left_action) :=
        if dlt left_best left_reward then (left_reward, Z.of_nat d)
        else (left_best, left_action) in
      let '(right_best, right_action) :=
        if dlt right_best right_reward then (right_reward, Z.of_nat d)
        else (right_best, right_action) in
      side_actions sum_array n num_points ds'
                   left_best right_best left_action right_action
  end.

Fixpoint level_one_scan (p num_points : nat) (sum_array : list (list double))
         (it : flat_set) (n : nat) (st : L1State) : run L1State :=
  match it with
  | [] => Undefined
  | point :: it' =>
      let n := S n in
      let value := get_value data point p in
      match it' with
      | [] => Ret st
      | next :: _ =>
          let next_value := get_value data next p in
          if value =? next_value then
            level_one_scan p num_points sum_array it' n st
          else
            '(left_best, right_best, left_action, right_action) <-
              side_actions sum_array n num_points
                           (seq 0 (num_rewards data))
                           neg_INF neg_INF SIZE_MAX SIZE_MAX ;;
            let st' :=
              if dlt (best_reward st) (dadd left_best right_best)
              then mkL1 left_action right_action value (Z.of_nat p)
                        (dadd left_best right_best) left_best right_best
              else st in
            level_one_scan p num_points sum_array it' n st'
      end
  end.

Fixpoint level_one_features (ps : list nat) (sorted_sets : family)
         (num_points : nat) (sum_array : list (list double)) (st : L1State)
  : run (L1State * list (list double)) :=
  match ps with
  | [] => Ret (st, sum_array)
  | p :: ps' =>
      sp <- at_ sorted_sets p ;;
      sum_array' <-
        fill_sum_array data (seq 0 (num_rewards data)) sp sum_array ;;
      st' <- level_one_scan p num_points sum_array' sp 0 st ;;
      level_one_features ps' sorted_sets num_points sum_array' st'
  end.

Definition level_one_learning (sorted_sets : family)
           (sum_array : list (list double)) : run (Node * list (list double)) :=
  s0 <- at_ sorted_sets 0 ;;
  let num_points := length s0 in
  '(st, sum_array') <-
    level_one_features (seq 0 (num_features data)) sorted_sets num_points
                       sum_array
                       (mkL1 SIZE_MAX SIZE_MAX (-1) SIZE_MAX
                             neg_INF neg_INF neg_INF) ;;
  if dlt neg_INF (best_reward st) then
    if best_action_left st =? best_action_right st then
      Ret (new_Node SIZE_MAX (-1) (best_reward st) (best_action_left st),
           sum_array')
    else
      let left := new_Node SIZE_MAX (-1) (global_best_left st)
                           (best_action_left st) in
      let right := new_Node SIZE_MAX (-1) (global_best_right st)
                            (best_action_right st) in
      let ans := new_Node (split_var st) (split_val st) (best_reward st)
                          SIZE_MAX in
      Ret (set_children ans left right, sum_array')
  else
    t <- level_zero_learning sorted_sets ;;
    Ret (t, sum_array').

(** [(best_left_child, best_right_child, best_split_var, best_split_val)],
    [None] while [best_left_child == nullptr]. *)
Definition Best : Type := option (Node * Node * Z * Z).

Section Recursion.

(** The recursive call [find_best_split(., level - 1, data, sum_array)]. *)
Variable search : family -> list (list double) -> run (Node * list (list double)).

Fixpoint split_loop (iters : nat) (p : nat) (left right : family)
         (best : Best) (best_ans_as_leaf : option Node)
         (sum_array : list (list double))
  : run (Best * option Node * list (list double)) :=
  match iters with
  | O => Ret (best, best_ans_as_leaf, sum_array)
  | S iters' =>
      '(point_bk, left, right) <- move_point data p left right ;;
      rp <- at_ right p ;;
      match rp with
      | [] => Undefined
      | next :: _ =>
          if get_value data point_bk p >=? get_value data next p then
            split_loop iters' p left right best best_ans_as_leaf sum_array
          else
            '(left_child, sum_array) <- search left sum_array ;;
            '(right_child, sum_array) <- search right sum_array ;;
            let better :=
              match best with
              | None => true
              | Some (best_left_child, best_right_child, _, _) =>
                  dlt (dadd (reward (node_data best_left_child))
                            (reward (node_data best_right_child)))
                      (dadd (reward (node_data left_child))
                            (reward (node_data right_child)))
              end in
            if better then
              if negb (action_id (node_data left_child) =? SIZE_MAX)
                 && (action_id (node_data left_child)
                     =? action_id (node_data right_child))
              then
                let leaf_reward :=
                  dadd (reward (node_data left_child))
                       (reward (node_data right_child)) in
                let leaf_action := action_id (node_data left_child) in
                split_loop iters' p left right None
                           (Some (new_Node SIZE_MAX (-1)
                                           leaf_reward leaf_action))
                           sum_array
              else
                split_loop iters' p left right
                           (Some (left_child, right_child, Z.of_nat p,
                                  get_value data point_bk p))
                           best_ans_as_leaf sum_array
            else
              split_loop iters' p left right best best_ans_as_leaf sum_array
      end
  end.

Fixpoint feature_loop (ps : list nat) (sorted_sets : family)
         (num_points : nat) (best : Best) (best_ans_as_leaf : option Node)
         (sum_array : list (list double))
  : run (Best * option Node * list (list double)) :=
  match ps with
  | [] => Ret (best, best_ans_as_leaf, sum_array)
  | p :: ps' =>
      let right_sorted_sets := sorted_sets in
      let left_sorted_sets := create_sorted_sets data true in
      '(best, best_ans_as_leaf, sum_array) <-
        split_loop (loop_bound num_points) p
                   left_sorted_sets right_sorted_sets
                   best best_ans_as_leaf sum_array ;;
      feature_loop ps' sorted_sets num_points best best_ans_as_leaf sum_array
  end.

End Recursion.

Fixpoint find_best_split (fuel : nat) (sorted_sets : family) (level : Z)
         (sum_array : list (list double)) : run (Node * list (list double)) :=
  match fuel with
  | O => OutOfFuel
  | S fuel' =>
      if level =? 1 then
        level_one_learning sorted_sets sum_array
      else
        s0 <- at_ sorted_sets 0 ;;
        let num_points := length s0 in
        '(best, best_ans_as_leaf, sum_array) <-
          feature_loop
            (fun sets sa => find_best_split fuel' sets (level - 1) sa)
            (seq 0 (num_features data)) sorted_sets num_points
            None None sum_array ;;
        match best with
        | None =>
            match best_ans_as_leaf with
            | Some leaf => Ret (leaf, sum_array)
            | None =>
                t <- level_zero_learning sorted_sets ;;
                Ret (t, sum_array)
            end
        | Some (best_left_child, best_right_child,
                best_split_var, best_split_val) =>
            let best_reward :=
              dadd (reward (node_data best_left_child))
                   (reward (node_data best_right_child)) in
            let ret := new_Node best_split_var best_split_val best_reward
                                SIZE_MAX in
            Ret (set_children ret best_left_child best_right_child,
                 sum_array)
        end
  end.

Definition tree_search (fuel : nat) (depth : Z) : run Node :=
  let sorted_sets := create_sorted_sets data false in
  let sum_array := new_sum_array data in
  '(t, _) <- find_best_split fuel sorted_sets depth sum_array ;;
  Ret t.

End Search.

End Core.

(** ** Concrete inputs *)

(** A data view over explicit row-major matrices. *)
Definition matrix_data (X Y : list (list Z)) : Data :=
  mkData (length X) (length (nth 0%nat X [])) (length (nth 0%nat Y []))
         (fun i j => nth j (nth i X []) 0)
         (fun i d => nth d (nth i Y []) 0).

(** Scenario 1 of the specification. *)
Definition data_two_regimes : Data :=
  matrix_data [[0]; [1]; [2]; [3]] [[1; 0]; [1; 0]; [0; 1]; [0; 1]].

(** Scenario 2 of the specification. *)
Definition data_one_regime : Data :=
  matrix_data [[0]; [1]; [2]; [3]] [[1; 0]; [1; 0]; [1; 0]; [1; 0]].

(** Scenario 1 again, held in a view that answers differently outside the
    matrix bounds. *)
Definition data_two_regimes_padded : Data :=
  mkData 4 1 2
         (fun i j => nth j (nth i [[0]; [1]; [2]; [3]] [9]) 9)
         (fun i d => nth d (nth i [[1; 0]; [1; 0]; [0; 1]; [0; 1]] [9; 9]) 9).

(** Two observations, each preferring its own action. *)
Definition data_two_points : Data :=
  matrix_data [[0]; [1]] [[1; 0]; [0; 1]].

(** Four observations in two groups whose rewards are the double
    [-2^1023]: the sum of two of them is below every finite double. *)
Definition data_overflow : Data :=
  matrix_data [[0]; [0]; [1]; [1]]
              [[- 2 ^ 1023]; [- 2 ^ 1023]; [- 2 ^ 1023]; [- 2 ^ 1023]].

(** ** Vocabulary of the properties *)

(** The inputs the entry points accept: N >= 1, p >= 1, d >= 1; the number
    of actions is a [size_t]. *)
Definition valid_data (data : Data) : Prop :=
  (1 <= num_rows data)%nat /\ (1 <= num_features data)%nat /\
  (1 <= num_rewards data)%nat /\ Z.of_nat (num_rewards data) <= SIZE_MAX.

(** Membership of a sample in a list of samples. *)
Definition mem (l : list nat) (i : nat) : bool := existsb (Nat.eqb i) l.

(** The order of set [j]. *)
Definition before (data : Data) (j : nat) (x y : Point) : Prop :=
  cmp_func data j x y = true.

(** The samples of [l] in the order of feature [j]. *)
Definition sorted_by (data : Data) (j : nat) (l : list nat) : flat_set :=
  filter (mem l) (fill_set data j).

(** The family whose sets all hold exactly the samples of [l]. *)
Definition frame_of (data : Data) (l : list nat) : family :=
  map (fun j => sorted_by data j l) (seq 0 (num_features data)).

(** A list of samples that a recursion frame can hold. *)
Definition observations (data : Data) (l : list nat) : Prop :=
  NoDup l /\ (forall i, In i l -> (i < num_rows data)%nat).

(** [sorted_sets[0].size()]. *)
Definition num_points (sorted_sets : family) : nat :=
  length (nth 0%nat sorted_sets []).

(** The families that [find_best_split] is called on, in either
    implementation: the family of [tree_search], and the [left] and
    [right] families that a move loop of a frame hands to the recursive
    calls after [k] moves on a feature [p]. *)
Inductive recursion_frame (data : Data) : family -> Prop :=
| frame_root : recursion_frame data (create_sorted_sets data false)
| frame_left : forall F p k L R,
    recursion_frame data F ->
    (p < num_features data)%nat -> (1 <= k)%nat -> (k < num_points F)%nat ->
    move_points data p k (create_sorted_sets data true) F = Ret (L, R) ->
    recursion_frame data L
| frame_right : forall F p k L R,
    recursion_frame data F ->
    (p < num_features data)%nat -> (1 <= k)%nat -> (k < num_points F)%nat ->
    move_points data p k (create_sorted_sets data true) F = Ret (L, R) ->
    recursion_frame data R.

(** Coherence of the two families of a move loop with the family [F] of
    its frame: every feature sees the same number of points on each side,
    the two sides add up to the frame, and the two sets of a feature
    partition the frame's observations. *)
Definition coherent_split (data : Data) (F L R : family) : Prop :=
  length L = num_features data /\ length R = num_features data /\
  forall j, (j < num_features data)%nat ->
    let Lj := nth j L [] in
    let Rj := nth j R [] in
    length Lj = num_points L /\ length Rj = num_points R /\
    (length Lj + length Rj = num_points F)%nat /\
    Permutation (Lj ++ Rj) (nth j F []) /\
    Permutation (nth j F []) (nth 0%nat F []) /\
    NoDup (nth j F []).

(** Modelled from the spec: the prediction-time traversal
    ([tree_search_rcpp_predict], not among the sources): an observation
    goes left iff [X[i, split_var] <= split_val]; the prediction is the
    [action_id] of the leaf reached. *)
Fixpoint predict (data : Data) (t : RPkg.Node) (i : nat) : nat :=
  match t with
  | RPkg.Leaf nd => RPkg.action_id nd
  | RPkg.Internal nd l r =>
      if get_value data i (RPkg.index nd) <=? RPkg.value nd
      then predict data l i else predict data r i
  end.

(** The sum of [Y[i, predict(i)]] over the rows [obs]. *)
Definition routed_reward (data : Data) (t : RPkg.Node) (obs : list nat) : Z :=
  fold_right (fun i acc => get_reward data i (predict data t i) + acc) 0 obs.

(** The column sum of action [a] over the rows [obs]. *)
Definition column_sum (data : Data) (a : nat) (obs : list nat) : Z :=
  fold_right (fun i acc => get_reward data i a + acc) 0 obs.

(** The largest magnitude of a reward of row [i], and the sum of these
    over the rows [obs]: a bound on every sum of rewards that the search
    forms over [obs]. *)
Definition row_mag (data : Data) (i : nat) : Z :=
  fold_right Z.max 0
    (map (fun a => Z.abs (get_reward data i a)) (seq 0 (num_rewards data))).

Definition mag (data : Data) (obs : list nat) : Z :=
  fold_right (fun i acc => row_mag data i + acc) 0 obs.

(** The rewards of the rows [obs] are integers small enough for every
    sum of doubles over [obs] to be exact. *)
Definition small_rewards (data : Data) (obs : list nat) : Prop :=
  mag data obs < 2 ^ 53.

(** The rewards of the data are integers small enough for every sum of
    doubles that the search forms to be exact. *)
Definition small_data (data : Data) : Prop :=
  small_rewards data (seq 0 (num_rows data)).

(** Every node records its distance [k] from the root. *)
Fixpoint depths_from (k : Z) (t : RPkg.Node) : bool :=
  match t with
  | RPkg.Leaf nd => RPkg.depth nd =? k
  | RPkg.Internal nd l r =>
      (RPkg.depth nd =? k) && depths_from (k + 1) l && depths_from (k + 1) r
  end.

(** The node the hybrid expander seeds its queue with:
    [Node(0, 0.0, 0, 0, 0, 0)] carrying the full family. *)
Definition placeholder (data : Data) : RPkg.Node :=
  RPkg.Leaf (RPkg.mkNodeData 0 0 (Fin 0) 0 0 0
                             (create_sorted_sets data false)).

(** The shape [tree_search] gives the scratch array, which the search
    keeps: one row per action, each with room for [num_rows + 1] cumulative
    sums and with entry 0 equal to zero. *)
Definition sum_shape (data : Data) (sum_array : list (list double)) : Prop :=
  length sum_array = num_rewards data /\
  forall d row, nth_error sum_array d = Some row ->
    (num_rows data < length row)%nat /\ nth_error row 0 = Some (Fin 0).

(** Row [d] of the scratch array holds the cumulative sums of action [d]
    along the points [sp], each the running sum of doubles over the first
    [k] points. *)
Definition row_filled (data : Data) (sum_array : list (list double))
           (sp : list nat) (d : nat) : Prop :=
  exists row,
    nth_error sum_array d = Some row /\
    forall k, (k <= length sp)%nat ->
      nth_error row k = Some (reward_sum data (firstn k sp) d).

Definition filled (data : Data) (sum_array : list (list double)) (sp : list nat)
  : Prop :=
  forall d, (d < num_rewards data)%nat -> row_filled data sum_array sp d.

(** The best reward [b] and action [a] of one side of a candidate split,
    while the actions [ds] remain to be tried: nothing yet, or an action
    of the data with its column sum over the observations [part] of that
    side. *)
Definition side_ok (data : Data) (b : double) (a : nat) (part ds : list nat)
  : Prop :=
  (b = NInf /\ ds <> []) \/
  ((a < num_rewards data)%nat /\ b = Fin (column_sum data a part)).

(** The split [(p, v)] sends the observations [pre] of [l] to the left and
    the observations [rest] to the right, at least [m] to each side. *)
Definition split_of (data : Data) (m : nat) (l : list nat) (p : nat) (v : Z)
           (pre rest : list nat) : Prop :=
  Permutation (pre ++ rest) l /\
  (forall i, In i pre -> get_value data i p <= v) /\
  (forall i, In i rest -> v < get_value data i p) /\
  (m <= length pre)%nat /\ (m <= length rest)%nat.

(** No internal node has two leaf children with the same action. *)
Fixpoint no_redundant_split (t : RPkg.Node) : bool :=
  match t with
  | RPkg.Leaf _ => true
  | RPkg.Internal _ l r =>
      negb (RPkg.is_leaf l && RPkg.is_leaf r
            && (RPkg.action_id (RPkg.node_data l)
                =? RPkg.action_id (RPkg.node_data r))%nat)
      && no_redundant_split l && no_redundant_split r
  end.

(** The observations of [obs] that the split [(q, v)] sends to the left,
    to the right. *)
Definition left_of (data : Data) (q : nat) (v : Z) (obs : list nat)
  : list nat :=
  filter (fun i => get_value data i q <=? v) obs.

Definition right_of (data : Data) (q : nat) (v : Z) (obs : list nat)
  : list nat :=
  filter (fun i => negb (get_value data i q <=? v)) obs.

Definition goes_left (data : Data) (nd : RPkg.NodeData) (obs : list nat)
  : list nat :=
  left_of data (RPkg.index nd) (RPkg.value nd) obs.

Definition goes_right (data : Data) (nd : RPkg.NodeData) (obs : list nat)
  : list nat :=
  right_of data (RPkg.index nd) (RPkg.value nd) obs.

(** Both subtrees of every internal node subtend at least [m] of the
    observations [obs] routed to that node. *)
Fixpoint min_size_ok (data : Data) (m : nat) (obs : list nat)
         (t : RPkg.Node) : bool :=
  match t with
  | RPkg.Leaf _ => true
  | RPkg.Internal nd l r =>
      (m <=? length (goes_left data nd obs))%nat
      && (m <=? length (goes_right data nd obs))%nat
      && min_size_ok data m (goes_left data nd obs) l
      && min_size_ok data m (goes_right data nd obs) r
  end.

(** The numbers of observations of [obs] that reach the leaves of [t]. *)
Fixpoint leaf_sizes (data : Data) (obs : list nat) (t : RPkg.Node)
  : list nat :=
  match t with
  | RPkg.Leaf _ => [length obs]
  | RPkg.Internal nd l r =>
      leaf_sizes data (goes_left data nd obs) l
      ++ leaf_sizes data (goes_right data nd obs) r
  end.

(** The trees the r-package search can return on the observations [l]: a
    leaf, or a split of [l] that respects [m] and does not carry two
    leaves with one action, over two trees built on its sides. *)
Inductive built (data : Data) (m : nat) : list nat -> RPkg.Node -> Prop :=
| built_leaf : forall l nd, built data m l (RPkg.Leaf nd)
| built_split : forall l pre rest nd tl tr,
    split_of data m l (RPkg.index nd) (RPkg.value nd) pre rest ->
    built data m pre tl -> built data m rest tr ->
    RPkg.is_leaf tl && RPkg.is_leaf tr
    && (RPkg.action_id (RPkg.node_data tl)
        =? RPkg.action_id (RPkg.node_data tr))%nat = false ->
    built data m l (RPkg.Internal nd tl tr).

(** What the best candidate of [level_one_learning] stands for: it names
    two actions and a feature of the data and, once its reward is above
    [-INF], a split of [l] that respects [m]. *)
Definition l1_ok (data : Data) (m : nat) (l : list nat) (st : RPkg.L1State)
  : Prop :=
  (RPkg.best_action_left st < num_rewards data)%nat /\
  (RPkg.best_action_right st < num_rewards data)%nat /\
  (RPkg.split_var st < num_features data)%nat /\
  (RPkg.best_reward st = NInf \/
   exists pre rest,
     split_of data m l (RPkg.split_var st) (RPkg.split_val st) pre rest).

(** The trees of the r-package search whose recorded rewards are exact:
    a leaf records the column sum of its action, an action of the data,
    over the observations [l]; an internal node records the sum of the
    rewards of its two children. *)
Inductive exact_tree (data : Data) (m : nat)
  : list nat -> RPkg.Node -> Prop :=
| exact_leaf : forall l nd,
    (RPkg.action_id nd < num_rewards data)%nat ->
    RPkg.reward nd = Fin (column_sum data (RPkg.action_id nd) l) ->
    exact_tree data m l (RPkg.Leaf nd)
| exact_split : forall l pre rest nd tl tr,
    split_of data m l (RPkg.index nd) (RPkg.value nd) pre rest ->
    exact_tree data m pre tl -> exact_tree data m rest tr ->
    RPkg.is_leaf tl && RPkg.is_leaf tr
    && (RPkg.action_id (RPkg.node_data tl)
        =? RPkg.action_id (RPkg.node_data tr))%nat = false ->
    RPkg.reward nd = dadd (RPkg.reward (RPkg.node_data tl))
                          (RPkg.reward (RPkg.node_data tr)) ->
    exact_tree data m l (RPkg.Internal nd tl tr).

(** The best candidate of [level_one_learning] with exact rewards: none
    yet, or a split of [l] that respects [m], with two actions of the data
    and their column sums over the two sides. *)
Definition l1_exact (data : Data) (m : nat) (l : list nat)
           (st : RPkg.L1State) : Prop :=
  RPkg.best_reward st = NInf \/
  exists pre rest,
    split_of data m l (RPkg.split_var st) (RPkg.split_val st) pre rest /\
    (RPkg.best_action_left st < num_rewards data)%nat /\
    (RPkg.best_action_right st < num_rewards data)%nat /\
    RPkg.global_best_left st
    = Fin (column_sum data (RPkg.best_action_left st) pre) /\
    RPkg.global_best_right st
    = Fin (column_sum data (RPkg.best_action_right st) rest) /\
    RPkg.best_reward st
    = dadd (RPkg.global_best_left st) (RPkg.global_best_right st).

(** The same vocabulary for the trees of the original search.  Its nodes
    have no [is_leaf]; a leaf is a node without children. *)
Definition core_is_leaf (t : Core.Node) : bool :=
  match t with
  | Core.Leaf _ => true
  | Core.Internal _ _ _ => false
  end.

Fixpoint core_no_redundant_split (t : Core.Node) : bool :=
  match t with
  | Core.Leaf _ => true
  | Core.Internal _ l r =>
      negb (core_is_leaf l && core_is_leaf r
            && (Core.action_id (Core.node_data l)
                =? Core.action_id (Core.node_data r)))
      && core_no_redundant_split l && core_no_redundant_split r
  end.

(** An action index of the data, as stored in a [size_t]. *)
Definition action_ok (data : Data) (a : Z) : Prop :=
  0 <= a < Z.of_nat (num_rewards data).

(** A tree of the original search that is free of redundant splits and
    whose root carries an action of the data when it is a leaf, and
    [(size_t) -1] when it is not. *)
Definition core_ok (data : Data) (t : Core.Node) : Prop :=
  core_no_redundant_split t = true /\
  (core_is_leaf t = true ->
   action_ok data (Core.action_id (Core.node_data t))) /\
  (core_is_leaf t = false -> Core.action_id (Core.node_data t) = SIZE_MAX).

(** The candidate kept by the original [find_best_split] was not pruned. *)
Definition core_best_ok (data : Data) (best : Core.Best) : Prop :=
  match best with
  | None => True
  | Some (tl, tr, _, _) =>
      core_ok data tl /\ core_ok data tr /\
      negb (Core.action_id (Core.node_data tl) =? SIZE_MAX)
      && (Core.action_id (Core.node_data tl)
          =? Core.action_id (Core.node_data tr)) = false
  end.

Definition core_leaf_ok (data : Data) (best_ans_as_leaf : option Core.Node)
  : Prop :=
  match best_ans_as_leaf with
  | None => True
  | Some t => core_ok data t
  end.

(** Two data views over identical matrices: the same dimensions and the
    same entry at every position inside them. *)
Definition same_data (d1 d2 : Data) : Prop :=
  num_rows d1 = num_rows d2 /\
  num_features d1 = num_features d2 /\
  num_rewards d1 = num_rewards d2 /\
  (forall i j, (i < num_rows d1)%nat -> (j < num_features d1)%nat ->
     get_value d1 i j = get_value d2 i j) /\
  (forall i a, (i < num_rows d1)%nat -> (a < num_rewards d1)%nat ->
     get_reward d1 i a = get_reward d2 i a).

(** *** Brute-force optimality *)

(** The axis-aligned policy trees a brute-force enumeration ranges over. *)
Inductive policy : Type :=
| PLeaf (action : nat)
| PSplit (split_var : nat) (split_val : Z) (left right : policy).

Fixpoint policy_depth (t : policy) : nat :=
  match t with
  | PLeaf _ => 0
  | PSplit _ _ l r => S (Nat.max (policy_depth l) (policy_depth r))
  end.

(** The actions and the split features of the tree exist in the data. *)
Fixpoint policy_ok (data : Data) (t : policy) : Prop :=
  match t with
  | PLeaf a => (a < num_rewards data)%nat
  | PSplit q _ l r =>
      (q < num_features data)%nat /\ policy_ok data l /\ policy_ok data r
  end.

(** The sum of the rewards of the observations [obs] under the actions
    the tree assigns to them. *)
Fixpoint policy_reward (data : Data) (t : policy) (obs : list nat) : Z :=
  match t with
  | PLeaf a => column_sum data a obs
  | PSplit q v l r =>
      policy_reward data l (left_of data q v obs)
      + policy_reward data r (right_of data q v obs)
  end.

(** No tree of depth at most [k] collects more than [v] on [obs]. *)
Definition bounds (data : Data) (k : nat) (obs : list nat) (v : Z) : Prop :=
  forall t, policy_ok data t -> (policy_depth t <= k)%nat ->
    policy_reward data t obs <= v.

(** [v] is the maximum over all trees of depth at most [k]. *)
Definition optimal (data : Data) (k : nat) (obs : list nat) (v : Z) : Prop :=
  (exists t, policy_ok data t /\ (policy_depth t <= k)%nat /\
             policy_reward data t obs = v) /\
  bounds data k obs v.

(** The policy tree a returned tree stands for. *)
Fixpoint to_policy (t : RPkg.Node) : policy :=
  match t with
  | RPkg.Leaf nd => PLeaf (RPkg.action_id nd)
  | RPkg.Internal nd l r =>
      PSplit (RPkg.index nd) (RPkg.value nd) (to_policy l) (to_policy r)
  end.

(** A tree on [l] with exact rewards that stands for a policy tree of
    depth at most [k] and records a reward no tree of that depth
    exceeds. *)
Definition opt_tree (data : Data) (k : nat) (l : list nat) (t : RPkg.Node)
  : Prop :=
  exact_tree data 1 l t /\
  policy_ok data (to_policy t) /\
  (policy_depth (to_policy t) <= k)%nat /\
  exists v, RPkg.reward (RPkg.node_data t) = Fin v /\
            Z.abs v <= mag data l /\ bounds data k l v.

(** A best reward so far: [-INF], or the double of a small integer. *)
Definition settled (b : double) : Prop :=
  b = NInf \/ exists v, b = Fin v /\ small v.

(** [b] is at most [b'], for best rewards so far. *)
Definition dle (b b' : double) : Prop :=
  b = NInf \/
  exists v v', b = Fin v /\ b' = Fin v' /\ small v /\ small v' /\ v <= v'.

(** No pair of trees of depth at most [k] under the split [(q, val)] of
    [l] collects more than [v]. *)
Definition pair_bound (data : Data) (k : nat) (l : list nat) (q : nat)
           (val v : Z) : Prop :=
  forall tl tr, policy_ok data tl -> policy_ok data tr ->
    (policy_depth tl <= k)%nat -> (policy_depth tr <= k)%nat ->
    policy_reward data tl (left_of data q val l)
    + policy_reward data tr (right_of data q val l) <= v.

(** The best reward [b] so far accounts for every threshold of feature
    [q] below the frontier that separates the observations [l]. *)
Definition covered (data : Data) (k : nat) (l : list nat) (b : double)
           (q : nat) (frontier : option Z) : Prop :=
  forall val,
    match frontier with Some c => val < c | None => True end ->
    left_of data q val l <> [] -> right_of data q val l <> [] ->
    exists v, b = Fin v /\ small v /\ pair_bound data k l q val v.

(** The best reward [b] so far is [-INF], or the double of a small
    integer that is at least every column sum over [l]. *)
Definition leaf_bound (data : Data) (l : list nat) (b : double) : Prop :=
  b = NInf \/
  exists v, b = Fin v /\ small v /\
    forall a, (a < num_rewards data)%nat -> column_sum data a l <= v.

(** The reward of the best candidate of [find_best_split]. *)
Definition best_reward_of (best : RPkg.Best) : double :=
  match best with
  | None => NInf
  | Some (tl, tr, _, _) =>
      dadd (RPkg.reward (RPkg.node_data tl)) (RPkg.reward (RPkg.node_data tr))
  end.

(** A returned tree that stands for a policy tree of depth at most [k]
    over the data. *)
Definition policy_part (data : Data) (k : nat) (t : RPkg.Node) : Prop :=
  policy_ok data (to_policy t) /\
  (policy_depth (to_policy t) <= k)%nat.

(** The best candidate of [find_best_split] at children depth [k] on the
    observations [l]: two trees that record the doubles of small
    integers whose sum is bounded by the magnitude of [l]. *)
Definition best_opt (data : Data) (k : nat) (l : list nat)
           (best : RPkg.Best) : Prop :=
  match best with
  | None => True
  | Some (tl, tr, p, _) =>
      (p < num_features data)%nat /\
      policy_part data k tl /\ policy_part data k tr /\
      exists vl vr,
        RPkg.reward (RPkg.node_data tl) = Fin vl /\
        RPkg.reward (RPkg.node_data tr) = Fin vr /\
        small vl /\ small vr /\ Z.abs (vl + vr) <= mag data l
  end.

(** The best candidate of [level_one_learning] names actions and a
    feature of the data. *)
Definition l1_names (data : Data) (st : RPkg.L1State) : Prop :=
  RPkg.best_reward st <> NInf ->
  (RPkg.best_action_left st < num_rewards data)%nat /\
  (RPkg.best_action_right st < num_rewards data)%nat /\
  (RPkg.split_var st < num_features data)%nat.

(** The best reward [b] and action [act] of one side of a candidate after
    the actions below [a] were tried on the observations [part]. *)
Definition side_max (data : Data) (b : double) (act : nat) (part : list nat)
           (a : nat) : Prop :=
  (a = 0%nat /\ b = NInf) \/
  ((act < a)%nat /\ b = Fin (column_sum data act part) /\
   forall d, (d < a)%nat ->
     column_sum data d part <= column_sum data act part).

(** The policy tree a tree of the original search stands for. *)
Fixpoint core_to_policy (t : Core.Node) : policy :=
  match t with
  | Core.Leaf nd => PLeaf (Z.to_nat (Core.action_id nd))
  | Core.Internal nd l r =>
      PSplit (Z.to_nat (Core.index nd)) (Core.value nd)
             (core_to_policy l) (core_to_policy r)
  end.

(** A tree of the original search that stands for a policy tree of depth
    at most [k], records the reward that policy tree collects on [l], and
    is not exceeded by any tree of that depth. *)
Definition core_opt (data : Data) (k : nat) (l : list nat) (t : Core.Node)
  : Prop :=
  policy_ok data (core_to_policy t) /\
  (policy_depth (core_to_policy t) <= k)%nat /\
  exists v,
    Core.reward (Core.node_data t) = Fin v /\
    policy_reward data (core_to_policy t) l = v /\
    bounds data k l v.

Definition core_side_max (data : Data) (b : double) (act : Z)
           (part : list nat) (a : nat) : Prop :=
  (a = 0%nat /\ b = NInf) \/
  exists d,
    act = Z.of_nat d /\ (d < a)%nat /\
    b = Fin (column_sum data d part) /\
    forall d', (d' < a)%nat ->
      column_sum data d' part <= column_sum data d part.

(** The best candidate of the original [level_one_learning] is a split
    of the data with two actions of the data, and records the reward that
    split collects on [l]. *)
Definition core_l1_opt (data : Data) (l : list nat) (st : Core.L1State)
  : Prop :=
  Core.best_reward st = NInf \/
  exists la ra p v,
    Core.best_action_left st = Z.of_nat la /\
    Core.best_action_right st = Z.of_nat ra /\
    Core.split_var st = Z.of_nat p /\
    (la < num_rewards data)%nat /\ (ra < num_rewards data)%nat /\
    (p < num_features data)%nat /\
    Core.best_reward st = Fin v /\
    policy_reward data (PSplit p (Core.split_val st) (PLeaf la) (PLeaf ra)) l
    = v.

(** The reward the original [find_best_split] compares the next
    candidate with, or the one of the leaf it saved when it compares with
    none. *)
Definition core_cur (best : Core.Best) (best_ans_as_leaf : option Core.Node)
  : double :=
  match best with
  | Some (tl, tr, _, _) =>
      dadd (Core.reward (Core.node_data tl)) (Core.reward (Core.node_data tr))
  | None =>
      match best_ans_as_leaf with
      | Some t => Core.reward (Core.node_data t)
      | None => NInf
      end
  end.

Definition core_best_opt (data : Data) (k : nat) (l : list nat)
           (best : Core.Best) : Prop :=
  match best with
  | None => True
  | Some (tl, tr, var, val) =>
      exists p vl vr,
        var = Z.of_nat p /\ (p < num_features data)%nat /\
        Core.reward (Core.node_data tl) = Fin vl /\
        Core.reward (Core.node_data tr) = Fin vr /\
        small vl /\ small vr /\
        policy_ok data (core_to_policy tl) /\
        policy_ok data (core_to_policy tr) /\
        (policy_depth (core_to_policy tl) <= k)%nat /\
        (policy_depth (core_to_policy tr) <= k)%nat /\
        policy_reward data
          (PSplit p val (core_to_policy tl) (core_to_policy tr)) l
        = vl + vr
  end.

Definition core_leaf_opt (data : Data) (l : list nat)
           (best_ans_as_leaf : option Core.Node) : Prop :=
  match best_ans_as_leaf with
  | None => True
  | Some t =>
      exists nd a,
        t = Core.Leaf nd /\ Core.action_id nd = Z.of_nat a /\
        (a < num_rewards data)%nat /\
        Core.reward nd = Fin (column_sum data a l)
  end.

(** *** Vocabulary of the further properties *)

(** Action [a] is the first action with the largest column sum over
    [obs]. *)
Definition least_argmax (data : Data) (obs : list nat) (a : nat) : Prop :=
  (a < num_rewards data)%nat /\
  (forall d, (d < num_rewards data)%nat ->
     column_sum data d obs <= column_sum data a obs) /\
  (forall d, (d < a)%nat -> column_sum data d obs < column_sum data a obs).

(** Every leaf records the column sum of its action over the
    observations routed to it, and every internal node the sum of the
    rewards of its two children. *)
Fixpoint rewards_ok (data : Data) (obs : list nat) (t : RPkg.Node) : Prop :=
  match t with
  | RPkg.Leaf nd =>
      RPkg.reward nd = Fin (column_sum data (RPkg.action_id nd) obs)
  | RPkg.Internal nd l r =>
      RPkg.reward nd = dadd (RPkg.reward (RPkg.node_data l))
                            (RPkg.reward (RPkg.node_data r)) /\
      rewards_ok data (goes_left data nd obs) l /\
      rewards_ok data (goes_right data nd obs) r
  end.

(** Every node records its height: 0 at a leaf, one more than the higher
    child at an internal node. *)
Fixpoint heights_ok (t : RPkg.Node) : Prop :=
  match t with
  | RPkg.Leaf nd => RPkg.height nd = 0
  | RPkg.Internal nd l r =>
      RPkg.height nd = Z.of_nat (policy_depth (to_policy t)) /\
      heights_ok l /\ heights_ok r
  end.

(** Every internal node carries the sorted sets of exactly the
    observations routed to it. *)
Fixpoint sets_ok (data : Data) (obs : list nat) (t : RPkg.Node) : Prop :=
  match t with
  | RPkg.Leaf _ => True
  | RPkg.Internal nd l r =>
      RPkg.complete_sorted_sets nd = frame_of data obs /\
      sets_ok data (goes_left data nd obs) l /\
      sets_ok data (goes_right data nd obs) r
  end.

(** What holds of the tree the r-package search returns at level [k] on
    the observations [l], whatever [split_step] and [min_node_size]. *)
Definition shaped (data : Data) (k : Z) (l : list nat) (t : RPkg.Node)
  : Prop :=
  heights_ok t /\ sets_ok data l t /\ policy_ok data (to_policy t) /\
  (0 <= k -> Z.of_nat (policy_depth (to_policy t)) <= k).

(** The best candidate of [find_best_split] is a split of [l] on a
    feature of the data that respects [m], with a tree on each side of
    which [P] holds. *)
Definition best_with (data : Data) (m : nat)
           (P : list nat -> RPkg.Node -> Prop) (l : list nat)
           (best : RPkg.Best) : Prop :=
  match best with
  | None => True
  | Some (tl, tr, p, v) =>
      (p < num_features data)%nat /\
      exists pre rest,
        split_of data m l p v pre rest /\ P pre tl /\ P rest tr
  end.

(** Along feature [p], no position between two neighbours of the order
    of the observations [l] is admitted as a split: the two neighbours
    have the same value, or one side would hold fewer than [m]
    observations, or fewer than [split_step] positions have been
    passed. *)
Definition rejects (data : Data) (split_step : Z) (m : nat) (l : list nat)
           (p : nat) : Prop :=
  forall pre x y rest,
    sorted_by data p l = pre ++ x :: y :: rest ->
    get_value data x p = get_value data y p \/
    (S (length pre) < m)%nat \/
    (length l - S (length pre) < m)%nat \/
    Z.of_nat (S (length pre)) < split_step.

(** No split of the rows can be admitted: all rows agree on every
    feature, or there are fewer than [2 * min_node_size] rows, or there
    are at most [split_step] rows. *)
Definition no_split_admitted (data : Data) (split_step : Z)
           (min_node_size : nat) : Prop :=
  (forall i i' j, (i < num_rows data)%nat -> (i' < num_rows data)%nat ->
     (j < num_features data)%nat ->
     get_value data i j = get_value data i' j) \/
  (num_rows data < 2 * min_node_size)%nat \/
  Z.of_nat (num_rows data) <= split_step.

(** Three observations that agree on their one feature. *)
Definition data_constant_feature : Data :=
  matrix_data [[5]; [5]; [5]] [[1; 0]; [0; 2]; [0; 2]].

(** A view of matrices with no row: one feature, two actions. *)
Definition data_no_rows : Data :=
  mkData 0 1 2 (fun _ _ => 0) (fun _ _ => 0).

(** Two runs of a search step on two scratch arrays end the same way:
    with the same result, each on an array of the right shape, or both
    without a result. *)
Definition same_tree {T : Type} (data : Data)
           (r1 r2 : run (T * list (list double))) : Prop :=
  match r1, r2 with
  | Ret (t1, a1), Ret (t2, a2) =>
      t1 = t2 /\ sum_shape data a1 /\ sum_shape data a2
  | Undefined, Undefined => True
  | OutOfFuel, OutOfFuel => True
  | _, _ => False
  end.

(** Case analysis on two runs related by [same_tree]: what remains is
    the case where both returned. *)
Ltac both_runs H :=
  revert H;
  match goal with
  | |- same_tree _ ?r1 ?r2 -> _ =>
      destruct r1 as [[? ?]| |]; destruct r2 as [[? ?]| |];
      cbn [same_tree bind]; intros H; try contradiction; try exact I
  end.

(** The rows of [d2] are the rows of [d1] in another order: row [i] of
    [d2] is row [sigma i] of [d1]. *)
Definition rows_permuted (d1 d2 : Data) (sigma : nat -> nat) : Prop :=
  num_rows d2 = num_rows d1 /\
  num_features d2 = num_features d1 /\
  num_rewards d2 = num_rewards d1 /\
  Permutation (map sigma (seq 0 (num_rows d1))) (seq 0 (num_rows d1)) /\
  (forall i j, (i < num_rows d1)%nat -> (j < num_features d1)%nat ->
     get_value d2 i j = get_value d1 (sigma i) j) /\
  (forall i a, (i < num_rows d1)%nat -> (a < num_rewards d1)%nat ->
     get_reward d2 i a = get_reward d1 (sigma i) a).

(** Scenario 1 of the specification with its rows in reverse order. *)
Definition data_two_regimes_reversed : Data :=
  matrix_data [[3]; [2]; [1]; [0]] [[0; 1]; [0; 1]; [1; 0]; [1; 0]].

(** The largest reward of row [i] over the actions of the data (0 when
    there is no action), and the sum of these over the rows [obs]: what
    an assignment of the best action to every row would collect. *)
Definition row_best (data : Data) (i : nat) : Z :=
  match map (get_reward data i) (seq 0 (num_rewards data)) with
  | [] => 0
  | r :: rs => fold_right Z.max r rs
  end.

Definition oracle_reward (data : Data) (obs : list nat) : Z :=
  fold_right (fun i acc => row_best data i + acc) 0 obs.

(** Splits a conjunction into its conjuncts, and nothing else. *)
Ltac splits := repeat match goal with |- _ /\ _ => split end.

(** ** Ordering facts *)

Section Order.

Variable data : Data.
Variable j : nat.

Lemma before_irrefl : forall x, ~ before data j x x.
Proof.
  intros x. unfold before, cmp_func. rewrite Z.eqb_refl.
  rewrite Nat.ltb_irrefl. discriminate.
Qed.

Lemma before_trans : forall x y z,
  before data j x y -> before data j y z -> before data j x z.
Proof.
  unfold before, cmp_func. intros x y z.
  destruct (Z.eqb_spec (get_value data x j) (get_value data y j));
  destruct (Z.eqb_spec (get_value data y j) (get_value data z j));
  destruct (Z.eqb_spec (get_value data x j) (get_value data z j));
  rewrite ?Nat.ltb_lt, ?Z.ltb_lt; lia.
Qed.

Lemma before_asym : forall x y, before data j x y -> ~ before data j y x.
Proof.
  intros x y Hxy Hyx. apply (before_irrefl x). eapply before_trans; eauto.
Qed.

Lemma before_total : forall x y,
  cmp_func data j x y = false -> cmp_func data j y x = false -> x = y.
Proof.
  unfold cmp_func. intros x y.
  destruct (Z.eqb_spec (get_value data x j) (get_value data y j));
  destruct (Z.eqb_spec (get_value data y j) (get_value data x j));
  rewrite ?Nat.ltb_ge, ?Z.ltb_ge; lia.
Qed.

Lemma before_value : forall x y,
  before data j x y -> get_value data x j <= get_value data y j.
Proof.
  unfold before, cmp_func. intros x y.
  destruct (Z.eqb_spec (get_value data x j) (get_value data y j));
  rewrite ?Z.ltb_lt; lia.
Qed.

(** Sorted sequences with the same points are the same sequence: the
    iteration order of a set is fixed by its comparator. *)
Lemma sorted_unique : forall l1 l2,
  StronglySorted (before data j) l1 -> StronglySorted (before data j) l2 ->
  (forall x, In x l1 <-> In x l2) -> l1 = l2.
Proof.
  induction l1 as [|a l1 IH]; intros l2 H1 H2 Hin.
  - destruct l2 as [|b l2]; [reflexivity|].
    exfalso. apply (proj2 (Hin b)). left; reflexivity.
  - destruct l2 as [|b l2].
    + exfalso. apply (proj1 (Hin a)). left; reflexivity.
    + apply StronglySorted_inv in H1. destruct H1 as [S1 F1].
      apply StronglySorted_inv in H2. destruct H2 as [S2 F2].
      rewrite Forall_forall in F1, F2.
      assert (a = b) as ->.
      { destruct (proj1 (Hin a) (or_introl eq_refl)) as [E|E]; [auto|].
        destruct (proj2 (Hin b) (or_introl eq_refl)) as [E'|E']; [auto|].
        exfalso. eapply before_asym; [apply (F1 _ E') | apply (F2 _ E)]. }
      f_equal. apply IH; auto.
      intros x. split; intros Hx.
      * destruct (proj1 (Hin x) (or_intror Hx)) as [E|E]; [|auto].
        subst x. exfalso. eapply before_irrefl. apply (F1 _ Hx).
      * destruct (proj2 (Hin x) (or_intror Hx)) as [E|E]; [|auto].
        subst x. exfalso. eapply before_irrefl. apply (F2 _ Hx).
Qed.

Lemma sorted_NoDup : forall l,
  StronglySorted (before data j) l -> NoDup l.
Proof.
  induction 1 as [|a l S IH F]; constructor; auto.
  intros Hin. rewrite Forall_forall in F.
  eapply before_irrefl. apply (F _ Hin).
Qed.

Lemma sorted_filter : forall (f : nat -> bool) l,
  StronglySorted (before data j) l ->
  StronglySorted (before data j) (filter f l).
Proof.
  induction 1 as [|a l S IH F]; simpl; [constructor|].
  destruct (f a); auto. constructor; auto.
  rewrite Forall_forall in *. intros x Hx.
  apply filter_In in Hx. apply F, Hx.
Qed.

Lemma insert_In : forall x y s,
  In y (insert (cmp_func data j) x s) <-> y = x \/ In y s.
Proof.
  induction s as [|a s IH]; simpl.
  - intuition.
  - destruct (cmp_func data j x a) eqn:E1; simpl.
    + intuition.
    + destruct (cmp_func data j a x) eqn:E2; simpl.
      * rewrite IH. intuition.
      * assert (x = a) by (apply before_total; assumption). subst. intuition.
Qed.

Lemma insert_sorted : forall x s,
  StronglySorted (before data j) s ->
  StronglySorted (before data j) (insert (cmp_func data j) x s).
Proof.
  induction 1 as [|a s S IH F]; simpl.
  - repeat constructor.
  - destruct (cmp_func data j x a) eqn:E1.
    + constructor; [constructor; assumption|].
      constructor; [exact E1|].
      rewrite Forall_forall in *. intros y Hy.
      eapply before_trans; [exact E1 | apply F, Hy].
    + destruct (cmp_func data j a x) eqn:E2.
      * constructor; auto. rewrite Forall_forall in *.
        intros y Hy. apply insert_In in Hy. destruct Hy as [->|Hy]; auto.
      * constructor; assumption.
Qed.

(** Erasing a point that a sorted set holds removes exactly that point. *)
Lemma erase_found_sorted : forall x s,
  StronglySorted (before data j) s -> In x s ->
  erase_found (cmp_func data j) x s
  = Ret (filter (fun y => negb (y =? x)%nat) s).
Proof.
  induction 1 as [|a s S IH F]; intros Hin; [contradiction|].
  simpl. rewrite Forall_forall in F.
  destruct (Nat.eqb_spec a x) as [->|Hne]; simpl.
  - assert (cmp_func data j x x = false) as ->.
    { destruct (cmp_func data j x x) eqn:E; auto.
      exfalso. apply (before_irrefl x). exact E. }
    f_equal. symmetry. apply forallb_filter_id.
    apply forallb_forall. intros y Hy.
    destruct (Nat.eqb_spec y x) as [->|]; auto.
    exfalso. apply (before_irrefl x). apply F, Hy.
  - destruct Hin as [E|Hin]; [congruence|].
    assert (cmp_func data j a x = true) as -> by (apply F, Hin).
    rewrite (IH Hin). reflexivity.
Qed.

End Order.

(** ** Vectors built by tabulation *)

Lemma at_map_seq : forall (A : Type) (g : nat -> A) n a i,
  (i < n)%nat -> at_ (map g (seq a n)) i = Ret (g (a + i)%nat).
Proof.
  intros A g n a i Hi. unfold at_.
  rewrite nth_error_map, nth_error_seq.
  destruct (Nat.ltb_spec i n); [reflexivity | lia].
Qed.

Lemma set_at_map_seq : forall (A : Type) (g : nat -> A) v n a i,
  (i < n)%nat ->
  set_at (map g (seq a n)) i v
  = Ret (map (fun k => if (k =? a + i)%nat then v else g k) (seq a n)).
Proof.
  intros A g v. induction n as [|n IH]; intros a i Hi; [lia|].
  simpl. destruct i as [|i].
  - rewrite Nat.add_0_r, Nat.eqb_refl. do 2 f_equal.
    apply map_ext_in. intros k Hk. apply in_seq in Hk.
    destruct (Nat.eqb_spec k a); [lia | reflexivity].
  - rewrite (IH (S a) i) by lia. simpl.
    destruct (Nat.eqb_spec a (a + S i)); [lia|].
    replace (a + S i)%nat with (S (a + i)) by lia. reflexivity.
Qed.

Lemma nth_map_seq : forall (A : Type) (g : nat -> A) d n i,
  (i < n)%nat -> nth i (map g (seq 0 n)) d = g i.
Proof.
  intros A g d n i Hi.
  apply nth_error_nth. rewrite nth_error_map, nth_error_seq.
  destruct (Nat.ltb_spec i n); [reflexivity | lia].
Qed.

Lemma filter_filter : forall (A : Type) (f g : A -> bool) l,
  filter f (filter g l) = filter (fun x => g x && f x) l.
Proof.
  induction l as [|a l IH]; simpl; [reflexivity|].
  destruct (g a); simpl; [destruct (f a)|]; rewrite ?IH; reflexivity.
Qed.

Lemma Permutation_filter : forall (A : Type) (f : A -> bool) l l',
  Permutation l l' -> Permutation (filter f l) (filter f l').
Proof.
  induction 1; simpl.
  - constructor.
  - destruct (f x); auto.
  - destruct (f x), (f y); auto. constructor.
  - eapply Permutation_trans; eauto.
Qed.

Lemma mem_In : forall l i, mem l i = true <-> In i l.
Proof.
  intros l i. unfold mem. rewrite existsb_exists. split.
  - intros [y [Hy E]]. apply Nat.eqb_eq in E. subst. exact Hy.
  - intros H. exists i. split; [exact H | apply Nat.eqb_refl].
Qed.

(** ** The sets of a frame *)

Section Frames.

Variable data : Data.

Lemma fold_insert_sorted : forall j l s,
  StronglySorted (before data j) s ->
  StronglySorted (before data j)
    (fold_left (fun setj i => insert (cmp_func data j) i setj) l s).
Proof.
  induction l as [|a l IH]; intros s Hs; simpl; auto.
  apply IH. apply insert_sorted. exact Hs.
Qed.

Lemma fold_insert_In : forall j l s y,
  In y (fold_left (fun setj i => insert (cmp_func data j) i setj) l s)
  <-> In y l \/ In y s.
Proof.
  induction l as [|a l IH]; intros s y; simpl.
  - intuition.
  - rewrite IH, insert_In. intuition.
Qed.

Lemma fill_set_sorted : forall j,
  StronglySorted (before data j) (fill_set data j).
Proof. intros j. apply fold_insert_sorted. constructor. Qed.

Lemma fill_set_In : forall j i,
  In i (fill_set data j) <-> (i < num_rows data)%nat.
Proof.
  intros j i. unfold fill_set. rewrite fold_insert_In, in_seq.
  simpl. intuition lia.
Qed.

Lemma sorted_by_sorted : forall j l,
  StronglySorted (before data j) (sorted_by data j l).
Proof. intros. apply sorted_filter, fill_set_sorted. Qed.

Lemma sorted_by_In : forall j l i,
  In i (sorted_by data j l) <-> In i l /\ (i < num_rows data)%nat.
Proof.
  intros. unfold sorted_by. rewrite filter_In, fill_set_In, mem_In. tauto.
Qed.

Lemma sorted_by_NoDup : forall j l, NoDup (sorted_by data j l).
Proof. intros. eapply sorted_NoDup, sorted_by_sorted. Qed.

Lemma sorted_by_perm : forall j l,
  observations data l -> Permutation (sorted_by data j l) l.
Proof.
  intros j l [Hnd Hlt]. apply NoDup_Permutation.
  - apply sorted_by_NoDup.
  - exact Hnd.
  - intros i. rewrite sorted_by_In. split; [tauto|]. intros H. auto.
Qed.

Lemma sorted_by_length : forall j l,
  observations data l -> length (sorted_by data j l) = length l.
Proof. intros. apply Permutation_length, sorted_by_perm. assumption. Qed.

Lemma sorted_by_ext : forall j l l',
  (forall i, (i < num_rows data)%nat -> (In i l <-> In i l')) ->
  sorted_by data j l = sorted_by data j l'.
Proof.
  intros j l l' H. apply sorted_unique with (data := data) (j := j);
    try apply sorted_by_sorted.
  intros i. rewrite !sorted_by_In. split; intros [Hi Hn]; split; auto;
    apply (H i Hn); exact Hi.
Qed.

Lemma sorted_by_self : forall j s,
  StronglySorted (before data j) s ->
  (forall i, In i s -> (i < num_rows data)%nat) ->
  sorted_by data j s = s.
Proof.
  intros j s Hs Hlt. apply sorted_unique with (data := data) (j := j); auto.
  - apply sorted_by_sorted.
  - intros i. rewrite sorted_by_In. split; [tauto | auto].
Qed.

Lemma sorted_by_nil : forall j, sorted_by data j [] = [].
Proof.
  intros j. unfold sorted_by.
  induction (fill_set data j) as [|a l IH]; simpl; auto.
Qed.

Lemma frame_of_ext : forall l l',
  (forall i, (i < num_rows data)%nat -> (In i l <-> In i l')) ->
  frame_of data l = frame_of data l'.
Proof.
  intros l l' H. unfold frame_of. apply map_ext. intros j.
  apply sorted_by_ext. exact H.
Qed.

Lemma frame_of_sorted_by : forall p l,
  frame_of data (sorted_by data p l) = frame_of data l.
Proof.
  intros p l. apply frame_of_ext. intros i Hi.
  rewrite sorted_by_In. tauto.
Qed.

Lemma frame_of_root :
  create_sorted_sets data false = frame_of data (seq 0 (num_rows data)).
Proof.
  unfold create_sorted_sets, frame_of. apply map_ext. intros j.
  symmetry. unfold sorted_by. apply forallb_filter_id.
  apply forallb_forall. intros i Hi. apply mem_In, in_seq.
  apply fill_set_In in Hi. lia.
Qed.

Lemma frame_of_empty : create_sorted_sets data true = frame_of data [].
Proof.
  unfold create_sorted_sets, frame_of. apply map_ext. intros j.
  symmetry. apply sorted_by_nil.
Qed.

Lemma observations_root : observations data (seq 0 (num_rows data)).
Proof.
  split; [apply seq_NoDup|]. intros i Hi. apply in_seq in Hi. lia.
Qed.

Lemma observations_app : forall l1 l2,
  observations data (l1 ++ l2) ->
  observations data l1 /\ observations data l2.
Proof.
  intros l1 l2 [Hnd Hlt]. split; split.
  - eapply NoDup_app_remove_r; eauto.
  - intros i Hi. apply Hlt, in_or_app; auto.
  - eapply NoDup_app_remove_l; eauto.
  - intros i Hi. apply Hlt, in_or_app; auto.
Qed.

Lemma observations_perm : forall l l',
  Permutation l l' -> observations data l -> observations data l'.
Proof.
  intros l l' HP [Hnd Hlt]. split.
  - eapply Permutation_NoDup; eauto.
  - intros i Hi. apply Hlt. eapply Permutation_in; [symmetry|]; eauto.
Qed.

Lemma at_frame_of : forall l j,
  (j < num_features data)%nat ->
  at_ (frame_of data l) j = Ret (sorted_by data j l).
Proof. intros. unfold frame_of. rewrite at_map_seq; auto. Qed.

Lemma nth_frame_of : forall l j,
  (j < num_features data)%nat ->
  nth j (frame_of data l) [] = sorted_by data j l.
Proof. intros. unfold frame_of. apply nth_map_seq. assumption. Qed.

Lemma frame_of_length : forall l,
  length (frame_of data l) = num_features data.
Proof. intros. unfold frame_of. rewrite length_map, length_seq. auto. Qed.

Lemma num_points_frame_of : forall l,
  observations data l -> (1 <= num_features data)%nat ->
  num_points (frame_of data l) = length l.
Proof.
  intros l Hl Hp. unfold num_points. rewrite nth_frame_of by lia.
  apply sorted_by_length. exact Hl.
Qed.

End Frames.

(** ** The move step on frames *)

Section Moves.

Variable data : Data.

Lemma move_others_spec : forall p x (er : nat -> flat_set) n a gl gr,
  (a + n = num_features data)%nat ->
  (forall j, (a <= j < num_features data)%nat -> j <> p ->
     erase_found (cmp_func data j) x (gr j) = Ret (er j)) ->
  move_others data p x (seq a n)
              (map gl (seq 0 (num_features data)))
              (map gr (seq 0 (num_features data)))
  = Ret (map (fun j => if (a <=? j)%nat && negb (j =? p)%nat
                       then insert (cmp_func data j) x (gl j) else gl j)
             (seq 0 (num_features data)),
         map (fun j => if (a <=? j)%nat && negb (j =? p)%nat
                       then er j else gr j)
             (seq 0 (num_features data))).
Proof.
  intros p x er. induction n as [|n IH]; intros a gl gr Ha Her.
  - simpl. do 2 f_equal; apply map_ext_in; intros j Hj; apply in_seq in Hj;
      destruct (Nat.leb_spec a j); try lia; reflexivity.
  - simpl. destruct (Nat.eqb_spec a p) as [->|Hap].
    + rewrite IH; [| lia | intros; apply Her; auto; lia].
      do 2 f_equal; apply map_ext; intros j;
        destruct (Nat.leb_spec (S p) j), (Nat.leb_spec p j),
                 (Nat.eqb_spec j p); simpl; try lia; reflexivity.
    + rewrite (at_map_seq _ gr) by lia. simpl.
      rewrite Her by (auto; lia). simpl.
      rewrite set_at_map_seq by lia. simpl.
      rewrite (at_map_seq _ gl) by lia. simpl.
      rewrite set_at_map_seq by lia. simpl.
      rewrite IH.
      * do 2 f_equal; apply map_ext; intros j;
          destruct (Nat.leb_spec (S a) j), (Nat.leb_spec a j),
                   (Nat.eqb_spec j p), (Nat.eqb_spec j a);
          simpl; try lia; subst; reflexivity.
      * lia.
      * intros j Hj Hjp. destruct (Nat.eqb_spec j a); [lia|].
        apply Her; auto; lia.
Qed.

(** One move: the first point of [right[p]] crosses over in every set. *)
Lemma move_point_spec : forall p pre x rest,
  (p < num_features data)%nat ->
  observations data (pre ++ x :: rest) ->
  StronglySorted (before data p) (x :: rest) ->
  move_point data p (frame_of data pre) (frame_of data (x :: rest))
  = Ret (x, frame_of data (pre ++ [x]), frame_of data rest).
Proof.
  intros p pre x rest Hp Hobs Hs.
  destruct (observations_app _ _ _ Hobs) as [Hpre [Hnd Hlt]].
  assert (Hx : (x < num_rows data)%nat) by (apply Hlt; left; reflexivity).
  assert (Hxr : ~ In x rest) by (inversion Hnd; assumption).
  assert (Hins : forall j,
    insert (cmp_func data j) x (sorted_by data j pre)
    = sorted_by data j (pre ++ [x])).
  { intros j. apply sorted_unique with (data := data) (j := j).
    - apply insert_sorted, sorted_by_sorted.
    - apply sorted_by_sorted.
    - intros i. rewrite insert_In, !sorted_by_In, in_app_iff. simpl.
      split; [intros [->|[? ?]] | intros [[?|[?|[]]] ?]]; subst; tauto. }
  assert (Hers : forall j,
    erase_found (cmp_func data j) x (sorted_by data j (x :: rest))
    = Ret (sorted_by data j rest)).
  { intros j. rewrite erase_found_sorted.
    - apply (f_equal Ret).
      apply sorted_unique with (data := data) (j := j).
      + apply sorted_filter, sorted_by_sorted.
      + apply sorted_by_sorted.
      + intros i. rewrite filter_In, !sorted_by_In. simpl.
        destruct (Nat.eqb_spec i x); subst; simpl; intuition congruence.
    - apply sorted_by_sorted.
    - apply sorted_by_In. simpl. auto. }
  unfold move_point. rewrite at_frame_of by assumption. simpl.
  rewrite (sorted_by_self data p (x :: rest)) by assumption.
  unfold frame_of at 1 2 3.
  rewrite set_at_map_seq by assumption. simpl.
  rewrite at_map_seq by assumption. simpl.
  rewrite set_at_map_seq by assumption. simpl.
  rewrite (move_others_spec p x (fun j => sorted_by data j rest)).
  - simpl. unfold frame_of.
    match goal with
    | |- Ret (_, ?b, ?c) = Ret (_, ?b', ?c') =>
        replace b with b'; [replace c with c'; [reflexivity|] |]
    end.
    + apply map_ext. intros j.
      destruct (Nat.eqb_spec j p); simpl; [|reflexivity]. subst.
      apply sorted_by_self.
      * inversion Hs; assumption.
      * intros i Hi. apply Hlt. right. exact Hi.
    + apply map_ext. intros j.
      destruct (Nat.eqb_spec j p); simpl; subst; symmetry; apply Hins.
  - reflexivity.
  - intros j Hj Hjp. destruct (Nat.eqb_spec j p); [contradiction|].
    apply Hers.
Qed.

(** [k] moves from a family sorted on [p]. *)
Lemma move_points_spec : forall p k pre rest,
  (p < num_features data)%nat ->
  observations data (pre ++ rest) ->
  StronglySorted (before data p) rest ->
  (k <= length rest)%nat ->
  move_points data p k (frame_of data pre) (frame_of data rest)
  = Ret (frame_of data (pre ++ firstn k rest), frame_of data (skipn k rest)).
Proof.
  intros p. induction k as [|k IH]; intros pre rest Hp Hobs Hs Hk.
  - simpl. rewrite app_nil_r. reflexivity.
  - destruct rest as [|x rest]; [simpl in Hk; lia|].
    simpl. rewrite move_point_spec by assumption. simpl.
    rewrite IH.
    + rewrite <- app_assoc. reflexivity.
    + assumption.
    + rewrite <- app_assoc. exact Hobs.
    + inversion Hs; assumption.
    + simpl in Hk. lia.
Qed.

(** The move loop of a frame that holds the observations [l]. *)
Lemma move_points_frame : forall p k l,
  (p < num_features data)%nat -> observations data l ->
  (k <= length l)%nat ->
  move_points data p k (create_sorted_sets data true) (frame_of data l)
  = Ret (frame_of data (firstn k (sorted_by data p l)),
         frame_of data (skipn k (sorted_by data p l))).
Proof.
  intros p k l Hp Hobs Hk.
  rewrite frame_of_empty, <- (frame_of_sorted_by data p l).
  apply (move_points_spec p k [] (sorted_by data p l)); auto.
  - simpl. eapply observations_perm; [symmetry; apply sorted_by_perm|]; auto.
  - apply sorted_by_sorted.
  - rewrite sorted_by_length; auto.
Qed.

Lemma observations_split : forall p k l,
  observations data l ->
  observations data (firstn k (sorted_by data p l)) /\
  observations data (skipn k (sorted_by data p l)).
Proof.
  intros p k l Hobs. apply observations_app.
  rewrite firstn_skipn.
  eapply observations_perm; [symmetry; apply sorted_by_perm|]; auto.
Qed.

(** Every family the search recurses on holds one list of observations. *)
Lemma recursion_frame_observations : forall F,
  recursion_frame data F ->
  exists l, observations data l /\ F = frame_of data l.
Proof.
  induction 1 as [|F p k L R HF [l [Hobs ->]] Hp Hk1 Hk HM
                   |F p k L R HF [l [Hobs ->]] Hp Hk1 Hk HM].
  - exists (seq 0 (num_rows data)). split.
    + apply observations_root.
    + apply frame_of_root.
  - rewrite num_points_frame_of in Hk by (auto; lia).
    rewrite move_points_frame in HM by (auto; lia).
    inversion HM; subst.
    exists (firstn k (sorted_by data p l)). split; auto.
    apply observations_split; assumption.
  - rewrite num_points_frame_of in Hk by (auto; lia).
    rewrite move_points_frame in HM by (auto; lia).
    inversion HM; subst.
    exists (skipn k (sorted_by data p l)). split; auto.
    apply observations_split; assumption.
Qed.

Lemma coherent_split_frames : forall l pre rest,
  observations data l -> Permutation (pre ++ rest) l ->
  coherent_split data (frame_of data l)
                 (frame_of data pre) (frame_of data rest).
Proof.
  intros l pre rest Hobs HP.
  assert (Hpr : observations data (pre ++ rest))
    by (eapply observations_perm; [symmetry|]; eauto).
  destruct (observations_app _ _ _ Hpr) as [Hpre Hrest].
  unfold coherent_split. rewrite !frame_of_length.
  split; [reflexivity|]. split; [reflexivity|].
  intros j Hj. simpl.
  rewrite !num_points_frame_of by (auto; lia).
  rewrite !nth_frame_of by (auto; lia).
  rewrite !sorted_by_length by assumption.
  repeat split.
  - rewrite <- length_app. apply Permutation_length. exact HP.
  - rewrite (sorted_by_perm data j l Hobs).
    rewrite (sorted_by_perm data j pre Hpre).
    rewrite (sorted_by_perm data j rest Hrest). exact HP.
  - rewrite (sorted_by_perm data j l Hobs).
    rewrite (sorted_by_perm data 0%nat l Hobs). reflexivity.
  - apply sorted_by_NoDup.
Qed.

End Moves.

(** C10.  At every step of the move loop of every recursion frame, in
    either implementation, the left and right families are coherent: all
    features hold the same number of points on the left and on the right,
    the two sizes add up to the number of observations of the frame, and
    for every feature the left and right sets partition the observations
    of the frame. *)
Theorem C10_family_coherence : forall data F p k,
  recursion_frame data F ->
  (p < num_features data)%nat -> (k < num_points F)%nat ->
  exists L R,
    move_points data p k (create_sorted_sets data true) F = Ret (L, R) /\
    coherent_split data F L R.
Proof.
  intros data F p k HF Hp Hk.
  destruct (recursion_frame_observations data F HF) as [l [Hobs ->]].
  rewrite num_points_frame_of in Hk by (auto; lia).
  exists (frame_of data (firstn k (sorted_by data p l))),
         (frame_of data (skipn k (sorted_by data p l))).
  split.
  - apply move_points_frame; auto; lia.
  - apply coherent_split_frames; auto.
    rewrite firstn_skipn. apply sorted_by_perm. exact Hobs.
Qed.

(** ** The hybrid expander *)

Lemma tree_search_hybrid_seed :
  forall data fuel search_fuel max_global_depth complete_split_depth
         chop_depth repeat_splits split_step min_node_size,
  RPkg.tree_search_hybrid data (S fuel) search_fuel max_global_depth
                          complete_split_depth chop_depth repeat_splits
                          split_step min_node_size
  = Ret (placeholder data).
Proof.
  intros. unfold RPkg.tree_search_hybrid. simpl.
  destruct fuel; reflexivity.
Qed.

(** C2.  For every input the hybrid expander returns its seed, the single
    leaf [Node(0, 0.0, 0, 0, 0, 0)] with reward 0, action 0, depth 0 and
    height 0: the seed has height 0, every dequeued node of height below 1
    is dropped, so the queue empties after one iteration.  The result does
    not depend on [search_fuel], not even at [search_fuel = 0], where any
    call of [find_best_split] would stop the run: no local search is run
    and nothing is grafted. *)
Theorem C2_hybrid_returns_seed :
  forall data fuel search_fuel max_global_depth complete_split_depth
         chop_depth repeat_splits split_step min_node_size,
  RPkg.tree_search_hybrid data (S fuel) search_fuel max_global_depth
                          complete_split_depth chop_depth repeat_splits
                          split_step min_node_size
  = Ret (placeholder data).
Proof. intros. apply tree_search_hybrid_seed. Qed.

(** C1, evaluated on scenario 1 of the specification with
    [exact_search = false], depth 1 and a local search depth of 1.  The
    data admits a split (the local exact search on the full family returns
    an internal node of reward 4), yet the entry point returns the
    untouched placeholder. *)
Theorem C1_hybrid_grafts_nothing :
  RPkg.tree_search_rcpp data_two_regimes 8 8 1 1 1 false 1 1 0
  = Ret (placeholder data_two_regimes) /\
  exists nd l r sa,
    RPkg.find_best_split data_two_regimes 8
      (create_sorted_sets data_two_regimes false) 1 1 1
      (new_sum_array data_two_regimes) 0
    = Ret (RPkg.Internal nd l r, sa) /\
    RPkg.reward nd = Fin 4.
Proof.
  split; [reflexivity|].
  do 4 eexists. split; [vm_compute; reflexivity | reflexivity].
Qed.

(** C4, evaluated on scenario 2 of the specification with
    [exact_search = false]: the returned root records reward 0, while
    routing the four rows through the returned tree collects 4. *)
Theorem C4_hybrid_reward_mismatch :
  exists t,
    RPkg.tree_search_rcpp data_one_regime 8 8 1 1 1 false 1 1 0 = Ret t /\
    RPkg.reward (RPkg.node_data t) = Fin 0 /\
    routed_reward data_one_regime t (seq 0 (num_rows data_one_regime)) = 4.
Proof. eexists. repeat split. Qed.

(** C5, evaluated on two observations at [depth = 0]: the returned root is
    a leaf that records depth 1, so its depth is neither its distance from
    the root nor at most the [depth] argument. *)
Theorem C5_root_depth_off_by_one :
  exists t,
    RPkg.tree_search data_two_points 2 0 1 1 = Ret t /\
    RPkg.is_leaf t = true /\
    RPkg.depth (RPkg.node_data t) = 1 /\
    depths_from 0 t = false.
Proof. eexists. repeat split. Qed.

(** ** The original search at depth 0 *)

(** C6, evaluated on two observations at [depth = 0] in the original
    implementation: [find_best_split] has no case for level 0, recurses
    with negative levels until the sets are singletons, and returns a
    split with two leaves instead of the single best leaf (action 0,
    reward 1). *)
Theorem C6_core_depth_zero_splits :
  Core.tree_search data_two_points 2 0
  = Ret (Core.Internal
           (Core.mkNodeData 0 0 (Fin 2) SIZE_MAX)
           (Core.Leaf (Core.mkNodeData SIZE_MAX (-1) (Fin 1) 0))
           (Core.Leaf (Core.mkNodeData SIZE_MAX (-1) (Fin 1) 1))) /\
  column_sum data_two_points 0 [0; 1]%nat = 1 /\
  column_sum data_two_points 1 [0; 1]%nat = 1.
Proof. repeat split. Qed.

(** C3, evaluated on the same input: the tree returned at [depth = 0] by
    the original implementation records the reward 2, which is not the
    maximum over the trees of depth 0: that maximum is 1, collected by a
    single leaf with action 0 or 1.  The r-package search at every depth
    ([exact_search_optimal]) and the original search at every depth from
    1 on ([core_search_optimal]) do return the maximum. *)
Theorem C3_core_depth_zero_exceeds_optimum :
  exists t,
    Core.tree_search data_two_points 2 0 = Ret t /\
    Core.reward (Core.node_data t) = Fin 2 /\
    ~ optimal data_two_points 0 (seq 0 (num_rows data_two_points)) 2 /\
    optimal data_two_points 0 (seq 0 (num_rows data_two_points)) 1.
Proof.
  eexists. split; [reflexivity|]. split; [reflexivity|].
  assert (Hleaf : forall t,
    policy_ok data_two_points t -> (policy_depth t <= 0)%nat ->
    policy_reward data_two_points t (seq 0 (num_rows data_two_points)) = 1).
  { intros [a|q v tl tr] Hok Hd; [|simpl in Hd; lia].
    cbn [policy_ok] in Hok.
    change (num_rewards data_two_points) with 2%nat in Hok.
    destruct a as [|[|a]]; [reflexivity | reflexivity | lia]. }
  split.
  - intros [[t [Hok [Hd Hr]]] _]. rewrite (Hleaf t Hok Hd) in Hr.
    discriminate.
  - split.
    + exists (PLeaf 0). split; [cbn; lia|]. split; [cbn; lia|].
      reflexivity.
    + intros t Hok Hd. rewrite (Hleaf t Hok Hd). lia.
Qed.

(** The witness of C10: two moves on the root frame of scenario 1. *)
Lemma C10_family_coherence_witness :
  exists L R,
    move_points data_two_regimes 0 2
                (create_sorted_sets data_two_regimes true)
                (create_sorted_sets data_two_regimes false) = Ret (L, R) /\
    coherent_split data_two_regimes
                   (create_sorted_sets data_two_regimes false) L R.
Proof.
  apply C10_family_coherence.
  - apply frame_root.
  - vm_compute. lia.
  - vm_compute. lia.
Defined.

(** ** Vectors and the scratch array *)

Lemma at_Some : forall (A : Type) (v : list A) i a,
  nth_error v i = Some a -> at_ v i = Ret a.
Proof. intros A v i a H. unfold at_. rewrite H. reflexivity. Qed.

Lemma at_Ret : forall (A : Type) (v : list A) i,
  (i < length v)%nat -> exists a, at_ v i = Ret a /\ nth_error v i = Some a.
Proof.
  intros A v i Hi. unfold at_.
  destruct (nth_error v i) as [a|] eqn:E.
  - exists a. split; reflexivity.
  - apply nth_error_None in E. lia.
Qed.

Lemma set_at_spec : forall (A : Type) (a : A) (v : list A) i,
  (i < length v)%nat ->
  exists v', set_at v i a = Ret v' /\ length v' = length v /\
             forall k, nth_error v' k
                       = if (k =? i)%nat then Some a else nth_error v k.
Proof.
  intros A a. induction v as [|b v IH]; intros i Hi; simpl in Hi; [lia|].
  destruct i as [|i]; simpl.
  - exists (a :: v). splits; try reflexivity. intros [|k]; reflexivity.
  - destruct (IH i) as [v' [E [Hlen Hnth]]]; [lia|].
    rewrite E. simpl. exists (b :: v'). simpl. splits; auto.
    intros [|k]; [reflexivity|]. simpl. apply Hnth.
Qed.

Section Scratch.

Variable data : Data.

Lemma column_sum_app : forall a l1 l2,
  column_sum data a (l1 ++ l2)
  = column_sum data a l1 + column_sum data a l2.
Proof.
  intros a. induction l1 as [|x l1 IH]; intros l2; simpl; [reflexivity|].
  rewrite IH. lia.
Qed.

Lemma column_sum_perm : forall a l l',
  Permutation l l' -> column_sum data a l = column_sum data a l'.
Proof.
  intros a. induction 1; simpl; try lia.
Qed.

Lemma reward_sum_snoc : forall s x d,
  reward_sum data (s ++ [x]) d
  = dadd (reward_sum data s d) (Fin (get_reward data x d)).
Proof. intros s x d. unfold reward_sum. apply fold_left_app. Qed.

Lemma fill_sum_row_spec : forall d points n sum_array row base,
  sum_shape data sum_array ->
  nth_error sum_array d = Some row -> nth_error row n = Some base ->
  (n + length points <= num_rows data)%nat ->
  exists sum_array' row',
    fill_sum_row data d points n sum_array = Ret sum_array' /\
    sum_shape data sum_array' /\
    nth_error sum_array' d = Some row' /\
    (forall d', d' <> d -> nth_error sum_array' d' = nth_error sum_array d') /\
    (forall k, (k <= n)%nat -> nth_error row' k = nth_error row k) /\
    (forall j, (j <= length points)%nat ->
       nth_error row' (n + j)
       = Some (fold_left
                 (fun acc point => dadd acc (Fin (get_reward data point d)))
                 (firstn j points) base)).
Proof.
  intros d. induction points as [|x points IH];
    intros n sa row base Hsh Hrow Hbase Hn.
  - exists sa, row. splits; auto; try apply Hsh.
    intros j Hj. simpl in Hj. replace j with 0%nat by lia.
    rewrite Nat.add_0_r, Hbase. reflexivity.
  - simpl in Hn. pose proof Hsh as [Hlen Hrows].
    destruct (Hrows d row Hrow) as [Hrl Hr0].
    cbn [fill_sum_row].
    rewrite (at_Some _ _ _ _ Hrow). cbn [bind].
    replace (S n - 1)%nat with n by lia.
    rewrite (at_Some _ _ _ _ Hbase). cbn [bind].
    destruct (set_at_spec _ (dadd base (Fin (get_reward data x d))) row (S n))
      as [row1 [E3 [Hl3 Hn3]]]; [lia|].
    rewrite E3. cbn [bind].
    destruct (set_at_spec _ row1 sa d) as [sa1 [E4 [Hl4 Hn4]]].
    { apply nth_error_Some. rewrite Hrow. discriminate. }
    rewrite E4. cbn [bind].
    assert (Hsh1 : sum_shape data sa1).
    { split; [lia|]. intros d' r Hr. rewrite Hn4 in Hr.
      destruct (Nat.eqb_spec d' d); [|apply (Hrows d' r Hr)].
      injection Hr as <-. split; [lia|]. rewrite Hn3. exact Hr0. }
    destruct (IH (S n) sa1 row1 (dadd base (Fin (get_reward data x d))) Hsh1)
      as [sa' [row' [E [Hsh' [Hrow' [Hoth [Hlow Hhigh]]]]]]].
    { rewrite Hn4, Nat.eqb_refl. reflexivity. }
    { rewrite Hn3, Nat.eqb_refl. reflexivity. }
    { lia. }
    exists sa', row'. rewrite E. splits; auto.
    + intros d' Hd'. rewrite (Hoth d' Hd'), Hn4.
      destruct (Nat.eqb_spec d' d); [contradiction | reflexivity].
    + intros k Hk. rewrite Hlow by lia. rewrite Hn3.
      destruct (Nat.eqb_spec k (S n)); [lia | reflexivity].
    + intros j Hj. destruct j as [|j].
      * rewrite Nat.add_0_r, Hlow by lia. rewrite Hn3.
        destruct (Nat.eqb_spec n (S n)); [lia|].
        rewrite Hbase. reflexivity.
      * replace (n + S j)%nat with (S n + j)%nat by lia.
        rewrite Hhigh by (simpl in Hj; lia). reflexivity.
Qed.

(** After the cumulative-sum loops of a feature, every row holds the
    cumulative sums of its action along the set of the feature. *)
Lemma fill_sum_array_spec : forall points ds sum_array,
  sum_shape data sum_array -> NoDup ds ->
  (forall d, In d ds -> (d < num_rewards data)%nat) ->
  (length points <= num_rows data)%nat ->
  exists sum_array',
    fill_sum_array data ds points sum_array = Ret sum_array' /\
    sum_shape data sum_array' /\
    (forall d, In d ds -> row_filled data sum_array' points d) /\
    (forall d, ~ In d ds -> nth_error sum_array' d = nth_error sum_array d).
Proof.
  intros points. induction ds as [|d ds IH]; intros sa Hsh Hnd Hds Hn.
  - exists sa. splits; auto; try apply Hsh. intros d [].
  - cbn [fill_sum_array]. pose proof Hsh as [Hlen Hrows].
    assert (Hd : (d < num_rewards data)%nat) by (apply Hds; left; auto).
    destruct (nth_error sa d) as [row|] eqn:Hrow;
      [|apply nth_error_None in Hrow; lia].
    destruct (Hrows d row Hrow) as [Hrl Hr0].
    destruct (fill_sum_row_spec d points 0 sa row (Fin 0) Hsh Hrow Hr0)
      as [sa1 [row1 [E1 [Hsh1 [Hrow1 [Hoth1 [_ Hhigh1]]]]]]]; [lia|].
    rewrite E1. cbn [bind].
    inversion Hnd as [|? ? Hnotin Hnd']; subst.
    destruct (IH sa1 Hsh1 Hnd') as [sa' [E [Hsh' [Hfill Hoth]]]]; auto.
    { intros d' Hd'. apply Hds. right; assumption. }
    exists sa'. rewrite E. splits; auto; try apply Hsh'.
    + intros d' [->|Hd']; [|apply Hfill; assumption].
      exists row1. split.
      * rewrite (Hoth d' Hnotin). exact Hrow1.
      * intros k Hk. rewrite <- (Nat.add_0_l k). rewrite Hhigh1 by lia.
        reflexivity.
    + intros d' Hd'. rewrite Hoth by (intros H; apply Hd'; right; exact H).
      apply Hoth1. intros ->. apply Hd'. left; reflexivity.
Qed.

Lemma fill_sum_array_filled : forall points sum_array,
  sum_shape data sum_array ->
  (length points <= num_rows data)%nat ->
  exists sum_array',
    fill_sum_array data (seq 0 (num_rewards data)) points sum_array
    = Ret sum_array' /\
    sum_shape data sum_array' /\ filled data sum_array' points.
Proof.
  intros points sa Hsh Hn.
  destruct (fill_sum_array_spec points (seq 0 (num_rewards data)) sa)
    as [sa' [E [Hsh' [Hfill _]]]]; auto.
  - apply seq_NoDup.
  - intros d Hd. apply in_seq in Hd. lia.
  - exists sa'. splits; auto; try apply Hsh'.
    intros d Hd. apply Hfill. apply in_seq. lia.
Qed.

Lemma new_sum_array_shape : sum_shape data (new_sum_array data).
Proof.
  unfold sum_shape, new_sum_array. split.
  - apply repeat_length.
  - intros d row Hrow. apply nth_error_In, repeat_spec in Hrow. subst.
    rewrite repeat_length. split; [lia|].
    rewrite Nat.add_1_r. reflexivity.
Qed.

Lemma observations_length : forall l,
  observations data l -> (length l <= num_rows data)%nat.
Proof.
  intros l [Hnd Hlt].
  rewrite <- (length_seq (num_rows data) 0).
  apply NoDup_incl_length; auto.
  intros i Hi. apply in_seq. specialize (Hlt i Hi). lia.
Qed.

End Scratch.

(** ** Doubles of small integers

    On integers of magnitude below 2^53 the arithmetic of doubles is the
    arithmetic of integers: such an integer is a double, and sums,
    differences and comparisons of such integers are exact as long as the
    result is again below 2^53 in magnitude. *)

Lemma digits2_pos_size : forall p, digits2_pos p = Pos.size p.
Proof. induction p; simpl; congruence. Qed.

Lemma shl_S : forall m k, shl m (S k) = xO (shl m k).
Proof. reflexivity. Qed.

Lemma shl_Z : forall m k, Zpos (shl m k) = Zpos m * 2 ^ Z.of_nat k.
Proof.
  intros m. induction k as [|k IH].
  - simpl. lia.
  - rewrite shl_S, Pos2Z.inj_xO, IH.
    rewrite Nat2Z.inj_succ, Z.pow_succ_r by lia. lia.
Qed.

Lemma shl_size : forall m k,
  Zpos (Pos.size (shl m k)) = Zpos (Pos.size m) + Z.of_nat k.
Proof.
  intros m. induction k as [|k IH].
  - simpl. lia.
  - rewrite shl_S. cbn [Pos.size]. rewrite Pos2Z.inj_succ, IH. lia.
Qed.

Lemma shl_shl : forall m j k, shl (shl m j) k = shl m (k + j).
Proof. intros. unfold shl. symmetry. apply Nat.iter_add. Qed.

Lemma iter_xO_shl : forall m p, Pos.iter xO m p = shl m (Pos.to_nat p).
Proof. intros. unfold shl. apply Pos2Nat.inj_iter. Qed.

Lemma iter_pos_nat : forall (A : Type) (f : A -> A) p x,
  iter_pos f p x = Nat.iter (Pos.to_nat p) f x.
Proof.
  intros A f. induction p as [p IH|p IH|]; intros x; cbn [iter_pos].
  - rewrite !IH, Pos2Nat.inj_xI. rewrite <- Nat.iter_succ_r.
    rewrite <- Nat.iter_add. f_equal. lia.
  - rewrite !IH, Pos2Nat.inj_xO. rewrite <- Nat.iter_add. f_equal. lia.
  - reflexivity.
Qed.

Lemma shr_shl : forall k m,
  Nat.iter k shr_1 (Build_shr_record (Zpos (shl m k)) false false)
  = Build_shr_record (Zpos m) false false.
Proof.
  induction k as [|k IH]; intros m; [reflexivity|].
  rewrite Nat.iter_succ_r, shl_S. cbn [shr_1 orb]. apply IH.
Qed.

Lemma size_bound : forall n, Zpos n < 2 ^ 53 -> Zpos (Pos.size n) <= 53.
Proof.
  intros n Hn. pose proof (Pos.size_le n) as H.
  destruct (Z_le_gt_dec (Zpos (Pos.size n)) 53) as [|Hgt]; [assumption|].
  exfalso.
  assert (H2 : 2 ^ 54 <= 2 ^ Zpos (Pos.size n))
    by (apply Z.pow_le_mono_r; lia).
  assert (H3 : 2 ^ Zpos (Pos.size n) <= 2 * Zpos n).
  { apply Pos2Z.pos_le_pos in H. rewrite Pos2Z.inj_pow in H.
    rewrite Pos2Z.inj_xO in H. exact H. }
  change (2 ^ 54) with (2 * 2 ^ 53) in H2. lia.
Qed.

(** Rounding a mantissa that already fits changes nothing. *)
Lemma binary_round_aux_fits : forall s m e,
  fexp double_prec double_emax (Zpos (digits2_pos m) + e) = e ->
  e <= double_emax - double_prec ->
  binary_round_aux double_prec double_emax s (Zpos m) e loc_Exact
  = S754_finite s m e.
Proof.
  intros s m e Hf He. unfold binary_round_aux, shr_fexp.
  cbn [Zdigits2 shr_record_of_loc]. rewrite Hf, Z.sub_diag.
  cbn [shr shr_m loc_of_shr_record round_nearest_even Zdigits2
       shr_record_of_loc].
  rewrite Hf, Z.sub_diag. cbn [shr shr_m].
  apply Z.leb_le in He. rewrite He. reflexivity.
Qed.

Lemma fexp_small : forall d,
  1 <= d <= 53 -> fexp double_prec double_emax d = d - 53.
Proof.
  intros d Hd. unfold fexp, emin, double_prec, double_emax. lia.
Qed.

(** The mantissa [n] written with [k] more zero bits and the exponent
    [- k] rounds to the double of [n]. *)
Lemma binary_round_shl : forall s n k,
  Zpos n < 2 ^ 53 ->
  binary_round double_prec double_emax s (shl n k) (- Z.of_nat k)
  = normal s n.
Proof.
  intros s n k Hn. pose proof (size_bound n Hn) as Hd.
  assert (Hd1 : 1 <= Zpos (Pos.size n)) by lia.
  unfold binary_round, normal.
  rewrite digits2_pos_size, shl_size.
  replace (Zpos (Pos.size n) + Z.of_nat k + - Z.of_nat k)
    with (Zpos (Pos.size n)) by lia.
  rewrite fexp_small by lia.
  set (d := Pos.to_nat (Pos.size n)).
  assert (Hdz : Zpos (Pos.size n) = Z.of_nat d)
    by (unfold d; rewrite positive_nat_Z; reflexivity).
  unfold shl_align.
  destruct (Zpos (Pos.size n) - 53 - - Z.of_nat k) as [|p|p] eqn:E.
  - (* the mantissa has 53 bits as it stands *)
    replace (53 - d)%nat with k by lia.
    replace (Zpos (Pos.size n) - 53) with (- Z.of_nat k) by lia.
    apply binary_round_aux_fits.
    + rewrite digits2_pos_size, shl_size.
      replace (Zpos (Pos.size n) + Z.of_nat k + - Z.of_nat k)
        with (Zpos (Pos.size n)) by lia.
      rewrite fexp_small by lia. lia.
    + unfold double_emax, double_prec. lia.
  - (* too many bits: the exact right shift *)
    unfold binary_round_aux, shr_fexp. cbn [Zdigits2 shr_record_of_loc].
    rewrite digits2_pos_size, shl_size.
    replace (Zpos (Pos.size n) + Z.of_nat k + - Z.of_nat k)
      with (Zpos (Pos.size n)) by lia.
    rewrite fexp_small by lia. rewrite E. cbn [shr].
    rewrite iter_pos_nat.
    assert (Hk : shl n k = shl (shl n (53 - d)) (Pos.to_nat p))
      by (rewrite shl_shl; f_equal; lia).
    rewrite Hk, shr_shl.
    cbn [shr_m loc_of_shr_record round_nearest_even Zdigits2
         shr_record_of_loc].
    rewrite digits2_pos_size, shl_size.
    replace (Zpos (Pos.size n) + Z.of_nat (53 - d)
             + (- Z.of_nat k + Zpos p))
      with (Zpos (Pos.size n)) by lia.
    rewrite fexp_small by lia.
    replace (Zpos (Pos.size n) - 53 - (- Z.of_nat k + Zpos p)) with 0 by lia.
    cbn [shr shr_m].
    replace (- Z.of_nat k + Zpos p) with (Zpos (Pos.size n) - 53) by lia.
    assert (Hle : (Zpos (Pos.size n) - 53 <=? double_emax - double_prec)
                  = true)
      by (apply Z.leb_le; unfold double_emax, double_prec; lia).
    rewrite Hle. reflexivity.
  - (* too few bits: the left shift *)
    rewrite iter_xO_shl, shl_shl.
    replace (Pos.to_nat p + k)%nat with (53 - d)%nat by lia.
    apply binary_round_aux_fits.
    + rewrite digits2_pos_size, shl_size.
      replace (Zpos (Pos.size n) + Z.of_nat (53 - d)
               + (Zpos (Pos.size n) - 53))
        with (Zpos (Pos.size n)) by lia.
      apply fexp_small. lia.
    + unfold double_emax, double_prec. lia.
Qed.

Lemma Fin_pos : forall n, Zpos n < 2 ^ 53 -> Fin (Zpos n) = normal false n.
Proof. intros n Hn. apply (binary_round_shl false n 0 Hn). Qed.

Lemma Fin_neg : forall n, Zpos n < 2 ^ 53 -> Fin (Zneg n) = normal true n.
Proof. intros n Hn. apply (binary_round_shl true n 0 Hn). Qed.

(** The double of a small integer: zero, or the normal form of its
    magnitude with its sign. *)
Lemma Fin_small : forall z, small z ->
  Fin z = match z with
          | Z0 => S754_zero false
          | Zpos n => normal false n
          | Zneg n => normal true n
          end.
Proof.
  intros [|n|n] Hz; unfold small in Hz; simpl in Hz.
  - reflexivity.
  - apply Fin_pos. lia.
  - apply Fin_neg. lia.
Qed.

(** An integer written with [k] more zero bits and the exponent [- k]
    normalises to its double. *)
Lemma binary_normalize_shl : forall c k,
  small c ->
  binary_normalize double_prec double_emax (c * 2 ^ Z.of_nat k)
                   (- Z.of_nat k) false
  = Fin c.
Proof.
  intros c k Hc. rewrite (Fin_small c Hc).
  unfold small in Hc. destruct c as [|n|n]; simpl in Hc.
  - reflexivity.
  - rewrite <- shl_Z. cbn [binary_normalize].
    apply binary_round_shl. lia.
  - change (Zneg n) with (- Zpos n). rewrite Z.mul_opp_l, <- shl_Z.
    cbn [Z.opp binary_normalize]. apply binary_round_shl. lia.
Qed.

(** The mantissa of a normal double, aligned to an exponent at most its
    own. *)
Lemma shl_align_normal : forall n k,
  Zpos n < 2 ^ 53 ->
  (53 - Pos.to_nat (Pos.size n) <= k)%nat ->
  Zpos (fst (shl_align (shl n (53 - Pos.to_nat (Pos.size n)))
                       (Zpos (Pos.size n) - 53) (- Z.of_nat k)))
  = Zpos n * 2 ^ Z.of_nat k.
Proof.
  intros n k Hn Hk. pose proof (size_bound n Hn) as Hd.
  assert (Hdz : Zpos (Pos.size n) = Z.of_nat (Pos.to_nat (Pos.size n)))
    by (rewrite positive_nat_Z; reflexivity).
  unfold shl_align.
  destruct (- Z.of_nat k - (Zpos (Pos.size n) - 53)) as [|p|p] eqn:E;
    cbn [fst].
  - rewrite shl_Z. do 2 f_equal. lia.
  - lia.
  - rewrite iter_xO_shl, shl_shl, shl_Z. do 2 f_equal. lia.
Qed.

Lemma cond_Zopp_signed : forall s n k,
  cond_Zopp s (Zpos n * 2 ^ Z.of_nat k) = signed s n * 2 ^ Z.of_nat k.
Proof. intros [|] n k; unfold cond_Zopp, signed; lia. Qed.

Lemma normal_add : forall sa na sb nb,
  Zpos na < 2 ^ 53 -> Zpos nb < 2 ^ 53 ->
  small (signed sa na + signed sb nb) ->
  dadd (normal sa na) (normal sb nb) = Fin (signed sa na + signed sb nb).
Proof.
  intros sa na sb nb Ha Hb Hc.
  pose proof (size_bound na Ha) as Hda.
  pose proof (size_bound nb Hb) as Hdb.
  unfold dadd, normal. cbn [SFadd].
  pose proof (positive_nat_Z (Pos.size na)) as Hdaz.
  pose proof (positive_nat_Z (Pos.size nb)) as Hdbz.
  pose (k := Nat.max (53 - Pos.to_nat (Pos.size na))
                     (53 - Pos.to_nat (Pos.size nb))).
  assert (Hez : Z.min (Zpos (Pos.size na) - 53) (Zpos (Pos.size nb) - 53)
                = - Z.of_nat k) by (unfold k; lia).
  rewrite Hez.
  rewrite (shl_align_normal na k Ha) by (unfold k; lia).
  rewrite (shl_align_normal nb k Hb) by (unfold k; lia).
  rewrite !cond_Zopp_signed, <- Z.mul_add_distr_r.
  apply binary_normalize_shl. exact Hc.
Qed.

Lemma normal_sub : forall sa na sb nb,
  Zpos na < 2 ^ 53 -> Zpos nb < 2 ^ 53 ->
  small (signed sa na - signed sb nb) ->
  dsub (normal sa na) (normal sb nb) = Fin (signed sa na - signed sb nb).
Proof.
  intros sa na sb nb Ha Hb Hc.
  pose proof (size_bound na Ha) as Hda.
  pose proof (size_bound nb Hb) as Hdb.
  unfold dsub, normal. cbn [SFsub].
  pose proof (positive_nat_Z (Pos.size na)) as Hdaz.
  pose proof (positive_nat_Z (Pos.size nb)) as Hdbz.
  pose (k := Nat.max (53 - Pos.to_nat (Pos.size na))
                     (53 - Pos.to_nat (Pos.size nb))).
  assert (Hez : Z.min (Zpos (Pos.size na) - 53) (Zpos (Pos.size nb) - 53)
                = - Z.of_nat k) by (unfold k; lia).
  rewrite Hez.
  rewrite (shl_align_normal na k Ha) by (unfold k; lia).
  rewrite (shl_align_normal nb k Hb) by (unfold k; lia).
  rewrite !cond_Zopp_signed, <- Z.mul_sub_distr_r.
  apply binary_normalize_shl. exact Hc.
Qed.

(** Addition of small integers whose sum is small is exact. *)
Lemma dadd_Fin : forall a b,
  small a -> small b -> small (a + b) -> dadd (Fin a) (Fin b) = Fin (a + b).
Proof.
  intros a b Ha Hb Hc. rewrite (Fin_small a Ha), (Fin_small b Hb).
  destruct a as [|na|na]; destruct b as [|nb|nb];
    try reflexivity;
    try (rewrite (Fin_small _ Hc); reflexivity);
    unfold small in Ha, Hb; simpl in Ha, Hb.
  - apply (normal_add false na false nb); try lia. exact Hc.
  - apply (normal_add false na true nb); try lia. exact Hc.
  - apply (normal_add true na false nb); try lia. exact Hc.
  - apply (normal_add true na true nb); try lia. exact Hc.
Qed.

(** Subtraction of small integers whose difference is small is exact. *)
Lemma dsub_Fin : forall a b,
  small a -> small b -> small (a - b) -> dsub (Fin a) (Fin b) = Fin (a - b).
Proof.
  intros a b Ha Hb Hc. rewrite (Fin_small a Ha), (Fin_small b Hb).
  destruct a as [|na|na]; destruct b as [|nb|nb];
    try reflexivity;
    try (rewrite (Fin_small _ Hc); reflexivity);
    unfold small in Ha, Hb; simpl in Ha, Hb.
  - apply (normal_sub false na false nb); try lia. exact Hc.
  - apply (normal_sub false na true nb); try lia. exact Hc.
  - apply (normal_sub true na false nb); try lia. exact Hc.
  - apply (normal_sub true na true nb); try lia. exact Hc.
Qed.

Lemma size_lt : forall na nb,
  Zpos (Pos.size na) < Zpos (Pos.size nb) -> Zpos na < Zpos nb.
Proof.
  intros na nb H.
  pose proof (Pos.size_gt na) as Ha. pose proof (Pos.size_le nb) as Hb.
  apply Pos2Z.pos_lt_pos in Ha. apply Pos2Z.pos_le_pos in Hb.
  rewrite Pos2Z.inj_pow in Ha, Hb.
  change (Zpos nb~0) with (2 * Zpos nb) in Hb.
  assert (H2 : 2 ^ (Zpos (Pos.size na) + 1) <= 2 ^ Zpos (Pos.size nb))
    by (apply Z.pow_le_mono_r; lia).
  rewrite Z.pow_add_r in H2 by lia. change (2 ^ 1) with 2 in H2. lia.
Qed.

(** The order of two normal doubles of one sign is the order of their
    magnitudes. *)
Lemma normal_compare : forall na nb,
  match Zpos (Pos.size na) - 53 ?= Zpos (Pos.size nb) - 53 with
  | Lt => Lt
  | Gt => Gt
  | Eq => Pos.compare_cont Eq
            (shl na (53 - Pos.to_nat (Pos.size na)))
            (shl nb (53 - Pos.to_nat (Pos.size nb)))
  end = (na ?= nb)%positive.
Proof.
  intros na nb.
  destruct (Z.compare_spec (Zpos (Pos.size na) - 53)
                           (Zpos (Pos.size nb) - 53)) as [E|E|E].
  - assert (E' : Zpos (Pos.size na) = Zpos (Pos.size nb)) by lia.
    injection E' as E'. rewrite E'.
    change (Pos.compare_cont Eq ?p ?q) with (p ?= q)%positive.
    rewrite !Pos2Z.inj_compare, !shl_Z.
    assert (HP : 0 < 2 ^ Z.of_nat (53 - Pos.to_nat (Pos.size nb)))
      by (apply Z.pow_pos_nonneg; lia).
    destruct (Z.compare_spec
                (Zpos na * 2 ^ Z.of_nat (53 - Pos.to_nat (Pos.size nb)))
                (Zpos nb * 2 ^ Z.of_nat (53 - Pos.to_nat (Pos.size nb))));
      destruct (Z.compare_spec (Zpos na) (Zpos nb));
      try reflexivity; nia.
  - symmetry. apply Pos.compare_lt_iff. apply Pos2Z.pos_lt_pos.
    apply size_lt. lia.
  - symmetry. apply Pos.compare_gt_iff. apply Pos2Z.pos_lt_pos.
    apply size_lt. lia.
Qed.

Lemma normal_compare_opp : forall na nb,
  match Zpos (Pos.size na) - 53 ?= Zpos (Pos.size nb) - 53 with
  | Lt => Gt
  | Gt => Lt
  | Eq => CompOpp (Pos.compare_cont Eq
                     (shl na (53 - Pos.to_nat (Pos.size na)))
                     (shl nb (53 - Pos.to_nat (Pos.size nb))))
  end = CompOpp (na ?= nb)%positive.
Proof.
  intros na nb. rewrite <- (normal_compare na nb).
  destruct (Zpos (Pos.size na) - 53 ?= Zpos (Pos.size nb) - 53);
    reflexivity.
Qed.

(** Comparison of small integers is exact. *)
Lemma dlt_Fin : forall a b,
  small a -> small b -> dlt (Fin a) (Fin b) = (a <? b).
Proof.
  intros a b Ha Hb. rewrite (Fin_small a Ha), (Fin_small b Hb).
  destruct a as [|na|na]; destruct b as [|nb|nb]; try reflexivity.
  - unfold dlt, SFltb, normal. cbn [SFcompare].
    rewrite normal_compare. reflexivity.
  - unfold dlt, SFltb, normal. cbn [SFcompare].
    rewrite (normal_compare_opp na nb). unfold Z.ltb. cbn [Z.compare].
    destruct (na ?= nb)%positive; reflexivity.
Qed.

(** Nothing is below negative infinity; a small integer is above it. *)
Lemma dlt_NInf_r : forall x, dlt x NInf = false.
Proof. intros [[|]|[|]| |[|] m e]; reflexivity. Qed.

Lemma dlt_NInf_Fin : forall a, small a -> dlt NInf (Fin a) = true.
Proof.
  intros a Ha. rewrite (Fin_small a Ha). destruct a; reflexivity.
Qed.

Lemma Fin_not_NInf : forall a, small a -> Fin a <> NInf.
Proof.
  intros a Ha E. pose proof (dlt_NInf_Fin a Ha) as H.
  rewrite E in H. discriminate.
Qed.

Lemma Fin_inj : forall a b, small a -> small b -> Fin a = Fin b -> a = b.
Proof.
  intros a b Ha Hb E.
  pose proof (dlt_Fin a b Ha Hb) as H1.
  pose proof (dlt_Fin b a Hb Ha) as H2.
  rewrite E in H1. rewrite E in H2.
  rewrite (dlt_Fin b b Hb Hb) in H1, H2.
  rewrite Z.ltb_irrefl in H1, H2.
  symmetry in H1, H2. apply Z.ltb_ge in H1, H2. lia.
Qed.

(** ** Sums of small rewards *)

Section Magnitude.

Variable data : Data.

Lemma row_mag_nonneg : forall i, 0 <= row_mag data i.
Proof.
  intros i. unfold row_mag.
  induction (map (fun a => Z.abs (get_reward data i a))
                 (seq 0 (num_rewards data))) as [|r rs IH];
    simpl; lia.
Qed.

Lemma row_mag_ge : forall i a,
  (a < num_rewards data)%nat -> Z.abs (get_reward data i a) <= row_mag data i.
Proof.
  intros i a Ha. unfold row_mag.
  assert (Hin : In (Z.abs (get_reward data i a))
                   (map (fun a => Z.abs (get_reward data i a))
                        (seq 0 (num_rewards data)))).
  { apply in_map_iff. exists a. split; [reflexivity|]. apply in_seq. lia. }
  induction (map (fun a => Z.abs (get_reward data i a))
                 (seq 0 (num_rewards data))) as [|r rs IH];
    simpl in *; [contradiction|].
  destruct Hin as [->|Hin]; [lia|]. specialize (IH Hin). lia.
Qed.

Lemma mag_nonneg : forall l, 0 <= mag data l.
Proof.
  induction l as [|i l IH]; simpl; [lia|].
  pose proof (row_mag_nonneg i). lia.
Qed.

Lemma mag_app : forall l1 l2, mag data (l1 ++ l2) = mag data l1 + mag data l2.
Proof.
  induction l1 as [|i l1 IH]; intros l2; simpl; [reflexivity|].
  rewrite IH. lia.
Qed.

Lemma mag_perm : forall l l', Permutation l l' -> mag data l = mag data l'.
Proof. induction 1; simpl; lia. Qed.

Lemma column_sum_mag : forall a l,
  (a < num_rewards data)%nat -> Z.abs (column_sum data a l) <= mag data l.
Proof.
  intros a l Ha. induction l as [|i l IH]; simpl; [lia|].
  pose proof (row_mag_ge i a Ha). lia.
Qed.

Lemma small_rewards_perm : forall l l',
  Permutation l l' -> small_rewards data l -> small_rewards data l'.
Proof.
  intros l l' HP H. unfold small_rewards in *.
  rewrite <- (mag_perm l l' HP). exact H.
Qed.

Lemma small_rewards_app : forall l1 l2,
  small_rewards data (l1 ++ l2) ->
  small_rewards data l1 /\ small_rewards data l2.
Proof.
  intros l1 l2 H. unfold small_rewards in *. rewrite mag_app in H.
  pose proof (mag_nonneg l1). pose proof (mag_nonneg l2). lia.
Qed.

Lemma small_column_sum : forall a l,
  (a < num_rewards data)%nat -> small_rewards data l ->
  small (column_sum data a l).
Proof.
  intros a l Ha H. unfold small, small_rewards in *.
  pose proof (column_sum_mag a l Ha). lia.
Qed.

Lemma small_reward : forall a i l,
  (a < num_rewards data)%nat -> In i l -> small_rewards data l ->
  small (get_reward data i a).
Proof.
  intros a i l Ha Hi H. unfold small, small_rewards in *.
  apply in_split in Hi. destruct Hi as [l1 [l2 ->]].
  rewrite mag_app in H. simpl in H.
  pose proof (mag_nonneg l1). pose proof (mag_nonneg l2).
  pose proof (row_mag_ge i a Ha). lia.
Qed.

(** The running sum of doubles over rows with small rewards is the
    column sum. *)
Lemma reward_sum_column_sum : forall s d,
  (d < num_rewards data)%nat -> small_rewards data s ->
  reward_sum data s d = Fin (column_sum data d s).
Proof.
  intros s d Hd. induction s as [|x s IH] using rev_ind; intros Hs.
  - reflexivity.
  - destruct (small_rewards_app _ _ Hs) as [Hs1 _].
    rewrite reward_sum_snoc, IH by exact Hs1.
    rewrite dadd_Fin.
    + f_equal. rewrite column_sum_app. simpl. lia.
    + apply small_column_sum; assumption.
    + apply (small_reward d x (s ++ [x])); auto.
      apply in_or_app. right. left. reflexivity.
    + replace (column_sum data d s + get_reward data x d)
        with (column_sum data d (s ++ [x]))
        by (rewrite column_sum_app; simpl; lia).
      apply small_column_sum; assumption.
Qed.

Lemma small_rewards_firstn : forall n l,
  small_rewards data l -> small_rewards data (firstn n l).
Proof.
  intros n l H. rewrite <- (firstn_skipn n l) in H.
  apply (small_rewards_app _ _ H).
Qed.

Lemma small_rewards_skipn : forall n l,
  small_rewards data l -> small_rewards data (skipn n l).
Proof.
  intros n l H. rewrite <- (firstn_skipn n l) in H.
  apply (small_rewards_app _ _ H).
Qed.

End Magnitude.

(** ** Splits read off a sorted set *)

Lemma StronglySorted_app_inv : forall (A : Type) (R : A -> A -> Prop) l1 l2,
  StronglySorted R (l1 ++ l2) ->
  StronglySorted R l1 /\ StronglySorted R l2 /\
  (forall a b, In a l1 -> In b l2 -> R a b).
Proof.
  intros A R. induction l1 as [|x l1 IH]; intros l2 H; simpl in *.
  - split; [constructor|]. split; [assumption|]. intros a b [].
  - apply StronglySorted_inv in H. destruct H as [H F].
    destruct (IH _ H) as [S1 [S2 H12]].
    rewrite Forall_forall in F. repeat split; auto.
    + constructor; auto. apply Forall_forall. intros y Hy.
      apply F, in_or_app; auto.
    + intros a b [->|Ha] Hb.
      * apply F, in_or_app; auto.
      * apply H12; auto.
Qed.

Lemma split_of_sorted : forall data m l p pre x y rest,
  observations data l ->
  sorted_by data p l = pre ++ x :: y :: rest ->
  get_value data x p < get_value data y p ->
  (m <= S (length pre))%nat -> (m <= S (length rest))%nat ->
  split_of data m l p (get_value data x p) (pre ++ [x]) (y :: rest).
Proof.
  intros data m l p pre x y rest Hobs HS Hlt Hm1 Hm2.
  pose proof (sorted_by_sorted data p l) as Hs. rewrite HS in Hs.
  apply StronglySorted_app_inv in Hs. destruct Hs as [_ [Hs Hpre]].
  apply StronglySorted_inv in Hs. destruct Hs as [Hs _].
  apply StronglySorted_inv in Hs. destruct Hs as [_ Hy].
  rewrite Forall_forall in Hy.
  unfold split_of. split; [|split; [|split; [|split]]].
  - rewrite <- app_assoc. simpl. rewrite <- HS.
    apply sorted_by_perm. exact Hobs.
  - intros i Hi. apply in_app_or in Hi. destruct Hi as [Hi|[->|[]]].
    + apply before_value. apply Hpre; [exact Hi | left; reflexivity].
    + apply Z.le_refl.
  - intros i [->|Hi]; [exact Hlt|].
    pose proof (before_value data p y i (Hy i Hi)). lia.
  - rewrite length_app. simpl. lia.
  - simpl. lia.
Qed.

Lemma sorted_by_adjacent : forall data p l pre x y rest,
  sorted_by data p l = pre ++ x :: y :: rest ->
  get_value data x p <= get_value data y p.
Proof.
  intros data p l pre x y rest HS.
  pose proof (sorted_by_sorted data p l) as Hs. rewrite HS in Hs.
  apply StronglySorted_app_inv in Hs. destruct Hs as [_ [Hs _]].
  apply StronglySorted_inv in Hs. destruct Hs as [_ Hx].
  rewrite Forall_forall in Hx. apply before_value. apply Hx.
  left; reflexivity.
Qed.

Lemma size_sub_le : forall a b, (b <= a)%nat -> size_sub a b = Z.of_nat (a - b).
Proof.
  intros a b H. unfold size_sub.
  destruct (Nat.leb_spec b a); [reflexivity | lia].
Qed.

Lemma loop_bound_pos : forall n, (1 <= n)%nat -> loop_bound n = (n - 1)%nat.
Proof.
  intros n H. unfold loop_bound.
  destruct (Nat.eqb_spec n 0); [lia | reflexivity].
Qed.

Lemma firstn_exact : forall (A : Type) (l1 l2 : list A),
  firstn (length l1) (l1 ++ l2) = l1.
Proof.
  intros A. induction l1 as [|a l1 IH]; intros l2; simpl;
    [destruct l2; reflexivity | rewrite IH; reflexivity].
Qed.

Lemma skipn_exact : forall (A : Type) (l1 l2 : list A),
  skipn (length l1) (l1 ++ l2) = l2.
Proof.
  intros A. induction l1 as [|a l1 IH]; intros l2; simpl; auto.
Qed.

(** ** Routing through a split *)

Lemma filter_all : forall (A : Type) (f : A -> bool) l,
  (forall x, In x l -> f x = true) -> filter f l = l.
Proof.
  intros A f l H. apply forallb_filter_id. apply forallb_forall. exact H.
Qed.

Lemma filter_none : forall (A : Type) (f : A -> bool) l,
  (forall x, In x l -> f x = false) -> filter f l = [].
Proof.
  intros A f. induction l as [|a l IH]; intros H; simpl; [reflexivity|].
  rewrite (H a) by (left; reflexivity). apply IH.
  intros x Hx. apply H. right; assumption.
Qed.

(** Routing the observations of a frame through a split of the frame
    gives the two sides of the split. *)
Lemma split_of_sides : forall data m l q v pre rest obs,
  split_of data m l q v pre rest ->
  Permutation obs l ->
  Permutation (left_of data q v obs) pre /\
  Permutation (right_of data q v obs) rest.
Proof.
  intros data m l q v pre rest obs [HP [Hle [Hgt _]]] Hobs.
  assert (HP' : Permutation obs (pre ++ rest))
    by (rewrite Hobs; symmetry; exact HP).
  unfold left_of, right_of. split.
  - rewrite (Permutation_filter _ _ _ _ HP'), filter_app.
    rewrite filter_all, filter_none, app_nil_r; [reflexivity| |].
    + intros i Hi. apply Z.leb_gt. apply Hgt, Hi.
    + intros i Hi. apply Z.leb_le. apply Hle, Hi.
  - rewrite (Permutation_filter _ _ _ _ HP'), filter_app.
    rewrite filter_none, filter_all; [reflexivity| |].
    + intros i Hi. apply negb_true_iff, Z.leb_gt. apply Hgt, Hi.
    + intros i Hi. apply negb_false_iff, Z.leb_le. apply Hle, Hi.
Qed.

Lemma split_of_routes : forall data m l nd pre rest obs,
  split_of data m l (RPkg.index nd) (RPkg.value nd) pre rest ->
  Permutation obs l ->
  Permutation (goes_left data nd obs) pre /\
  Permutation (goes_right data nd obs) rest.
Proof. intros. eapply split_of_sides; eauto. Qed.

(** ** The r-package search on a frame *)

Section RPkgLoops.

Variable data : Data.
Variable split_step : Z.
Variable m : nat.
Variable P : list nat -> RPkg.Node -> Prop.

Variable search : family -> list (list double) -> run (RPkg.Node * list (list double)).
Variable bound : nat.
Hypothesis Hsearch : forall l' sum_array,
  observations data l' -> (1 <= length l' <= bound)%nat ->
  sum_shape data sum_array ->
  exists t sum_array',
    search (frame_of data l') sum_array = Ret (t, sum_array') /\
    sum_shape data sum_array' /\ P l' t.

Variable l : list nat.
Hypothesis Hobs : observations data l.
Hypothesis Hbound : (length l <= S bound)%nat.

Lemma split_loop_with : forall p iters pre rest sc best sum_array,
  (p < num_features data)%nat ->
  sorted_by data p l = pre ++ rest -> length rest = S iters ->
  sum_shape data sum_array -> best_with data m P l best ->
  exists best' sum_array',
    RPkg.split_loop data search iters p (length l) split_step m
                    (frame_of data pre) (frame_of data rest)
                    sc (length pre) best sum_array
    = Ret (best', sum_array') /\
    best_with data m P l best' /\ sum_shape data sum_array'.
Proof.
  intros p. induction iters as [|iters IH];
    intros pre rest sc best sa Hp HS Hlen Hsh Hbest.
  - exists best, sa. auto.
  - destruct rest as [|x rest]; [discriminate|].
    destruct rest as [|y rest]; [discriminate|].
    assert (Hperm : Permutation (pre ++ x :: y :: rest) l).
    { rewrite <- HS. apply sorted_by_perm. assumption. }
    assert (Hall : observations data (pre ++ x :: y :: rest)).
    { eapply observations_perm; [symmetry; exact Hperm | assumption]. }
    pose proof (sorted_by_sorted data p l) as Hs. rewrite HS in Hs.
    apply StronglySorted_app_inv in Hs. destruct Hs as [_ [Hs _]].
    assert (Hs' : StronglySorted (before data p) (y :: rest))
      by (inversion Hs; assumption).
    assert (Hlt' : forall i, In i (y :: rest) -> (i < num_rows data)%nat).
    { intros i Hi. apply (proj2 Hall). apply in_or_app. right. right. auto. }
    assert (Hll : length l = (length pre + 2 + length rest)%nat).
    { rewrite <- (Permutation_length Hperm), length_app. simpl. lia. }
    assert (Hl' : S (length pre) = length (pre ++ [x])).
    { rewrite length_app. simpl. lia. }
    assert (Hnext : forall sc' best' sa',
      sum_shape data sa' -> best_with data m P l best' ->
      exists best'' sa'',
        RPkg.split_loop data search iters p (length l) split_step m
                        (frame_of data (pre ++ [x]))
                        (frame_of data (y :: rest))
                        sc' (S (length pre)) best' sa'
        = Ret (best'', sa'') /\
        best_with data m P l best'' /\ sum_shape data sa'').
    { intros sc' best' sa' Hsh' Hbest'. rewrite Hl'.
      apply IH; auto;
        try (rewrite HS, <- app_assoc; reflexivity);
        simpl in Hlen |- *; lia. }
    cbn [RPkg.split_loop].
    rewrite move_point_spec by assumption. cbn [bind].
    rewrite at_frame_of by assumption. cbn [bind].
    rewrite sorted_by_self by assumption.
    destruct (get_value data x p >=? get_value data y p) eqn:E1;
      [apply Hnext; assumption|].
    destruct ((S (length pre) <? m)%nat
              || (size_sub (length l) (S (length pre)) <? Z.of_nat m))
      eqn:E2; [apply Hnext; assumption|].
    destruct (sc + 1 >=? split_step) eqn:E3; [|apply Hnext; assumption].
    assert (Hsplit : split_of data m l p (get_value data x p)
                              (pre ++ [x]) (y :: rest)).
    { apply orb_false_elim in E2. destruct E2 as [E2a E2b].
      apply Nat.ltb_ge in E2a. apply Z.ltb_ge in E2b.
      rewrite size_sub_le in E2b by lia.
      apply split_of_sorted; auto; try lia. }
    assert (Hboth : observations data ((pre ++ [x]) ++ y :: rest)).
    { rewrite <- app_assoc. exact Hall. }
    destruct (observations_app _ _ _ Hboth) as [Hobl Hobr].
    destruct (Hsearch (pre ++ [x]) sa) as [tl [sa1 [El [Hsh1 Hbl]]]]; auto.
    { rewrite <- Hl'. lia. }
    rewrite El. cbn [bind].
    destruct (Hsearch (y :: rest) sa1) as [tr [sa2 [Er [Hsh2 Hbr]]]]; auto.
    { simpl. lia. }
    rewrite Er. cbn [bind].
    apply Hnext; [assumption|].
    assert (Hcand : best_with data m P l
                      (Some (tl, tr, p, get_value data x p))).
    { split; [exact Hp|]. exists (pre ++ [x]), (y :: rest). auto. }
    destruct best as [[[[bl br] bp] bv]|]; [|exact Hcand].
    destruct (dlt (dadd (RPkg.reward (RPkg.node_data bl))
                        (RPkg.reward (RPkg.node_data br)))
                  (dadd (RPkg.reward (RPkg.node_data tl))
                        (RPkg.reward (RPkg.node_data tr))));
      [exact Hcand | exact Hbest].
Qed.

Lemma feature_loop_with : forall ps best sum_array,
  (forall p, In p ps -> (p < num_features data)%nat) ->
  (1 <= length l)%nat ->
  sum_shape data sum_array -> best_with data m P l best ->
  exists best' sum_array',
    RPkg.feature_loop data search ps (frame_of data l) (length l)
                      split_step m best sum_array
    = Ret (best', sum_array') /\
    best_with data m P l best' /\ sum_shape data sum_array'.
Proof.
  induction ps as [|p ps IH]; intros best sa Hps Hl Hsh Hbest.
  - exists best, sa. auto.
  - cbn [RPkg.feature_loop].
    rewrite loop_bound_pos by assumption.
    rewrite frame_of_empty, <- (frame_of_sorted_by data p l).
    destruct (split_loop_with p (length l - 1) [] (sorted_by data p l)
                              0 best sa)
      as [best' [sa' [E [Hbest' Hsh']]]]; auto.
    { apply Hps. left; reflexivity. }
    { rewrite sorted_by_length by assumption. lia. }
    simpl length in E. rewrite E. cbn [bind].
    rewrite frame_of_sorted_by.
    apply IH; auto. intros q Hq. apply Hps. right; assumption.
Qed.

End RPkgLoops.

Section RPkgShape.

Variable data : Data.
Variable split_step : Z.
Variable m : nat.
Hypothesis Hnf : (1 <= num_features data)%nat.
Hypothesis Hnr : (1 <= num_rewards data)%nat.

Lemma sets_ok_perm : forall t obs obs',
  Permutation obs obs' -> sets_ok data obs t -> sets_ok data obs' t.
Proof.
  induction t as [nd|nd tl IHl tr IHr]; intros obs obs' HP H; [exact I|].
  cbn [sets_ok] in *. destruct H as [Hs [Hl Hr]].
  split; [|split].
  - rewrite Hs. apply frame_of_ext. intros i _.
    split; apply Permutation_in; [exact HP | symmetry; exact HP].
  - eapply IHl; [|exact Hl]. unfold goes_left, left_of.
    apply Permutation_filter. exact HP.
  - eapply IHr; [|exact Hr]. unfold goes_right, right_of.
    apply Permutation_filter. exact HP.
Qed.

(** The loop of [level_zero_learning] runs on every frame and keeps the
    best action among the actions of the data. *)
Lemma level_zero_loop_runs : forall l ds best_reward best_action,
  (best_action < num_rewards data)%nat ->
  (forall d, In d ds -> (d < num_rewards data)%nat) ->
  exists best_reward' best_action',
    RPkg.level_zero_loop data (frame_of data l) ds best_reward best_action
    = Ret (best_reward', best_action') /\
    (best_action' < num_rewards data)%nat.
Proof.
  intros l. induction ds as [|d ds IH]; intros br ba Hba Hds.
  - exists br, ba. auto.
  - cbn [RPkg.level_zero_loop]. rewrite at_frame_of by lia. cbn [bind].
    destruct (dlt br (reward_sum data (sorted_by data 0 l) d));
      apply IH; auto; try (intros d' Hd'; apply Hds; right; exact Hd').
    apply Hds. left. reflexivity.
Qed.

Lemma level_zero_learning_shaped : forall l k this_depth,
  exists t,
    RPkg.level_zero_learning data (frame_of data l) this_depth = Ret t /\
    shaped data k l t /\ built data m l t.
Proof.
  intros l k td. unfold RPkg.level_zero_learning.
  destruct (level_zero_loop_runs l (seq 0 (num_rewards data)) neg_INF 0%nat)
    as [br [ba [E Hba]]]; [lia | |].
  { intros d Hd. apply in_seq in Hd. lia. }
  rewrite E. cbn [bind]. eexists. split; [reflexivity|].
  split; [|apply built_leaf].
  unfold shaped. cbn.
  split; [reflexivity|]. split; [exact I|]. split; [exact Hba|].
  intros; lia.
Qed.

(** The action loop of a candidate runs on every scratch array of the
    right shape and keeps actions of the data. *)
Lemma side_actions_runs : forall sum_array n num_points ds lb rb la ra,
  sum_shape data sum_array ->
  (n <= num_rows data)%nat -> (num_points <= num_rows data)%nat ->
  (forall d, In d ds -> (d < num_rewards data)%nat) ->
  (la < num_rewards data)%nat -> (ra < num_rewards data)%nat ->
  exists lb' rb' la' ra',
    RPkg.side_actions sum_array n num_points ds lb rb la ra
    = Ret (lb', rb', la', ra') /\
    (la' < num_rewards data)%nat /\ (ra' < num_rewards data)%nat.
Proof.
  intros sa n np. induction ds as [|d ds IH];
    intros lb rb la ra Hsh Hn Hnp Hds Hla Hra.
  - do 4 eexists. split; [reflexivity | auto].
  - cbn [RPkg.side_actions]. pose proof Hsh as [Hlen Hrows].
    assert (Hd : (d < num_rewards data)%nat) by (apply Hds; left; auto).
    destruct (at_Ret _ sa d) as [row [E1 Hrow]]; [lia|].
    rewrite E1. cbn [bind].
    destruct (Hrows d row Hrow) as [Hrl _].
    destruct (at_Ret _ row n) as [left_reward [E2 _]]; [lia|].
    rewrite E2. cbn [bind].
    destruct (at_Ret _ row np) as [total [E3 _]]; [lia|].
    rewrite E3. cbn [bind].
    destruct (dlt lb left_reward); destruct (dlt rb (dsub total left_reward));
      apply IH; auto; intros d' Hd'; apply Hds; right; assumption.
Qed.

Section OneFrame.

Variable l : list nat.
Hypothesis Hobs : observations data l.

Lemma level_one_scan_ok : forall p it prefix sc st sum_array,
  (p < num_features data)%nat ->
  sorted_by data p l = prefix ++ it -> it <> [] ->
  sum_shape data sum_array -> l1_ok data m l st ->
  exists st',
    RPkg.level_one_scan data p (length l) split_step m sum_array it
                        (length prefix) sc (length prefix) st = Ret st' /\
    l1_ok data m l st'.
Proof.
  intros p. induction it as [|point it IH];
    intros prefix sc st sa Hp HS Hne Hsh Hst.
  - contradiction.
  - cbn [RPkg.level_one_scan]. destruct it as [|next it].
    + exists st. split; [reflexivity | assumption].
    + assert (Hlen : length l = (length prefix + 2 + length it)%nat).
      { rewrite <- (sorted_by_length data p l Hobs), HS, length_app.
        simpl. lia. }
      assert (HS' : sorted_by data p l = (prefix ++ [point]) ++ next :: it).
      { rewrite HS, <- app_assoc. reflexivity. }
      assert (Hl' : S (length prefix) = length (prefix ++ [point])).
      { rewrite length_app. simpl. lia. }
      assert (Hnext : forall sc' st',
        l1_ok data m l st' ->
        exists st'',
          RPkg.level_one_scan data p (length l) split_step m sa (next :: it)
            (S (length prefix)) sc' (S (length prefix)) st' = Ret st'' /\
          l1_ok data m l st'').
      { intros sc' st' Hst'. rewrite Hl'. apply IH; auto. discriminate. }
      destruct (get_value data point p =? get_value data next p) eqn:E1;
        [apply Hnext; assumption|].
      destruct ((S (length prefix) <? m)%nat
                || (size_sub (length l) (S (length prefix)) <? Z.of_nat m))
        eqn:E2; [apply Hnext; assumption|].
      destruct (sc + 1 >=? split_step) eqn:E3; [|apply Hnext; assumption].
      pose proof (observations_length data l Hobs) as HlN.
      destruct (side_actions_runs sa (S (length prefix)) (length l)
                  (seq 0 (num_rewards data)) neg_INF neg_INF 0%nat 0%nat)
        as [lb [rb [la [ra [E4 [Hla Hra]]]]]]; auto; try lia.
      { intros d Hd. apply in_seq in Hd. lia. }
      rewrite E4. cbn [bind]. apply Hnext.
      destruct (dlt (RPkg.best_reward st) (dadd lb rb)); [|assumption].
      unfold l1_ok. cbn.
      split; [exact Hla|]. split; [exact Hra|]. split; [exact Hp|].
      right. exists (prefix ++ [point]), (next :: it).
      apply orb_false_elim in E2. destruct E2 as [E2a E2b].
      apply Nat.ltb_ge in E2a. apply Z.ltb_ge in E2b.
      rewrite size_sub_le in E2b by lia.
      apply split_of_sorted; auto; try lia.
      apply Z.eqb_neq in E1.
      pose proof (sorted_by_adjacent data p l prefix point next it HS). lia.
Qed.

Lemma level_one_features_ok : forall ps st sum_array,
  (forall p, In p ps -> (p < num_features data)%nat) ->
  (1 <= length l)%nat ->
  sum_shape data sum_array -> l1_ok data m l st ->
  exists st' sum_array',
    RPkg.level_one_features data ps (frame_of data l) (length l)
                            split_step m sum_array st
    = Ret (st', sum_array') /\
    l1_ok data m l st' /\ sum_shape data sum_array'.
Proof.
  induction ps as [|p ps IH]; intros st sa Hps Hl Hsh Hst.
  - exists st, sa. auto.
  - cbn [RPkg.level_one_features].
    rewrite at_frame_of by (apply Hps; left; reflexivity). cbn [bind].
    destruct (fill_sum_array_filled data (sorted_by data p l) sa)
      as [sa' [E1 [Hsh' Hfill]]]; auto.
    { rewrite sorted_by_length by assumption.
      apply observations_length. assumption. }
    rewrite E1. cbn [bind].
    destruct (level_one_scan_ok p (sorted_by data p l) [] 0 st sa')
      as [st' [E2 Hst']]; auto.
    { apply Hps. left; reflexivity. }
    { intros E. pose proof (sorted_by_length data p l Hobs) as HL.
      rewrite E in HL. simpl in HL. lia. }
    simpl length in E2. rewrite E2. cbn [bind].
    apply IH; auto. intros q Hq. apply Hps. right; assumption.
Qed.

Lemma level_one_learning_shaped : forall sum_array this_depth,
  (1 <= length l)%nat -> sum_shape data sum_array ->
  exists t sum_array',
    RPkg.level_one_learning data (frame_of data l) sum_array split_step m
                            this_depth = Ret (t, sum_array') /\
    sum_shape data sum_array' /\ shaped data 1 l t /\ built data m l t.
Proof.
  intros sa td Hl Hsh. unfold RPkg.level_one_learning.
  rewrite at_frame_of by lia. cbn [bind].
  rewrite sorted_by_length by assumption.
  destruct (level_one_features_ok (seq 0 (num_features data))
              (RPkg.mkL1 0 0 0 0 neg_INF neg_INF neg_INF) sa)
    as [st [sa' [E [Hst Hsh']]]]; auto.
  { intros p Hp. apply in_seq in Hp. lia. }
  { unfold l1_ok. cbn. splits; try lia. left. reflexivity. }
  rewrite E. cbn [bind].
  destruct Hst as [Hla [Hra [Hvar Hst]]].
  destruct (dlt neg_INF (RPkg.best_reward st)) eqn:E1.
  - destruct Hst as [Hst|[pre [rest Hsplit]]].
    { rewrite Hst in E1. discriminate. }
    destruct (RPkg.best_action_left st =? RPkg.best_action_right st)%nat
      eqn:E2.
    + do 2 eexists. split; [reflexivity|]. split; [assumption|].
      split; [|apply built_leaf].
      unfold shaped. cbn.
      split; [reflexivity|]. split; [exact I|]. split; [exact Hla|].
      intros; lia.
    + do 2 eexists. split; [reflexivity|]. split; [assumption|].
      split.
      * unfold shaped. cbn.
        split; [auto|]. split; [auto|]. split; [auto|]. intros; lia.
      * eapply built_split;
          [exact Hsplit | apply built_leaf | apply built_leaf
           | simpl; exact E2].
  - destruct (level_zero_learning_shaped l 1 (td + 1)) as [t [E3 [Hs Hb]]].
    rewrite E3. cbn [bind].
    do 2 eexists. split; [reflexivity|]. auto.
Qed.

End OneFrame.

Lemma reward_of_set_sets : forall t sets,
  RPkg.node_data (RPkg.set_complete_sorted_sets t sets)
  = RPkg.mkNodeData (RPkg.index (RPkg.node_data t))
                    (RPkg.value (RPkg.node_data t))
                    (RPkg.reward (RPkg.node_data t))
                    (RPkg.action_id (RPkg.node_data t))
                    (RPkg.depth (RPkg.node_data t))
                    (RPkg.height (RPkg.node_data t)) sets.
Proof. intros [nd|nd tl tr] sets; reflexivity. Qed.

(** At every level, for every [split_step] and [min_node_size], on a
    frame of at most [fuel] observations the search returns a tree that is
    built on the observations of the frame, records its heights, carries
    at each internal node the sets of the observations routed there,
    names only features and actions of the data, and is no deeper than a
    non-negative level. *)
Lemma find_best_split_shaped : forall fuel l level sum_array this_depth,
  observations data l -> (1 <= length l <= fuel)%nat ->
  sum_shape data sum_array ->
  exists t sum_array',
    RPkg.find_best_split data fuel (frame_of data l) level split_step m
                         sum_array this_depth = Ret (t, sum_array') /\
    sum_shape data sum_array' /\ shaped data level l t /\ built data m l t.
Proof.
  induction fuel as [|fuel IH]; intros l level sa td Hobs Hl Hsh; [lia|].
  cbn [RPkg.find_best_split].
  destruct (level =? 0) eqn:E0.
  { destruct (level_zero_learning_shaped l level (td + 1))
      as [t [E Hb]].
    rewrite E. cbn [bind]. do 2 eexists.
    split; [reflexivity|]. split; assumption. }
  destruct (level =? 1) eqn:E1.
  { apply Z.eqb_eq in E1. subst level.
    apply level_one_learning_shaped; auto. lia. }
  apply Z.eqb_neq in E0, E1.
  rewrite at_frame_of by lia. cbn [bind].
  rewrite sorted_by_length by assumption.
  destruct (feature_loop_with data split_step m
              (fun l' t => shaped data (level - 1) l' t /\ built data m l' t)
              (fun sets sa0 =>
                 RPkg.find_best_split data fuel sets (level - 1) split_step
                                      m sa0 (td + 1))
              fuel
              (fun l' sa' Ho Hl' Hs' => IH l' (level - 1) sa' (td + 1)
                                           Ho Hl' Hs')
              l Hobs ltac:(lia) (seq 0 (num_features data)) None sa)
    as [best [sa' [E [Hbest Hsh']]]]; auto.
  { intros p Hp. apply in_seq in Hp. lia. }
  { lia. }
  { exact I. }
  rewrite E. cbn [bind].
  destruct best as [[[[bl br] bp] bv]|].
  - destruct Hbest as [Hbp [pre [rest [Hsplit [[Hbl Hfl] [Hbr Hfr]]]]]].
    destruct Hbl as [Hhl [Hsl [Hpl Hdl]]].
    destruct Hbr as [Hhr [Hsr [Hpr Hdr]]].
    destruct (RPkg.is_leaf bl && RPkg.is_leaf br
              && (RPkg.action_id (RPkg.node_data bl)
                  =? RPkg.action_id (RPkg.node_data br))%nat) eqn:E2.
    + do 2 eexists. split; [reflexivity|]. split; [assumption|].
      apply andb_prop in E2. destruct E2 as [E2 _].
      apply andb_prop in E2. destruct E2 as [Ll _].
      destruct bl as [ndl|]; [|discriminate].
      split; [|apply built_leaf].
      unfold shaped. cbn in *.
      split; [reflexivity|]. split; [exact I|]. split; [exact Hpl|].
      intros; lia.
    + do 2 eexists. split; [reflexivity|]. split; [assumption|].
      split; [|eapply built_split; eauto].
      unfold shaped.
      cbn [RPkg.set_complete_sorted_sets RPkg.set_children RPkg.new_Node
           RPkg.node_data heights_ok sets_ok to_policy policy_ok
           policy_depth RPkg.height RPkg.index RPkg.value RPkg.reward
           RPkg.complete_sorted_sets].
      assert (Hht : forall t, heights_ok t ->
                RPkg.height (RPkg.node_data t)
                = Z.of_nat (policy_depth (to_policy t))).
      { intros [nd|nd tl tr] H; cbn in *; [exact H | apply H]. }
      split.
      { split; [|split; assumption].
        rewrite (Hht bl Hhl), (Hht br Hhr). lia. }
      split.
      { split; [reflexivity|].
        destruct (split_of_routes data m l
                    (RPkg.mkNodeData bp bv
                       (dadd (RPkg.reward (RPkg.node_data bl))
                             (RPkg.reward (RPkg.node_data br))) 0
                       (td + 1)
                       (Z.max (RPkg.height (RPkg.node_data bl))
                              (RPkg.height (RPkg.node_data br)) + 1)
                       (frame_of data l))
                    pre rest l Hsplit (Permutation_refl l)) as [HPl HPr].
        split; [eapply sets_ok_perm; [symmetry; exact HPl | exact Hsl]
               | eapply sets_ok_perm; [symmetry; exact HPr | exact Hsr]]. }
      split; [auto|].
      intros Hk. specialize (Hdl ltac:(lia)). specialize (Hdr ltac:(lia)).
      lia.
  - destruct (level_zero_learning_shaped l level (td + 1))
      as [t [E3 Hb]].
    rewrite E3. cbn [bind]. do 2 eexists.
    split; [reflexivity|]. split; assumption.
Qed.

End RPkgShape.

Lemma tree_search_shaped : forall data fuel depth split_step min_node_size,
  valid_data data -> (num_rows data <= fuel)%nat ->
  exists t,
    RPkg.tree_search data fuel depth split_step min_node_size = Ret t /\
    shaped data depth (seq 0 (num_rows data)) t /\
    built data min_node_size (seq 0 (num_rows data)) t.
Proof.
  intros data fuel depth ss mns [HN [Hp [Hd _]]] Hfuel.
  unfold RPkg.tree_search. rewrite frame_of_root.
  destruct (find_best_split_shaped data ss mns Hp Hd fuel
              (seq 0 (num_rows data)) depth (new_sum_array data) 0)
    as [t [sa [E [_ Hb]]]].
  - apply observations_root.
  - rewrite length_seq. lia.
  - apply new_sum_array_shape.
  - rewrite E. exists t. split; [reflexivity | assumption].
Qed.

(** ** Properties of built trees *)

Lemma built_no_redundant_split : forall data m l t,
  built data m l t -> no_redundant_split t = true.
Proof.
  induction 1 as [|l pre rest nd tl tr Hsplit Hl IHl Hr IHr Hprune];
    simpl; [reflexivity|].
  rewrite Hprune, IHl, IHr. reflexivity.
Qed.

Lemma built_min_size_ok : forall data m l t,
  built data m l t ->
  forall obs, Permutation obs l -> min_size_ok data m obs t = true.
Proof.
  induction 1 as [|l pre rest nd tl tr Hsplit Hl IHl Hr IHr Hprune];
    intros obs Hobs; simpl; [reflexivity|].
  destruct (split_of_routes _ _ _ _ _ _ _ Hsplit Hobs) as [HL HR].
  destruct Hsplit as [_ [_ [_ [Hm1 Hm2]]]].
  rewrite (IHl _ HL), (IHr _ HR).
  rewrite (Permutation_length HL), (Permutation_length HR).
  apply Nat.leb_le in Hm1, Hm2. rewrite Hm1, Hm2. reflexivity.
Qed.

(** When both subtrees of every internal node are large enough, so is
    every leaf below an internal node. *)
Lemma min_size_ok_leaves : forall data m t obs,
  min_size_ok data m obs t = true -> RPkg.is_leaf t = false ->
  Forall (fun n => (m <= n)%nat) (leaf_sizes data obs t).
Proof.
  intros data m. induction t as [nd|nd tl IHl tr IHr]; intros obs H Hleaf.
  - discriminate.
  - simpl in H. apply andb_prop in H. destruct H as [H Hr].
    apply andb_prop in H. destruct H as [H Hl].
    apply andb_prop in H. destruct H as [H1 H2].
    apply Nat.leb_le in H1, H2.
    simpl. apply Forall_app. split.
    + destruct tl; [repeat constructor; assumption | apply IHl; auto].
    + destruct tr; [repeat constructor; assumption | apply IHr; auto].
Qed.

(** C7.  On every valid input the exact search of the r-package returns a
    tree in which both subtrees of every internal node subtend at least
    [min_node_size] of the observations routed to the node, and so every
    leaf below an internal node subtends at least [min_node_size]
    observations. *)
Theorem C7_min_node_size : forall data fuel depth split_step min_node_size,
  valid_data data -> (num_rows data <= fuel)%nat ->
  exists t,
    RPkg.tree_search data fuel depth split_step min_node_size = Ret t /\
    min_size_ok data min_node_size (seq 0 (num_rows data)) t = true /\
    (RPkg.is_leaf t = false ->
     Forall (fun n => (min_node_size <= n)%nat)
            (leaf_sizes data (seq 0 (num_rows data)) t)).
Proof.
  intros data fuel depth ss mns Hv Hfuel.
  destruct (tree_search_shaped data fuel depth ss mns Hv Hfuel)
    as [t [E [_ Hb]]].
  exists t. split; [exact E|].
  assert (H : min_size_ok data mns (seq 0 (num_rows data)) t = true)
    by (eapply built_min_size_ok; eauto).
  split; [exact H|]. apply min_size_ok_leaves. exact H.
Qed.

(** The witness of C7: scenario 1 at depth 2 with [min_node_size = 2]. *)
Lemma C7_min_node_size_witness :
  exists t,
    RPkg.tree_search data_two_regimes 4 2 1 2 = Ret t /\
    min_size_ok data_two_regimes 2 (seq 0 (num_rows data_two_regimes)) t
    = true /\
    (RPkg.is_leaf t = false ->
     Forall (fun n => (2 <= n)%nat)
            (leaf_sizes data_two_regimes
                        (seq 0 (num_rows data_two_regimes)) t)).
Proof.
  apply C7_min_node_size.
  - unfold valid_data. vm_compute. repeat split; try lia; discriminate.
  - vm_compute. lia.
Defined.

(** ** Redundant splits *)

(** In the r-package search no returned tree has an internal node whose
    two children are leaves with the same action: [level_one_learning]
    returns a leaf when its two actions agree, and [find_best_split]
    collapses a best candidate of two leaves with one action. *)
Lemma rpkg_no_redundant_split :
  forall data fuel depth split_step min_node_size,
  valid_data data -> (num_rows data <= fuel)%nat ->
  exists t,
    RPkg.tree_search data fuel depth split_step min_node_size = Ret t /\
    no_redundant_split t = true.
Proof.
  intros data fuel depth ss mns Hv Hfuel.
  destruct (tree_search_shaped data fuel depth ss mns Hv Hfuel)
    as [t [E [_ Hb]]].
  exists t. split; [exact E|].
  eapply built_no_redundant_split; eauto.
Qed.

(** C8, evaluated in the original implementation at depth 2 on four
    observations in two groups, each reward being [-2^1023].  The sum of
    the rewards of a group overflows to [-INF], which is not above the
    initial [best_reward = -INF], so the leaf of each group keeps the
    initial [best_action = (size_t) -1].  The pruning test of
    [find_best_split] reads [(size_t) -1] as the mark of an internal node
    and keeps the candidate: the returned root has two leaf children with
    one [action_id].  The r-package search, which tests [is_leaf], returns
    a single leaf on the same input. *)
Theorem C8_core_redundant_split_on_overflow :
  valid_data data_overflow /\
  Core.tree_search data_overflow 4 2
  = Ret (Core.Internal
           (Core.mkNodeData 0 0 NInf SIZE_MAX)
           (Core.Leaf (Core.mkNodeData SIZE_MAX (-1) NInf SIZE_MAX))
           (Core.Leaf (Core.mkNodeData SIZE_MAX (-1) NInf SIZE_MAX))) /\
  (exists t,
     Core.tree_search data_overflow 4 2 = Ret t /\
     core_no_redundant_split t = false) /\
  (exists t,
     RPkg.tree_search data_overflow 4 2 1 1 = Ret t /\
     RPkg.is_leaf t = true).
Proof.
  split.
  { unfold valid_data. vm_compute. repeat split; try lia; discriminate. }
  split; [vm_compute; reflexivity|].
  split; eexists; (split; [vm_compute; reflexivity | reflexivity]).
Qed.

(** ** Two runs on identical inputs *)

Section Determinism.

Variables d1 d2 : Data.
Hypothesis Hsame : same_data d1 d2.

Let HN : num_rows d1 = num_rows d2 := proj1 Hsame.
Let HP : num_features d1 = num_features d2 := proj1 (proj2 Hsame).
Let HR : num_rewards d1 = num_rewards d2 := proj1 (proj2 (proj2 Hsame)).

Lemma get_value_same : forall i j,
  (i < num_rows d1)%nat -> (j < num_features d1)%nat ->
  get_value d1 i j = get_value d2 i j.
Proof. apply (proj2 (proj2 (proj2 Hsame))). Qed.

Lemma get_reward_same : forall i a,
  (i < num_rows d1)%nat -> (a < num_rewards d1)%nat ->
  get_reward d1 i a = get_reward d2 i a.
Proof. apply (proj2 (proj2 (proj2 Hsame))). Qed.

Lemma cmp_func_same : forall j x y,
  (j < num_features d1)%nat ->
  (x < num_rows d1)%nat -> (y < num_rows d1)%nat ->
  cmp_func d1 j x y = cmp_func d2 j x y.
Proof.
  intros j x y Hj Hx Hy. unfold cmp_func.
  rewrite !get_value_same by assumption. reflexivity.
Qed.

Lemma insert_same : forall j x s,
  (j < num_features d1)%nat -> (x < num_rows d1)%nat ->
  (forall y, In y s -> (y < num_rows d1)%nat) ->
  insert (cmp_func d1 j) x s = insert (cmp_func d2 j) x s.
Proof.
  intros j x s Hj Hx. induction s as [|a s IH]; intros Hs; simpl;
    [reflexivity|].
  assert (Ha : (a < num_rows d1)%nat) by (apply Hs; left; reflexivity).
  rewrite (cmp_func_same j x a), (cmp_func_same j a x) by assumption.
  rewrite IH; [reflexivity|]. intros y Hy. apply Hs. right; assumption.
Qed.

Lemma fill_set_same : forall j,
  (j < num_features d1)%nat -> fill_set d1 j = fill_set d2 j.
Proof.
  intros j Hj. unfold fill_set. rewrite <- HN.
  assert (H : forall l s,
    (forall i, In i l -> (i < num_rows d1)%nat) ->
    (forall i, In i s -> (i < num_rows d1)%nat) ->
    fold_left (fun setj i => insert (cmp_func d1 j) i setj) l s
    = fold_left (fun setj i => insert (cmp_func d2 j) i setj) l s).
  { induction l as [|a l IH]; intros s Hl Hs; simpl; [reflexivity|].
    rewrite <- insert_same; auto; [|apply Hl; left; reflexivity].
    apply IH.
    - intros i Hi. apply Hl. right; assumption.
    - intros i Hi. apply insert_In in Hi. destruct Hi as [->|Hi]; auto.
      apply Hl. left; reflexivity. }
  apply H.
  - intros i Hi. apply in_seq in Hi. lia.
  - intros i [].
Qed.

Lemma sorted_by_same : forall j l,
  (j < num_features d1)%nat -> sorted_by d1 j l = sorted_by d2 j l.
Proof. intros j l Hj. unfold sorted_by. rewrite fill_set_same; auto. Qed.

Lemma frame_of_same : forall l, frame_of d1 l = frame_of d2 l.
Proof.
  intros l. unfold frame_of. rewrite <- HP.
  apply map_ext_in. intros j Hj. apply in_seq in Hj.
  apply sorted_by_same. lia.
Qed.

Lemma create_sorted_sets_same : forall make_empty,
  create_sorted_sets d1 make_empty = create_sorted_sets d2 make_empty.
Proof.
  intros [|].
  - rewrite !frame_of_empty. apply frame_of_same.
  - rewrite !frame_of_root, <- HN. apply frame_of_same.
Qed.

Lemma observations_same : forall l, observations d1 l -> observations d2 l.
Proof. intros l [Hnd Hlt]. split; auto. rewrite <- HN. exact Hlt. Qed.

Lemma move_point_same : forall p pre x rest,
  (p < num_features d1)%nat ->
  observations d1 (pre ++ x :: rest) ->
  StronglySorted (before d1 p) (x :: rest) ->
  move_point d2 p (frame_of d1 pre) (frame_of d1 (x :: rest))
  = Ret (x, frame_of d1 (pre ++ [x]), frame_of d1 rest).
Proof.
  intros p pre x rest Hp Hobs Hs.
  rewrite !frame_of_same. apply move_point_spec.
  - lia.
  - apply observations_same. exact Hobs.
  - rewrite <- (sorted_by_self d1 p (x :: rest)); auto.
    + rewrite sorted_by_same by assumption. apply sorted_by_sorted.
    + intros i Hi. apply (proj2 Hobs). apply in_or_app. right. exact Hi.
Qed.

Lemma new_sum_array_same : new_sum_array d1 = new_sum_array d2.
Proof. unfold new_sum_array. rewrite HN, HR. reflexivity. Qed.

Lemma reward_sum_same : forall s d,
  (d < num_rewards d1)%nat ->
  (forall i, In i s -> (i < num_rows d1)%nat) ->
  reward_sum d1 s d = reward_sum d2 s d.
Proof.
  intros s d Hd. unfold reward_sum. generalize (Fin 0).
  induction s as [|a s IH]; intros acc Hs; simpl; [reflexivity|].
  rewrite get_reward_same by (auto; apply Hs; left; reflexivity).
  apply IH. intros i Hi. apply Hs. right; assumption.
Qed.

Lemma fill_sum_row_same : forall d points n sum_array,
  (d < num_rewards d1)%nat ->
  (forall i, In i points -> (i < num_rows d1)%nat) ->
  fill_sum_row d1 d points n sum_array = fill_sum_row d2 d points n sum_array.
Proof.
  intros d. induction points as [|x points IH]; intros n sa Hd Hpts;
    [reflexivity|].
  cbn [fill_sum_row].
  rewrite get_reward_same by (auto; apply Hpts; left; reflexivity).
  destruct (at_ sa d) as [row| |]; cbn [bind]; try reflexivity.
  destruct (at_ row (S n - 1)) as [prev| |]; cbn [bind]; try reflexivity.
  destruct (set_at row (S n) (dadd prev (Fin (get_reward d2 x d))))
    as [row'| |];
    cbn [bind]; try reflexivity.
  destruct (set_at sa d row') as [sa'| |]; cbn [bind]; try reflexivity.
  apply IH; auto. intros i Hi. apply Hpts. right; assumption.
Qed.

Lemma fill_sum_array_same : forall points ds sum_array,
  (forall d, In d ds -> (d < num_rewards d1)%nat) ->
  (forall i, In i points -> (i < num_rows d1)%nat) ->
  fill_sum_array d1 ds points sum_array
  = fill_sum_array d2 ds points sum_array.
Proof.
  intros points. induction ds as [|d ds IH]; intros sa Hds Hpts;
    [reflexivity|].
  cbn [fill_sum_array].
  rewrite fill_sum_row_same by (auto; apply Hds; left; reflexivity).
  destruct (fill_sum_row d2 d points 0 sa) as [sa'| |]; cbn [bind];
    try reflexivity.
  apply IH; auto. intros d' Hd'. apply Hds. right; assumption.
Qed.

End Determinism.

Section RPkgDeterminism.

Variables d1 d2 : Data.
Hypothesis Hsame : same_data d1 d2.
Hypothesis Hnf : (1 <= num_features d1)%nat.
Variable split_step : Z.
Variable m : nat.

Lemma sorted_by_lt : forall j l i,
  In i (sorted_by d1 j l) -> (i < num_rows d1)%nat.
Proof. intros j l i Hi. apply sorted_by_In in Hi. apply Hi. Qed.

Lemma level_zero_loop_same : forall l ds best_reward best_action,
  (forall d, In d ds -> (d < num_rewards d1)%nat) ->
  RPkg.level_zero_loop d1 (frame_of d1 l) ds best_reward best_action
  = RPkg.level_zero_loop d2 (frame_of d1 l) ds best_reward best_action.
Proof.
  intros l. induction ds as [|d ds IH]; intros br ba Hds; [reflexivity|].
  cbn [RPkg.level_zero_loop]. rewrite at_frame_of by lia. cbn [bind].
  rewrite <- (reward_sum_same d1 d2 Hsame).
  - destruct (dlt br (reward_sum d1 (sorted_by d1 0 l) d));
      apply IH; intros d' Hd'; apply Hds; right; assumption.
  - apply Hds. left; reflexivity.
  - apply sorted_by_lt.
Qed.

Lemma level_zero_learning_same : forall l this_depth,
  RPkg.level_zero_learning d1 (frame_of d1 l) this_depth
  = RPkg.level_zero_learning d2 (frame_of d1 l) this_depth.
Proof.
  intros l td. unfold RPkg.level_zero_learning.
  rewrite <- (proj1 (proj2 (proj2 Hsame))).
  rewrite level_zero_loop_same; [reflexivity|].
  intros d Hd. apply in_seq in Hd. lia.
Qed.

Lemma level_one_scan_same : forall p num_points sum_array it n sc k st,
  (p < num_features d1)%nat ->
  (forall i, In i it -> (i < num_rows d1)%nat) ->
  RPkg.level_one_scan d1 p num_points split_step m sum_array it n sc k st
  = RPkg.level_one_scan d2 p num_points split_step m sum_array it n sc k st.
Proof.
  intros p np sa. induction it as [|point it IH]; intros n sc k st Hp Hit;
    [reflexivity|].
  cbn [RPkg.level_one_scan]. destruct it as [|next it]; [reflexivity|].
  assert (Hit' : forall i, In i (next :: it) -> (i < num_rows d1)%nat).
  { intros i Hi. apply Hit. right; assumption. }
  rewrite <- !(get_value_same d1 d2 Hsame)
    by (auto; apply Hit; simpl; auto).
  rewrite <- (proj1 (proj2 (proj2 Hsame))).
  destruct (get_value d1 point p =? get_value d1 next p); [apply IH; auto|].
  destruct ((S k <? m)%nat || (size_sub np (S k) <? Z.of_nat m));
    [apply IH; auto|].
  destruct (sc + 1 >=? split_step); [|apply IH; auto].
  destruct (RPkg.side_actions sa (S n) np (seq 0 (num_rewards d1))
                              neg_INF neg_INF 0%nat 0%nat)
    as [[[[lb rb] la] ra]| |]; cbn [bind]; try reflexivity.
  apply IH; auto.
Qed.

Lemma level_one_features_same : forall l ps num_points sum_array st,
  (forall p, In p ps -> (p < num_features d1)%nat) ->
  RPkg.level_one_features d1 ps (frame_of d1 l) num_points split_step m
                          sum_array st
  = RPkg.level_one_features d2 ps (frame_of d1 l) num_points split_step m
                            sum_array st.
Proof.
  intros l. induction ps as [|p ps IH]; intros np sa st Hps; [reflexivity|].
  cbn [RPkg.level_one_features].
  assert (Hp : (p < num_features d1)%nat) by (apply Hps; left; reflexivity).
  rewrite at_frame_of by assumption. cbn [bind].
  rewrite <- (proj1 (proj2 (proj2 Hsame))).
  rewrite <- (fill_sum_array_same d1 d2 Hsame).
  - destruct (fill_sum_array d1 (seq 0 (num_rewards d1))
                             (sorted_by d1 p l) sa) as [sa'| |];
      cbn [bind]; try reflexivity.
    rewrite <- level_one_scan_same by (auto; apply sorted_by_lt).
    destruct (RPkg.level_one_scan d1 p np split_step m sa'
                                  (sorted_by d1 p l) 0 0 0 st) as [st'| |];
      cbn [bind]; try reflexivity.
    apply IH. intros q Hq. apply Hps. right; assumption.
  - intros d Hd. apply in_seq in Hd. lia.
  - apply sorted_by_lt.
Qed.

Lemma level_one_learning_same : forall l sum_array this_depth,
  RPkg.level_one_learning d1 (frame_of d1 l) sum_array split_step m
                          this_depth
  = RPkg.level_one_learning d2 (frame_of d1 l) sum_array split_step m
                            this_depth.
Proof.
  intros l sa td. unfold RPkg.level_one_learning.
  rewrite <- (proj1 (proj2 Hsame)).
  rewrite at_frame_of by lia. cbn [bind].
  rewrite <- level_one_features_same
    by (intros p Hp; apply in_seq in Hp; lia).
  rewrite <- level_zero_learning_same. reflexivity.
Qed.

Section Loops.

Variables search1 search2
  : family -> list (list double) -> run (RPkg.Node * list (list double)).
Hypothesis Hsearch : forall l' sum_array,
  observations d1 l' -> (1 <= length l')%nat ->
  search1 (frame_of d1 l') sum_array = search2 (frame_of d1 l') sum_array.

Variable l : list nat.
Hypothesis Hobs : observations d1 l.

Lemma split_loop_same : forall p iters num_points pre rest sc k best sum_array,
  (p < num_features d1)%nat ->
  sorted_by d1 p l = pre ++ rest -> length rest = S iters ->
  RPkg.split_loop d1 search1 iters p num_points split_step m
                  (frame_of d1 pre) (frame_of d1 rest) sc k best sum_array
  = RPkg.split_loop d2 search2 iters p num_points split_step m
                    (frame_of d1 pre) (frame_of d1 rest) sc k best sum_array.
Proof.
  intros p. induction iters as [|iters IH];
    intros np pre rest sc k best sa Hp HS Hlen; [reflexivity|].
  destruct rest as [|x rest]; [discriminate|].
  destruct rest as [|y rest]; [discriminate|].
  assert (Hperm : Permutation (pre ++ x :: y :: rest) l).
  { rewrite <- HS. apply sorted_by_perm. assumption. }
  assert (Hall : observations d1 (pre ++ x :: y :: rest)).
  { eapply observations_perm; [symmetry; exact Hperm | assumption]. }
  pose proof (sorted_by_sorted d1 p l) as Hs. rewrite HS in Hs.
  apply StronglySorted_app_inv in Hs. destruct Hs as [_ [Hs _]].
  assert (Hs' : StronglySorted (before d1 p) (y :: rest))
    by (inversion Hs; assumption).
  assert (Hlt : forall i, In i (x :: y :: rest) -> (i < num_rows d1)%nat).
  { intros i Hi. apply (proj2 Hall). apply in_or_app. right. auto. }
  assert (Hnext : forall sc' best' sa',
    RPkg.split_loop d1 search1 iters p np split_step m
                    (frame_of d1 (pre ++ [x])) (frame_of d1 (y :: rest))
                    sc' (S k) best' sa'
    = RPkg.split_loop d2 search2 iters p np split_step m
                      (frame_of d1 (pre ++ [x])) (frame_of d1 (y :: rest))
                      sc' (S k) best' sa').
  { intros sc' best' sa'. apply IH; auto.
    rewrite HS, <- app_assoc. reflexivity. }
  cbn [RPkg.split_loop].
  rewrite move_point_spec by assumption.
  rewrite (move_point_same d1 d2 Hsame) by assumption. cbn [bind].
  rewrite at_frame_of by assumption. cbn [bind].
  rewrite sorted_by_self by (auto; intros i Hi; apply Hlt; right; auto).
  rewrite <- !(get_value_same d1 d2 Hsame) by (auto; apply Hlt; simpl; auto).
  destruct (get_value d1 x p >=? get_value d1 y p); [apply Hnext|].
  destruct ((S k <? m)%nat || (size_sub np (S k) <? Z.of_nat m));
    [apply Hnext|].
  destruct (sc + 1 >=? split_step); [|apply Hnext].
  assert (Hboth : observations d1 ((pre ++ [x]) ++ y :: rest)).
  { rewrite <- app_assoc. exact Hall. }
  destruct (observations_app _ _ _ Hboth) as [Hobl Hobr].
  rewrite <- Hsearch by (auto; rewrite length_app; simpl; lia).
  destruct (search1 (frame_of d1 (pre ++ [x])) sa) as [[tl sa1]| |];
    cbn [bind]; try reflexivity.
  rewrite <- Hsearch by (auto; simpl; lia).
  destruct (search1 (frame_of d1 (y :: rest)) sa1) as [[tr sa2]| |];
    cbn [bind]; try reflexivity.
  apply Hnext.
Qed.

Lemma feature_loop_same : forall ps best sum_array,
  (forall p, In p ps -> (p < num_features d1)%nat) ->
  (1 <= length l)%nat ->
  RPkg.feature_loop d1 search1 ps (frame_of d1 l) (length l) split_step m
                    best sum_array
  = RPkg.feature_loop d2 search2 ps (frame_of d1 l) (length l) split_step m
                      best sum_array.
Proof.
  induction ps as [|p ps IH]; intros best sa Hps Hl; [reflexivity|].
  cbn [RPkg.feature_loop].
  rewrite loop_bound_pos by assumption.
  rewrite <- (create_sorted_sets_same d1 d2 Hsame).
  rewrite frame_of_empty, <- (frame_of_sorted_by d1 p l).
  rewrite <- (split_loop_same p (length l - 1) (length l) []
                              (sorted_by d1 p l)).
  - destruct (RPkg.split_loop d1 search1 (length l - 1) p (length l)
                split_step m (frame_of d1 []) (frame_of d1 (sorted_by d1 p l))
                0 0 best sa) as [[best' sa']| |]; cbn [bind];
      try reflexivity.
    rewrite frame_of_sorted_by.
    apply IH; auto. intros q Hq. apply Hps. right; assumption.
  - apply Hps. left; reflexivity.
  - reflexivity.
  - rewrite sorted_by_length by assumption. lia.
Qed.

End Loops.

Lemma find_best_split_same : forall fuel l level sum_array this_depth,
  observations d1 l -> (1 <= length l)%nat ->
  RPkg.find_best_split d1 fuel (frame_of d1 l) level split_step m
                       sum_array this_depth
  = RPkg.find_best_split d2 fuel (frame_of d1 l) level split_step m
                         sum_array this_depth.
Proof.
  induction fuel as [|fuel IH]; intros l level sa td Hobs Hl; [reflexivity|].
  cbn [RPkg.find_best_split].
  rewrite <- level_zero_learning_same, <- level_one_learning_same.
  destruct (level =? 0); [reflexivity|].
  destruct (level =? 1); [reflexivity|].
  rewrite at_frame_of by lia. cbn [bind].
  rewrite sorted_by_length by assumption.
  rewrite <- (proj1 (proj2 Hsame)).
  rewrite <- (feature_loop_same
                (fun sets sa0 =>
                   RPkg.find_best_split d1 fuel sets (level - 1) split_step
                                        m sa0 (td + 1))
                (fun sets sa0 =>
                   RPkg.find_best_split d2 fuel sets (level - 1) split_step
                                        m sa0 (td + 1))).
  - reflexivity.
  - intros l' sa' Ho Hl'. apply IH; assumption.
  - assumption.
  - intros p Hp. apply in_seq in Hp. lia.
  - assumption.
Qed.

End RPkgDeterminism.

(** C9.  Two calls of the entry point on identical inputs (matrices with
    the same dimensions and the same entries, and the same parameters)
    return identical results: the same tree, node by node and field by
    field.  The sets are iterated in the order fixed by the comparator
    ([sorted_unique]), and the search reads the matrices only inside their
    bounds. *)
Theorem C9_tree_search_deterministic :
  forall d1 d2 fuel search_fuel depth split_step min_node_size exact_search
         hybrid_complete_split_depth hybrid_chop_depth hybrid_repeat_splits,
  valid_data d1 -> same_data d1 d2 ->
  RPkg.tree_search_rcpp d1 fuel search_fuel depth split_step min_node_size
                        exact_search hybrid_complete_split_depth
                        hybrid_chop_depth hybrid_repeat_splits
  = RPkg.tree_search_rcpp d2 fuel search_fuel depth split_step min_node_size
                          exact_search hybrid_complete_split_depth
                          hybrid_chop_depth hybrid_repeat_splits.
Proof.
  intros d1 d2 fuel sf depth ss mns exact h1 h2 h3 [HN [Hp _]] Hsame.
  unfold RPkg.tree_search_rcpp. destruct exact.
  - unfold RPkg.tree_search.
    rewrite <- (create_sorted_sets_same d1 d2 Hsame).
    rewrite <- (new_sum_array_same d1 d2 Hsame).
    rewrite frame_of_root.
    rewrite (find_best_split_same d1 d2 Hsame Hp ss mns).
    + reflexivity.
    + apply observations_root.
    + rewrite length_seq. exact HN.
  - destruct fuel as [|fuel]; [reflexivity|].
    rewrite !tree_search_hybrid_seed. unfold placeholder.
    rewrite (create_sorted_sets_same d1 d2 Hsame). reflexivity.
Qed.

(** The witness of C9: scenario 1 read through two different views. *)
Lemma C9_tree_search_deterministic_witness :
  RPkg.tree_search_rcpp data_two_regimes 4 4 2 1 1 true 2 1 0
  = RPkg.tree_search_rcpp data_two_regimes_padded 4 4 2 1 1 true 2 1 0.
Proof.
  apply C9_tree_search_deterministic.
  - unfold valid_data. vm_compute. repeat split; try lia; discriminate.
  - unfold same_data. repeat split; try reflexivity.
    + intros i j Hi Hj. change (num_rows data_two_regimes) with 4%nat in Hi.
      change (num_features data_two_regimes) with 1%nat in Hj.
      do 4 (destruct i as [|i]; [destruct j; [reflexivity | lia]|]). lia.
    + intros i a Hi Ha. change (num_rows data_two_regimes) with 4%nat in Hi.
      change (num_rewards data_two_regimes) with 2%nat in Ha.
      do 4 (destruct i as [|i];
            [destruct a as [|[|a]]; [reflexivity | reflexivity | lia]|]).
      lia.
Defined.

(** ** The recursive calls are made on recursion frames

    The loops of [find_best_split] use their recursive call only on
    families that [recursion_frame] lists: two stand-ins for the call that
    agree on those families give the same run. *)

Section CallsOnFrames.

Variable data : Data.
Variable l : list nat.
Hypothesis Hobs : observations data l.
Hypothesis HF : recursion_frame data (frame_of data l).

Lemma children_are_frames : forall p pre x y rest,
  (p < num_features data)%nat ->
  sorted_by data p l = pre ++ x :: y :: rest ->
  recursion_frame data (frame_of data (pre ++ [x])) /\
  recursion_frame data (frame_of data (y :: rest)).
Proof.
  intros p pre x y rest Hp HS.
  assert (Hlen : length l = (length pre + 2 + length rest)%nat).
  { rewrite <- (sorted_by_length data p l Hobs), HS, length_app.
    simpl. lia. }
  assert (HM : move_points data p (length (pre ++ [x]))
                 (create_sorted_sets data true) (frame_of data l)
               = Ret (frame_of data (pre ++ [x]),
                      frame_of data (y :: rest))).
  { rewrite move_points_frame; auto.
    - rewrite HS.
      replace (pre ++ x :: y :: rest) with ((pre ++ [x]) ++ y :: rest)
        by (rewrite <- app_assoc; reflexivity).
      rewrite firstn_exact, skipn_exact. reflexivity.
    - rewrite length_app. simpl. lia. }
  assert (Hk1 : (1 <= length (pre ++ [x]))%nat)
    by (rewrite length_app; simpl; lia).
  assert (Hk2 : (length (pre ++ [x]) < num_points (frame_of data l))%nat).
  { rewrite num_points_frame_of by (auto; lia).
    rewrite length_app. simpl. lia. }
  split.
  - eapply frame_left; eauto.
  - eapply frame_right; eauto.
Qed.

Section RPkgCalls.

Variable split_step : Z.
Variable m : nat.
Variables search1 search2
  : family -> list (list double) -> run (RPkg.Node * list (list double)).
Hypothesis Hagree : forall G sum_array,
  recursion_frame data G -> search1 G sum_array = search2 G sum_array.

Lemma rpkg_split_loop_calls :
  forall p iters np pre rest sc k best sum_array,
  (p < num_features data)%nat ->
  sorted_by data p l = pre ++ rest -> length rest = S iters ->
  RPkg.split_loop data search1 iters p np split_step m
                  (frame_of data pre) (frame_of data rest)
                  sc k best sum_array
  = RPkg.split_loop data search2 iters p np split_step m
                    (frame_of data pre) (frame_of data rest)
                    sc k best sum_array.
Proof.
  intros p. induction iters as [|iters IH];
    intros np pre rest sc k best sa Hp HS Hlen; [reflexivity|].
  destruct rest as [|x rest]; [discriminate|].
  destruct rest as [|y rest]; [discriminate|].
  destruct (children_are_frames p pre x y rest Hp HS) as [HL HR].
  assert (Hall : observations data (pre ++ x :: y :: rest)).
  { eapply observations_perm; [|exact Hobs].
    rewrite <- HS. symmetry. apply sorted_by_perm. assumption. }
  pose proof (sorted_by_sorted data p l) as Hs. rewrite HS in Hs.
  apply StronglySorted_app_inv in Hs. destruct Hs as [_ [Hs _]].
  assert (Hnext : forall sc' best' sa',
    RPkg.split_loop data search1 iters p np split_step m
                    (frame_of data (pre ++ [x])) (frame_of data (y :: rest))
                    sc' (S k) best' sa'
    = RPkg.split_loop data search2 iters p np split_step m
                      (frame_of data (pre ++ [x]))
                      (frame_of data (y :: rest)) sc' (S k) best' sa').
  { intros sc' best' sa'. apply IH; auto.
    rewrite HS, <- app_assoc. reflexivity. }
  cbn [RPkg.split_loop].
  rewrite move_point_spec by assumption. cbn [bind].
  destruct (at_ (frame_of data (y :: rest)) p) as [[|next rp]| |];
    cbn [bind]; try reflexivity.
  destruct (get_value data x p >=? get_value data next p); [apply Hnext|].
  destruct ((S k <? m)%nat || (size_sub np (S k) <? Z.of_nat m));
    [apply Hnext|].
  destruct (sc + 1 >=? split_step); [|apply Hnext].
  rewrite <- Hagree by assumption.
  destruct (search1 (frame_of data (pre ++ [x])) sa) as [[tl sa1]| |];
    cbn [bind]; try reflexivity.
  rewrite <- Hagree by assumption.
  destruct (search1 (frame_of data (y :: rest)) sa1) as [[tr sa2]| |];
    cbn [bind]; try reflexivity.
  apply Hnext.
Qed.

Lemma rpkg_feature_loop_calls : forall ps best sum_array,
  (forall p, In p ps -> (p < num_features data)%nat) ->
  (1 <= length l)%nat ->
  RPkg.feature_loop data search1 ps (frame_of data l) (length l)
                    split_step m best sum_array
  = RPkg.feature_loop data search2 ps (frame_of data l) (length l)
                      split_step m best sum_array.
Proof.
  induction ps as [|p ps IH]; intros best sa Hps Hl; [reflexivity|].
  cbn [RPkg.feature_loop].
  rewrite loop_bound_pos by assumption.
  rewrite frame_of_empty, <- (frame_of_sorted_by data p l).
  rewrite (rpkg_split_loop_calls p (length l - 1) (length l) []
                                 (sorted_by data p l)).
  - destruct (RPkg.split_loop data search2 (length l - 1) p (length l)
                split_step m (frame_of data [])
                (frame_of data (sorted_by data p l)) 0 0 best sa)
      as [[best' sa']| |]; cbn [bind]; try reflexivity.
    rewrite frame_of_sorted_by.
    apply IH; auto. intros q Hq. apply Hps. right; assumption.
  - apply Hps. left; reflexivity.
  - reflexivity.
  - rewrite sorted_by_length by assumption. lia.
Qed.

End RPkgCalls.

Section CoreCalls.

Variables search1 search2
  : family -> list (list double) -> run (Core.Node * list (list double)).
Hypothesis Hagree : forall G sum_array,
  recursion_frame data G -> search1 G sum_array = search2 G sum_array.

Lemma core_split_loop_calls :
  forall p iters pre rest best leaf sum_array,
  (p < num_features data)%nat ->
  sorted_by data p l = pre ++ rest -> length rest = S iters ->
  Core.split_loop data search1 iters p
                  (frame_of data pre) (frame_of data rest)
                  best leaf sum_array
  = Core.split_loop data search2 iters p
                    (frame_of data pre) (frame_of data rest)
                    best leaf sum_array.
Proof.
  intros p. induction iters as [|iters IH];
    intros pre rest best leaf sa Hp HS Hlen; [reflexivity|].
  destruct rest as [|x rest]; [discriminate|].
  destruct rest as [|y rest]; [discriminate|].
  destruct (children_are_frames p pre x y rest Hp HS) as [HL HR].
  assert (Hall : observations data (pre ++ x :: y :: rest)).
  { eapply observations_perm; [|exact Hobs].
    rewrite <- HS. symmetry. apply sorted_by_perm. assumption. }
  pose proof (sorted_by_sorted data p l) as Hs. rewrite HS in Hs.
  apply StronglySorted_app_inv in Hs. destruct Hs as [_ [Hs _]].
  assert (Hnext : forall best' leaf' sa',
    Core.split_loop data search1 iters p
                    (frame_of data (pre ++ [x])) (frame_of data (y :: rest))
                    best' leaf' sa'
    = Core.split_loop data search2 iters p
                      (frame_of data (pre ++ [x]))
                      (frame_of data (y :: rest)) best' leaf' sa').
  { intros best' leaf' sa'. apply IH; auto.
    rewrite HS, <- app_assoc. reflexivity. }
  cbn [Core.split_loop].
  rewrite move_point_spec by assumption. cbn [bind].
  destruct (at_ (frame_of data (y :: rest)) p) as [[|next rp]| |];
    cbn [bind]; try reflexivity.
  destruct (get_value data x p >=? get_value data next p); [apply Hnext|].
  rewrite <- Hagree by assumption.
  destruct (search1 (frame_of data (pre ++ [x])) sa) as [[tl sa1]| |];
    cbn [bind]; try reflexivity.
  rewrite <- Hagree by assumption.
  destruct (search1 (frame_of data (y :: rest)) sa1) as [[tr sa2]| |];
    cbn [bind]; try reflexivity.
  repeat match goal with
         | |- context [if ?b then _ else _] => destruct b
         end; apply Hnext.
Qed.

Lemma core_feature_loop_calls : forall ps best leaf sum_array,
  (forall p, In p ps -> (p < num_features data)%nat) ->
  (1 <= length l)%nat ->
  Core.feature_loop data search1 ps (frame_of data l) (length l)
                    best leaf sum_array
  = Core.feature_loop data search2 ps (frame_of data l) (length l)
                      best leaf sum_array.
Proof.
  induction ps as [|p ps IH]; intros best leaf sa Hps Hl; [reflexivity|].
  cbn [Core.feature_loop].
  rewrite loop_bound_pos by assumption.
  rewrite frame_of_empty, <- (frame_of_sorted_by data p l).
  rewrite (core_split_loop_calls p (length l - 1) []
                                 (sorted_by data p l)).
  - destruct (Core.split_loop data search2 (length l - 1) p
                (frame_of data [])
                (frame_of data (sorted_by data p l)) best leaf sa)
      as [[[best' leaf'] sa']| |]; cbn [bind]; try reflexivity.
    rewrite frame_of_sorted_by.
    apply IH; auto. intros q Hq. apply Hps. right; assumption.
  - apply Hps. left; reflexivity.
  - reflexivity.
  - rewrite sorted_by_length by assumption. lia.
Qed.

End CoreCalls.

End CallsOnFrames.

(** Every recursion frame of a non-empty data set holds at least one
    observation. *)
Lemma recursion_frame_nonempty : forall data F,
  (1 <= num_rows data)%nat -> recursion_frame data F ->
  exists l, observations data l /\ (1 <= length l)%nat /\
            F = frame_of data l.
Proof.
  intros data F HN. induction 1 as [|F p k L R HF [l [Hobs [Hl ->]]] Hp Hk1 Hk HM
                   |F p k L R HF [l [Hobs [Hl ->]]] Hp Hk1 Hk HM].
  - exists (seq 0 (num_rows data)). split; [apply observations_root|].
    split; [rewrite length_seq; exact HN | apply frame_of_root].
  - rewrite num_points_frame_of in Hk by (auto; lia).
    rewrite move_points_frame in HM by (auto; lia).
    inversion HM; subst.
    exists (firstn k (sorted_by data p l)).
    split; [apply observations_split; assumption|]. split; [|reflexivity].
    rewrite length_firstn, sorted_by_length by assumption. lia.
  - rewrite num_points_frame_of in Hk by (auto; lia).
    rewrite move_points_frame in HM by (auto; lia).
    inversion HM; subst.
    exists (skipn k (sorted_by data p l)).
    split; [apply observations_split; assumption|]. split; [|reflexivity].
    rewrite length_skipn, sorted_by_length by assumption. lia.
Qed.

(** In both implementations the body of [find_best_split], run on a
    recursion frame, calls the search only on recursion frames. *)
Lemma recursive_calls_on_frames :
  forall data F split_step min_node_size,
  (1 <= num_rows data)%nat -> recursion_frame data F ->
  (forall search1 search2 best sum_array,
     (forall G sa, recursion_frame data G -> search1 G sa = search2 G sa) ->
     RPkg.feature_loop data search1 (seq 0 (num_features data)) F
                       (num_points F) split_step min_node_size
                       best sum_array
     = RPkg.feature_loop data search2 (seq 0 (num_features data)) F
                         (num_points F) split_step min_node_size
                         best sum_array) /\
  (forall search1 search2 best leaf sum_array,
     (forall G sa, recursion_frame data G -> search1 G sa = search2 G sa) ->
     Core.feature_loop data search1 (seq 0 (num_features data)) F
                       (num_points F) best leaf sum_array
     = Core.feature_loop data search2 (seq 0 (num_features data)) F
                         (num_points F) best leaf sum_array).
Proof.
  intros data F ss mns HN HF.
  destruct (num_features data) as [|nf] eqn:Enf; [split; reflexivity|].
  destruct (recursion_frame_nonempty data F HN HF) as [l [Hobs [Hl ->]]].
  rewrite num_points_frame_of by (auto; lia).
  rewrite <- Enf.
  split; intros.
  - apply rpkg_feature_loop_calls; auto.
    intros p Hp. apply in_seq in Hp. lia.
  - apply core_feature_loop_calls; auto.
    intros p Hp. apply in_seq in Hp. lia.
Qed.

(** ** The rewards the r-package search records

    From here on the rewards are small: the magnitudes of the rewards of
    the rows, the largest of each row, add up to less than 2^53.  Every
    sum the search forms is then a sum of integers below 2^53 and the
    doubles it records are exact. *)

Lemma mag_incl : forall data l l2,
  NoDup l -> incl l l2 -> mag data l <= mag data l2.
Proof.
  intros data. induction l as [|x l IH]; intros l2 Hnd Hin.
  - simpl. apply mag_nonneg.
  - inversion Hnd as [|? ? Hx Hnd']; subst.
    assert (Hx2 : In x l2) by (apply Hin; left; reflexivity).
    apply in_split in Hx2. destruct Hx2 as [a [b ->]].
    assert (Hin' : incl l (a ++ b)).
    { intros i Hi. assert (H : In i (a ++ x :: b))
        by (apply Hin; right; exact Hi).
      apply in_app_or in H. apply in_or_app.
      destruct H as [H|[H|H]]; auto. subst. contradiction. }
    specialize (IH _ Hnd' Hin').
    rewrite mag_app in *. simpl. lia.
Qed.

Lemma small_observations : forall data l,
  small_data data -> observations data l -> small_rewards data l.
Proof.
  intros data l Hs [Hnd Hlt]. unfold small_data, small_rewards in *.
  assert (H : mag data l <= mag data (seq 0 (num_rows data))).
  { apply mag_incl; [exact Hnd|]. intros i Hi. apply in_seq.
    specialize (Hlt i Hi). lia. }
  lia.
Qed.

Section RPkgExact.

Variable data : Data.
Variable split_step : Z.
Variable m : nat.
Hypothesis Hnf : (1 <= num_features data)%nat.
Hypothesis Hnr : (1 <= num_rewards data)%nat.
Hypothesis Hsmall : small_data data.

Lemma side_ok_step : forall b a part d ds,
  (d < num_rewards data)%nat -> small_rewards data part ->
  side_ok data b a part (d :: ds) ->
  side_ok data
    (fst (if dlt b (Fin (column_sum data d part))
          then (Fin (column_sum data d part), d) else (b, a)))
    (snd (if dlt b (Fin (column_sum data d part))
          then (Fin (column_sum data d part), d) else (b, a)))
    part ds.
Proof.
  intros b a part d ds Hd Hs Hok. right.
  destruct (dlt b (Fin (column_sum data d part))) eqn:E; cbn [fst snd];
    [auto|].
  destruct Hok as [[-> _]|Hok]; [|exact Hok].
  rewrite dlt_NInf_Fin in E by (apply small_column_sum; assumption).
  discriminate.
Qed.

Lemma level_zero_loop_spec : forall l ds best_reward best_action,
  observations data l ->
  (forall d, In d ds -> (d < num_rewards data)%nat) ->
  side_ok data best_reward best_action (sorted_by data 0 l) ds ->
  exists best_reward' best_action',
    RPkg.level_zero_loop data (frame_of data l) ds best_reward best_action
    = Ret (best_reward', best_action') /\
    (best_action' < num_rewards data)%nat /\
    best_reward' = Fin (column_sum data best_action' (sorted_by data 0 l)).
Proof.
  intros l. induction ds as [|d ds IH]; intros br ba Hobs Hds Hok.
  - destruct Hok as [[_ Hne]|Hok]; [contradiction|].
    do 2 eexists. split; [reflexivity | assumption].
  - assert (Hs : small_rewards data (sorted_by data 0 l)).
    { eapply small_rewards_perm;
        [symmetry; apply sorted_by_perm; exact Hobs|].
      apply small_observations; assumption. }
    assert (Hd : (d < num_rewards data)%nat) by (apply Hds; left; auto).
    cbn [RPkg.level_zero_loop]. rewrite at_frame_of by lia. cbn [bind].
    rewrite reward_sum_column_sum by assumption.
    pose proof (side_ok_step _ _ _ _ _ Hd Hs Hok) as Hok'.
    destruct (dlt br (Fin (column_sum data d (sorted_by data 0 l))));
      cbn [fst snd] in Hok'; apply IH; auto;
      intros d' Hd'; apply Hds; right; assumption.
Qed.

Lemma level_zero_learning_exact : forall l this_depth,
  observations data l ->
  exists t,
    RPkg.level_zero_learning data (frame_of data l) this_depth = Ret t /\
    exact_tree data m l t.
Proof.
  intros l td Hobs. unfold RPkg.level_zero_learning.
  destruct (level_zero_loop_spec l (seq 0 (num_rewards data)) neg_INF 0%nat)
    as [br [ba [E [Hba Hbr]]]]; auto.
  { intros d Hd. apply in_seq in Hd. lia. }
  { left. split; [reflexivity|]. destruct (num_rewards data); [lia|].
    discriminate. }
  rewrite E. cbn [bind]. eexists. split; [reflexivity|].
  apply exact_leaf; cbn; [exact Hba|]. rewrite Hbr. f_equal.
  apply column_sum_perm, sorted_by_perm. assumption.
Qed.

(** The action loop of a candidate after the [n]-th point of the set [sp]
    returns, for each side, an action with its column sum over the side. *)
Lemma side_actions_spec : forall sum_array sp n ds lb rb la ra,
  small_rewards data sp ->
  filled data sum_array sp -> (n <= length sp)%nat ->
  (forall d, In d ds -> (d < num_rewards data)%nat) ->
  side_ok data lb la (firstn n sp) ds ->
  side_ok data rb ra (skipn n sp) ds ->
  exists lb' rb' la' ra',
    RPkg.side_actions sum_array n (length sp) ds lb rb la ra
    = Ret (lb', rb', la', ra') /\
    (la' < num_rewards data)%nat /\ (ra' < num_rewards data)%nat /\
    lb' = Fin (column_sum data la' (firstn n sp)) /\
    rb' = Fin (column_sum data ra' (skipn n sp)).
Proof.
  intros sa sp n. induction ds as [|d ds IH];
    intros lb rb la ra Hs Hfill Hn Hds Hl Hr.
  - destruct Hl as [[_ Hne]|[Hla Hl]]; [contradiction|].
    destruct Hr as [[_ Hne]|[Hra Hr]]; [contradiction|].
    do 4 eexists. split; [reflexivity | auto].
  - cbn [RPkg.side_actions].
    assert (Hd : (d < num_rewards data)%nat) by (apply Hds; left; auto).
    pose proof (small_rewards_firstn data n sp Hs) as Hsl.
    pose proof (small_rewards_skipn data n sp Hs) as Hsr.
    destruct (Hfill d) as [row [Hrow Hsum]]; [exact Hd|].
    rewrite (at_Some _ _ _ _ Hrow). cbn [bind].
    rewrite (at_Some _ _ _ _ (Hsum n Hn)). cbn [bind].
    rewrite (at_Some _ _ _ _ (Hsum (length sp) (Nat.le_refl _))).
    cbn [bind]. rewrite firstn_all.
    rewrite !reward_sum_column_sum by assumption.
    assert (Hdiff : column_sum data d sp - column_sum data d (firstn n sp)
                    = column_sum data d (skipn n sp)).
    { rewrite <- (firstn_skipn n sp) at 1. rewrite column_sum_app. lia. }
    rewrite dsub_Fin;
      try (rewrite Hdiff); try (apply small_column_sum; assumption).
    pose proof (side_ok_step _ _ _ _ _ Hd Hsl Hl) as Hl'.
    pose proof (side_ok_step _ _ _ _ _ Hd Hsr Hr) as Hr'.
    destruct (dlt lb (Fin (column_sum data d (firstn n sp))));
      destruct (dlt rb (Fin (column_sum data d (skipn n sp))));
      cbn [fst snd] in Hl', Hr'; apply IH; auto;
      intros d' Hd'; apply Hds; right; assumption.
Qed.

Section OneFrame.

Variable l : list nat.
Hypothesis Hobs : observations data l.

Lemma small_sorted_by : forall p, small_rewards data (sorted_by data p l).
Proof.
  intros p. eapply small_rewards_perm;
    [symmetry; apply sorted_by_perm; exact Hobs|].
  apply small_observations; assumption.
Qed.

Lemma level_one_scan_exact : forall p it prefix sc st sum_array,
  sorted_by data p l = prefix ++ it -> it <> [] ->
  filled data sum_array (sorted_by data p l) -> l1_exact data m l st ->
  exists st',
    RPkg.level_one_scan data p (length l) split_step m sum_array it
                        (length prefix) sc (length prefix) st = Ret st' /\
    l1_exact data m l st'.
Proof.
  intros p. induction it as [|point it IH];
    intros prefix sc st sa HS Hne Hfill Hst.
  - contradiction.
  - cbn [RPkg.level_one_scan]. destruct it as [|next it].
    + exists st. split; [reflexivity | assumption].
    + assert (Hlen : length l = (length prefix + 2 + length it)%nat).
      { rewrite <- (sorted_by_length data p l Hobs), HS, length_app.
        simpl. lia. }
      assert (HS' : sorted_by data p l = (prefix ++ [point]) ++ next :: it).
      { rewrite HS, <- app_assoc. reflexivity. }
      assert (Hl' : S (length prefix) = length (prefix ++ [point])).
      { rewrite length_app. simpl. lia. }
      assert (Hnext : forall sc' st',
        l1_exact data m l st' ->
        exists st'',
          RPkg.level_one_scan data p (length l) split_step m sa (next :: it)
            (S (length prefix)) sc' (S (length prefix)) st' = Ret st'' /\
          l1_exact data m l st'').
      { intros sc' st' Hst'. rewrite Hl'. apply IH; auto. discriminate. }
      destruct (get_value data point p =? get_value data next p) eqn:E1;
        [apply Hnext; assumption|].
      destruct ((S (length prefix) <? m)%nat
                || (size_sub (length l) (S (length prefix)) <? Z.of_nat m))
        eqn:E2; [apply Hnext; assumption|].
      destruct (sc + 1 >=? split_step) eqn:E3; [|apply Hnext; assumption].
      assert (Hnr' : seq 0 (num_rewards data) <> []).
      { destruct (num_rewards data); [lia | discriminate]. }
      destruct (side_actions_spec sa (sorted_by data p l)
                  (S (length prefix)) (seq 0 (num_rewards data))
                  neg_INF neg_INF 0%nat 0%nat)
        as [lb [rb [la [ra [E4 [Hla [Hra [Hlb Hrb]]]]]]]]; auto.
      { apply small_sorted_by. }
      { rewrite sorted_by_length by assumption. lia. }
      { intros d Hd. apply in_seq in Hd. lia. }
      { left. auto. }
      { left. auto. }
      rewrite sorted_by_length in E4 by assumption.
      rewrite E4. cbn [bind]. apply Hnext.
      destruct (dlt (RPkg.best_reward st) (dadd lb rb)); [|assumption].
      right. exists (prefix ++ [point]), (next :: it). cbn.
      rewrite HS', Hl', firstn_exact in Hlb.
      rewrite HS', Hl', skipn_exact in Hrb.
      split; [|auto 6].
      apply orb_false_elim in E2. destruct E2 as [E2a E2b].
      apply Nat.ltb_ge in E2a. apply Z.ltb_ge in E2b.
      rewrite size_sub_le in E2b by lia.
      apply split_of_sorted; auto; try lia.
      apply Z.eqb_neq in E1.
      pose proof (sorted_by_adjacent data p l prefix point next it HS). lia.
Qed.

Lemma level_one_features_exact : forall ps st sum_array,
  (forall p, In p ps -> (p < num_features data)%nat) ->
  (1 <= length l)%nat ->
  sum_shape data sum_array -> l1_exact data m l st ->
  exists st' sum_array',
    RPkg.level_one_features data ps (frame_of data l) (length l)
                            split_step m sum_array st
    = Ret (st', sum_array') /\
    l1_exact data m l st' /\ sum_shape data sum_array'.
Proof.
  induction ps as [|p ps IH]; intros st sa Hps Hl Hsh Hst.
  - exists st, sa. auto.
  - cbn [RPkg.level_one_features].
    rewrite at_frame_of by (apply Hps; left; reflexivity). cbn [bind].
    destruct (fill_sum_array_filled data (sorted_by data p l) sa)
      as [sa' [E1 [Hsh' Hfill]]]; auto.
    { rewrite sorted_by_length by assumption.
      apply observations_length. assumption. }
    rewrite E1. cbn [bind].
    destruct (level_one_scan_exact p (sorted_by data p l) [] 0 st sa')
      as [st' [E2 Hst']]; auto.
    { intros E. pose proof (sorted_by_length data p l Hobs) as HL.
      rewrite E in HL. simpl in HL. lia. }
    simpl length in E2. rewrite E2. cbn [bind].
    apply IH; auto. intros q Hq. apply Hps. right; assumption.
Qed.

(** The sum of the exact rewards of the two sides of a split of [l] with
    one action is the exact reward of the action over [l]. *)
Lemma dadd_sides : forall a pre rest,
  (a < num_rewards data)%nat -> Permutation (pre ++ rest) l ->
  dadd (Fin (column_sum data a pre)) (Fin (column_sum data a rest))
  = Fin (column_sum data a l).
Proof.
  intros a pre rest Ha HP.
  assert (Hs : small_rewards data (pre ++ rest)).
  { eapply small_rewards_perm; [symmetry; exact HP|].
    apply small_observations; assumption. }
  destruct (small_rewards_app _ _ _ Hs) as [Hs1 Hs2].
  rewrite dadd_Fin; try (apply small_column_sum; assumption).
  - rewrite <- column_sum_app. f_equal. apply column_sum_perm. exact HP.
  - rewrite <- column_sum_app. apply small_column_sum; assumption.
Qed.

Lemma level_one_learning_exact : forall sum_array this_depth,
  (1 <= length l)%nat -> sum_shape data sum_array ->
  exists t sum_array',
    RPkg.level_one_learning data (frame_of data l) sum_array split_step m
                            this_depth = Ret (t, sum_array') /\
    sum_shape data sum_array' /\ exact_tree data m l t.
Proof.
  intros sa td Hl Hsh. unfold RPkg.level_one_learning.
  rewrite at_frame_of by lia. cbn [bind].
  rewrite sorted_by_length by assumption.
  destruct (level_one_features_exact (seq 0 (num_features data))
              (RPkg.mkL1 0 0 0 0 neg_INF neg_INF neg_INF) sa)
    as [st [sa' [E [Hst Hsh']]]]; auto.
  { intros p Hp. apply in_seq in Hp. lia. }
  { left. reflexivity. }
  rewrite E. cbn [bind].
  destruct (dlt neg_INF (RPkg.best_reward st)) eqn:E1.
  - destruct Hst as [Hst|[pre [rest [Hsplit [Hla [Hra [Hgl [Hgr Hbr]]]]]]]].
    { rewrite Hst in E1. discriminate. }
    destruct (RPkg.best_action_left st =? RPkg.best_action_right st)%nat
      eqn:E2.
    + do 2 eexists. split; [reflexivity|]. split; [assumption|].
      apply exact_leaf; cbn; [exact Hla|]. rewrite Hbr, Hgl, Hgr.
      apply Nat.eqb_eq in E2. rewrite <- E2.
      apply dadd_sides; [exact Hla | apply Hsplit].
    + do 2 eexists. split; [reflexivity|]. split; [assumption|].
      eapply exact_split;
        [exact Hsplit | apply exact_leaf; [exact Hla | exact Hgl]
         | apply exact_leaf; [exact Hra | exact Hgr]
         | simpl; exact E2 | exact Hbr].
  - destruct (level_zero_learning_exact l (td + 1) Hobs) as [t [E3 Hb]].
    rewrite E3. cbn [bind].
    do 2 eexists. split; [reflexivity|]. split; assumption.
Qed.

End OneFrame.

(** On a frame of at most [fuel] observations the search returns a tree
    whose rewards are exact. *)
Lemma find_best_split_exact : forall fuel l level sum_array this_depth,
  observations data l -> (1 <= length l <= fuel)%nat ->
  sum_shape data sum_array ->
  exists t sum_array',
    RPkg.find_best_split data fuel (frame_of data l) level split_step m
                         sum_array this_depth = Ret (t, sum_array') /\
    sum_shape data sum_array' /\ exact_tree data m l t.
Proof.
  induction fuel as [|fuel IH]; intros l level sa td Hobs Hl Hsh; [lia|].
  cbn [RPkg.find_best_split].
  destruct (level =? 0) eqn:E0.
  { destruct (level_zero_learning_exact l (td + 1) Hobs) as [t [E Hb]].
    rewrite E. cbn [bind]. do 2 eexists.
    split; [reflexivity|]. split; assumption. }
  destruct (level =? 1) eqn:E1.
  { apply level_one_learning_exact; auto. lia. }
  rewrite at_frame_of by lia. cbn [bind].
  rewrite sorted_by_length by assumption.
  destruct (feature_loop_with data split_step m (exact_tree data m)
              (fun sets sa0 =>
                 RPkg.find_best_split data fuel sets (level - 1) split_step
                                      m sa0 (td + 1))
              fuel
              (fun l' sa' Ho Hl' Hs' => IH l' (level - 1) sa' (td + 1)
                                           Ho Hl' Hs')
              l Hobs ltac:(lia) (seq 0 (num_features data)) None sa)
    as [best [sa' [E [Hbest Hsh']]]]; auto.
  { intros p Hp. apply in_seq in Hp. lia. }
  { lia. }
  { exact I. }
  rewrite E. cbn [bind].
  destruct best as [[[[bl br] bp] bv]|].
  - destruct Hbest as [Hbp [pre [rest [Hsplit [Hbl Hbr]]]]].
    destruct (RPkg.is_leaf bl && RPkg.is_leaf br
              && (RPkg.action_id (RPkg.node_data bl)
                  =? RPkg.action_id (RPkg.node_data br))%nat) eqn:E2.
    + do 2 eexists. split; [reflexivity|]. split; [assumption|].
      apply andb_prop in E2. destruct E2 as [E2 Eact].
      apply andb_prop in E2. destruct E2 as [Ll Lr].
      apply Nat.eqb_eq in Eact.
      destruct bl as [ndl|]; [|discriminate].
      destruct br as [ndr|]; [|discriminate].
      inversion Hbl as [? ? Hal Hrl|]; subst.
      inversion Hbr as [? ? Har Hrr|]; subst.
      apply exact_leaf; cbn in Eact |- *; [exact Hal|].
      rewrite Hrl, Hrr, <- Eact.
      apply dadd_sides; [exact Hobs | exact Hal | apply Hsplit].
    + do 2 eexists. split; [reflexivity|]. split; [assumption|].
      eapply exact_split; eauto.
  - destruct (level_zero_learning_exact l (td + 1) Hobs) as [t [E3 Hb]].
    rewrite E3. cbn [bind]. do 2 eexists.
    split; [reflexivity|]. split; assumption.
Qed.

End RPkgExact.

Lemma tree_search_exact : forall data fuel depth split_step min_node_size,
  valid_data data -> small_data data -> (num_rows data <= fuel)%nat ->
  exists t,
    RPkg.tree_search data fuel depth split_step min_node_size = Ret t /\
    exact_tree data min_node_size (seq 0 (num_rows data)) t.
Proof.
  intros data fuel depth ss mns [HN [Hp [Hd _]]] Hs Hfuel.
  unfold RPkg.tree_search. rewrite frame_of_root.
  destruct (find_best_split_exact data ss mns Hp Hd Hs fuel
              (seq 0 (num_rows data)) depth (new_sum_array data) 0)
    as [t [sa [E [_ Hb]]]].
  - apply observations_root.
  - rewrite length_seq. lia.
  - apply new_sum_array_shape.
  - rewrite E. exists t. split; [reflexivity | assumption].
Qed.

(** ** The reward of the returned tree and the reward it collects *)

Lemma routed_reward_leaf : forall data nd obs,
  routed_reward data (RPkg.Leaf nd) obs
  = column_sum data (RPkg.action_id nd) obs.
Proof. reflexivity. Qed.

Lemma routed_reward_split : forall data nd tl tr obs,
  routed_reward data (RPkg.Internal nd tl tr) obs
  = routed_reward data tl (goes_left data nd obs)
    + routed_reward data tr (goes_right data nd obs).
Proof.
  intros data nd tl tr.
  unfold goes_left, goes_right, left_of, right_of, routed_reward.
  induction obs as [|i obs IH]; [reflexivity|].
  simpl in *.
  destruct (get_value data i (RPkg.index nd) <=? RPkg.value nd);
    simpl; rewrite IH; lia.
Qed.

Lemma mag_sides : forall data q v obs,
  mag data (left_of data q v obs) + mag data (right_of data q v obs)
  = mag data obs.
Proof.
  intros data q v. unfold left_of, right_of.
  induction obs as [|i obs IH]; [reflexivity|].
  simpl. destruct (get_value data i q <=? v); simpl; lia.
Qed.

(** Routing observations through a tree whose leaves carry actions of the
    data collects at most the magnitude of the observations. *)
Lemma routed_reward_mag : forall data m l t,
  exact_tree data m l t ->
  forall obs, Z.abs (routed_reward data t obs) <= mag data obs.
Proof.
  induction 1 as [l nd Ha Hrew
                 |l pre rest nd tl tr Hsplit Hl IHl Hr IHr Hp Hrew];
    intros obs.
  - rewrite routed_reward_leaf. apply column_sum_mag. exact Ha.
  - rewrite routed_reward_split.
    specialize (IHl (goes_left data nd obs)).
    specialize (IHr (goes_right data nd obs)).
    pose proof (mag_sides data (RPkg.index nd) (RPkg.value nd) obs) as HM.
    unfold goes_left, goes_right in *. lia.
Qed.

(** With small rewards, the reward a tree records at its root is the
    reward collected by routing its observations through it. *)
Lemma exact_reward : forall data m l t,
  exact_tree data m l t -> small_rewards data l ->
  forall obs, Permutation obs l ->
    RPkg.reward (RPkg.node_data t) = Fin (routed_reward data t obs).
Proof.
  induction 1 as [l nd Ha Hrew
                 |l pre rest nd tl tr Hsplit Hl IHl Hr IHr Hp Hrew];
    intros Hs obs Hobs.
  - cbn. rewrite Hrew, routed_reward_leaf. f_equal.
    apply column_sum_perm. symmetry. exact Hobs.
  - destruct (split_of_routes _ _ _ _ _ _ _ Hsplit Hobs) as [HL HR].
    assert (Hs' : small_rewards data (pre ++ rest)).
    { eapply small_rewards_perm; [symmetry; apply Hsplit | exact Hs]. }
    destruct (small_rewards_app _ _ _ Hs') as [Hs1 Hs2].
    assert (Hso : small_rewards data obs).
    { eapply small_rewards_perm; [symmetry; exact Hobs | exact Hs]. }
    cbn. rewrite Hrew, (IHl Hs1 _ HL), (IHr Hs2 _ HR), routed_reward_split.
    pose proof (routed_reward_mag _ _ _ _ Hl (goes_left data nd obs)) as B1.
    pose proof (routed_reward_mag _ _ _ _ Hr (goes_right data nd obs)) as B2.
    pose proof (mag_sides data (RPkg.index nd) (RPkg.value nd) obs) as HM.
    pose proof (mag_nonneg data (goes_left data nd obs)) as N1.
    pose proof (mag_nonneg data (goes_right data nd obs)) as N2.
    unfold small_rewards in Hso. unfold goes_left, goes_right in *.
    apply dadd_Fin; unfold small; lia.
Qed.

(** With [exact_search = true] and small rewards the property of C4
    holds: on every valid input the exact search of the r-package returns
    a tree whose root reward is the sum of [Y[i, predict(i)]] over all
    rows. *)
Lemma exact_search_reward_matches :
  forall data fuel depth split_step min_node_size,
  valid_data data -> small_data data -> (num_rows data <= fuel)%nat ->
  exists t,
    RPkg.tree_search data fuel depth split_step min_node_size = Ret t /\
    RPkg.reward (RPkg.node_data t)
    = Fin (routed_reward data t (seq 0 (num_rows data))).
Proof.
  intros data fuel depth ss mns Hv Hs Hfuel.
  destruct (tree_search_exact data fuel depth ss mns Hv Hs Hfuel)
    as [t [E Hb]].
  exists t. split; [exact E|].
  eapply exact_reward; eauto.
Qed.

(** The loop of [level_zero_learning] over the actions [a, a + 1, ...]
    keeps the first action of maximal sum among those tried. *)
Lemma level_zero_loop_argmax : forall data l n a best_reward best_action,
  (1 <= num_features data)%nat ->
  small_rewards data (sorted_by data 0 l) ->
  (a + n <= num_rewards data)%nat ->
  (a = 0%nat /\ best_reward = NInf) \/
  ((best_action < a)%nat /\
   best_reward = Fin (column_sum data best_action (sorted_by data 0 l)) /\
   (forall d, (d < a)%nat ->
      column_sum data d (sorted_by data 0 l)
      <= column_sum data best_action (sorted_by data 0 l)) /\
   (forall d, (d < best_action)%nat ->
      column_sum data d (sorted_by data 0 l)
      < column_sum data best_action (sorted_by data 0 l))) ->
  (1 <= a + n)%nat ->
  exists best_action',
    RPkg.level_zero_loop data (frame_of data l) (seq a n)
                         best_reward best_action
    = Ret (Fin (column_sum data best_action' (sorted_by data 0 l)),
           best_action') /\
    (best_action' < a + n)%nat /\
    (forall d, (d < a + n)%nat ->
       column_sum data d (sorted_by data 0 l)
       <= column_sum data best_action' (sorted_by data 0 l)) /\
    (forall d, (d < best_action')%nat ->
       column_sum data d (sorted_by data 0 l)
       < column_sum data best_action' (sorted_by data 0 l)).
Proof.
  intros data l. induction n as [|n IH]; intros a br ba Hnf Hs Hnr Hinv Han.
  - destruct Hinv as [[-> _]|[Hba [-> [Hmax Hfirst]]]]; [lia|].
    exists ba. rewrite Nat.add_0_r. auto.
  - assert (Hsm : forall d, (d < num_rewards data)%nat ->
                    small (column_sum data d (sorted_by data 0 l)))
      by (intros d Hd; apply small_column_sum; assumption).
    cbn [seq RPkg.level_zero_loop]. rewrite at_frame_of by lia.
    cbn [bind]. rewrite reward_sum_column_sum by (auto; lia).
    replace (a + S n)%nat with (S a + n)%nat by lia.
    destruct (dlt br (Fin (column_sum data a (sorted_by data 0 l)))) eqn:E.
    + apply IH; [assumption | assumption | lia | | lia]. right.
      split; [lia|]. split; [reflexivity|].
      destruct Hinv as [[-> _]|[Hba [-> [Hmax Hfirst]]]].
      * split; intros d Hd; [|lia].
        replace d with 0%nat by lia. lia.
      * rewrite dlt_Fin in E by (apply Hsm; lia). apply Z.ltb_lt in E.
        split; intros d Hd.
        -- destruct (Nat.eq_dec d a) as [->|]; [lia|].
           specialize (Hmax d ltac:(lia)). lia.
        -- specialize (Hmax d Hd). lia.
    + apply IH; [assumption | assumption | lia | | lia]. right.
      destruct Hinv as [[_ ->]|[Hba [-> [Hmax Hfirst]]]].
      { rewrite dlt_NInf_Fin in E by (apply Hsm; lia). discriminate. }
      rewrite dlt_Fin in E by (apply Hsm; lia). apply Z.ltb_ge in E.
      split; [lia|]. split; [reflexivity|]. split; [|assumption].
      intros d Hd. destruct (Nat.eq_dec d a) as [->|]; [lia|].
      apply Hmax. lia.
Qed.

(** At [depth = 0] and with small rewards the r-package search does what
    C6 says: on every valid input it returns a single leaf whose action
    is the smallest index of maximal column sum and whose reward is that
    column sum. *)
Lemma rpkg_depth_zero_leaf : forall data fuel split_step min_node_size,
  valid_data data -> small_data data ->
  exists nd,
    RPkg.tree_search data (S fuel) 0 split_step min_node_size
    = Ret (RPkg.Leaf nd) /\
    (RPkg.action_id nd < num_rewards data)%nat /\
    RPkg.reward nd
    = Fin (column_sum data (RPkg.action_id nd) (seq 0 (num_rows data))) /\
    (forall a, (a < num_rewards data)%nat ->
       column_sum data a (seq 0 (num_rows data))
       <= column_sum data (RPkg.action_id nd) (seq 0 (num_rows data))) /\
    (forall a, (a < RPkg.action_id nd)%nat ->
       column_sum data a (seq 0 (num_rows data))
       < column_sum data (RPkg.action_id nd) (seq 0 (num_rows data))).
Proof.
  intros data fuel ss mns [HN [Hp [Hd _]]] Hs.
  unfold RPkg.tree_search. rewrite frame_of_root.
  cbn [RPkg.find_best_split]. cbn [Z.eqb].
  unfold RPkg.level_zero_learning.
  destruct (level_zero_loop_argmax data (seq 0 (num_rows data))
              (num_rewards data) 0 neg_INF 0%nat Hp)
    as [ba [E [Hlt [Hmax Hfirst]]]]; [| lia | left; auto | lia |].
  { eapply small_rewards_perm;
      [symmetry; apply sorted_by_perm, observations_root | exact Hs]. }
  rewrite E. cbn [bind].
  assert (HP : forall a,
    column_sum data a (sorted_by data 0 (seq 0 (num_rows data)))
    = column_sum data a (seq 0 (num_rows data))).
  { intros a. apply column_sum_perm, sorted_by_perm, observations_root. }
  eexists. split; [reflexivity|]. cbn.
  split; [exact Hlt|]. split; [f_equal; apply HP|].
  split; intros a Ha; rewrite <- !HP; auto.
Qed.

(** ** Optimality of the exact search *)

Section PolicyFacts.

Variable data : Data.

Lemma policy_reward_perm : forall t obs obs',
  Permutation obs obs' ->
  policy_reward data t obs = policy_reward data t obs'.
Proof.
  induction t as [a|q v tl IHl tr IHr]; intros obs obs' HP; simpl.
  - apply column_sum_perm. exact HP.
  - rewrite (IHl _ (left_of data q v obs')), (IHr _ (right_of data q v obs'));
      [reflexivity | |]; apply Permutation_filter; exact HP.
Qed.

Lemma policy_reward_nil : forall t, policy_reward data t [] = 0.
Proof.
  induction t as [a|q v tl IHl tr IHr]; simpl; [reflexivity|].
  unfold left_of, right_of. simpl. rewrite IHl, IHr. reflexivity.
Qed.

Lemma bounds_perm : forall k l l' v,
  Permutation l l' -> bounds data k l v -> bounds data k l' v.
Proof.
  intros k l l' v HP Hb t Hok Hd.
  rewrite <- (policy_reward_perm t l l' HP). apply Hb; assumption.
Qed.

Lemma policy_reward_to_policy : forall t obs,
  policy_reward data (to_policy t) obs = routed_reward data t obs.
Proof.
  induction t as [nd|nd tl IHl tr IHr]; intros obs.
  - reflexivity.
  - simpl. rewrite routed_reward_split, IHl, IHr. reflexivity.
Qed.

Lemma left_of_nil : forall q v l,
  left_of data q v l = [] -> right_of data q v l = l.
Proof.
  intros q v l H. unfold left_of, right_of in *. apply filter_all.
  intros i Hi.
  destruct (get_value data i q <=? v) eqn:E; [|reflexivity].
  assert (In i (filter (fun i => get_value data i q <=? v) l))
    by (apply filter_In; auto).
  rewrite H in *. contradiction.
Qed.

Lemma right_of_nil : forall q v l,
  right_of data q v l = [] -> left_of data q v l = l.
Proof.
  intros q v l H. unfold left_of, right_of in *. apply filter_all.
  intros i Hi.
  destruct (get_value data i q <=? v) eqn:E; [reflexivity|].
  assert (In i (filter (fun i => negb (get_value data i q <=? v)) l))
    by (apply filter_In; rewrite E; auto).
  rewrite H in *. contradiction.
Qed.

(** A reward that dominates every leaf and every pair of subtrees under a
    separating split dominates every tree. *)
Lemma bounds_intro : forall k l v,
  (forall a, (a < num_rewards data)%nat -> column_sum data a l <= v) ->
  (forall q val, (q < num_features data)%nat -> (1 <= k)%nat ->
     left_of data q val l <> [] -> right_of data q val l <> [] ->
     pair_bound data (k - 1) l q val v) ->
  bounds data k l v.
Proof.
  intros k l v Hleaf Hpair t. induction t as [a|q val tl IHl tr IHr];
    intros Hok Hd.
  - apply Hleaf. exact Hok.
  - destruct Hok as [Hq [Hokl Hokr]]. simpl in Hd.
    assert (Hdl : (policy_depth tl <= k - 1)%nat) by lia.
    assert (Hdr : (policy_depth tr <= k - 1)%nat) by lia.
    simpl.
    destruct (left_of data q val l) as [|i L] eqn:EL.
    + rewrite (left_of_nil _ _ _ EL), policy_reward_nil.
      simpl. apply IHr; auto. lia.
    + destruct (right_of data q val l) as [|j R] eqn:ER.
      * rewrite <- EL, (right_of_nil _ _ _ ER), policy_reward_nil.
        rewrite Z.add_0_r. apply IHl; auto. lia.
      * rewrite <- EL, <- ER.
        apply Hpair; auto; try lia; congruence.
Qed.

Lemma policy_reward_mag : forall t obs,
  policy_ok data t -> Z.abs (policy_reward data t obs) <= mag data obs.
Proof.
  induction t as [a|q v tl IHl tr IHr]; intros obs Hok; simpl.
  - apply column_sum_mag. exact Hok.
  - destruct Hok as [_ [Hl Hr]].
    specialize (IHl (left_of data q v obs) Hl).
    specialize (IHr (right_of data q v obs) Hr).
    pose proof (mag_sides data q v obs). lia.
Qed.

Lemma leaf_bound_settled : forall l b, leaf_bound data l b -> settled b.
Proof.
  intros l b [H|[v [H [Hs _]]]]; [left; exact H | right; eauto].
Qed.

Lemma dle_refl : forall b, settled b -> dle b b.
Proof.
  intros b [->|[v [-> Hs]]]; [left; reflexivity|].
  right. exists v, v. splits; auto. lia.
Qed.

Lemma dle_trans : forall a b c, dle a b -> dle b c -> dle a c.
Proof.
  intros a b c [->|[va [vb [-> [-> [Ha [Hb Hab]]]]]]] Hbc;
    [left; reflexivity|].
  destruct Hbc as [E|[vb' [vc [E [-> [Hb' [Hc Hbc]]]]]]].
  - exfalso. exact (Fin_not_NInf vb Hb E).
  - apply Fin_inj in E; auto. subst vb'.
    right. exists va, vc. splits; auto. lia.
Qed.

Lemma dlt_dle : forall a v,
  settled a -> small v -> dlt a (Fin v) = true -> dle a (Fin v).
Proof.
  intros a v [->|[va [-> Ha]]] Hv E; [left; reflexivity|].
  rewrite dlt_Fin in E by assumption. apply Z.ltb_lt in E.
  right. exists va, v. splits; auto. lia.
Qed.

Lemma dlt_false_Fin : forall b v,
  settled b -> small v -> dlt b (Fin v) = false ->
  exists v', b = Fin v' /\ small v' /\ v <= v'.
Proof.
  intros b v [->|[vb [-> Hb]]] Hv E.
  - rewrite dlt_NInf_Fin in E by assumption. discriminate.
  - rewrite dlt_Fin in E by assumption. apply Z.ltb_ge in E. eauto.
Qed.

Lemma covered_mono : forall k l b b' q frontier,
  dle b b' -> covered data k l b q frontier ->
  covered data k l b' q frontier.
Proof.
  intros k l b b' q fr Hle Hc val Hval HL HR.
  destruct (Hc val Hval HL HR) as [v [-> [Hs Hp]]].
  destruct Hle as [E|[v0 [v' [E [-> [Hs0 [Hs' Hv]]]]]]].
  - exfalso. exact (Fin_not_NInf v Hs E).
  - apply Fin_inj in E; auto. subst v0.
    exists v'. split; [reflexivity|]. split; [exact Hs'|].
    intros tl tr H1 H2 H3 H4. specialize (Hp tl tr H1 H2 H3 H4). lia.
Qed.

End PolicyFacts.

Section Covering.

Variable data : Data.
Variable k : nat.
Variable l : list nat.
Hypothesis Hobs : observations data l.

Lemma sorted_by_In_l : forall q i, In i l -> In i (sorted_by data q l).
Proof.
  intros q i Hi. apply sorted_by_In. split; [exact Hi | apply Hobs, Hi].
Qed.

Lemma split_of_between : forall q pre x y rest val,
  sorted_by data q l = pre ++ x :: y :: rest ->
  get_value data x q <= val < get_value data y q ->
  split_of data 1 l q val (pre ++ [x]) (y :: rest).
Proof.
  intros q pre x y rest val HS Hval.
  pose proof (sorted_by_sorted data q l) as Hs. rewrite HS in Hs.
  apply StronglySorted_app_inv in Hs. destruct Hs as [_ [Hs Hpre]].
  apply StronglySorted_inv in Hs. destruct Hs as [Hs _].
  apply StronglySorted_inv in Hs. destruct Hs as [_ Hy].
  rewrite Forall_forall in Hy.
  unfold split_of. split; [|split; [|split; [|split]]].
  - rewrite <- app_assoc. simpl. rewrite <- HS.
    apply sorted_by_perm. exact Hobs.
  - intros i Hi. apply in_app_or in Hi. destruct Hi as [Hi|[->|[]]].
    + assert (H : before data q i x)
        by (apply Hpre; [exact Hi | left; reflexivity]).
      apply before_value in H. lia.
    + lia.
  - intros i [->|Hi]; [lia|].
    pose proof (before_value data q y i (Hy i Hi)). lia.
  - rewrite length_app. simpl. lia.
  - simpl. lia.
Qed.

Lemma covered_start : forall b q x rest,
  sorted_by data q l = x :: rest ->
  covered data k l b q (Some (get_value data x q)).
Proof.
  intros b q x rest HS val Hval HL HR. exfalso. apply HL.
  unfold left_of. apply filter_none. intros i Hi.
  apply Z.leb_gt.
  pose proof (sorted_by_sorted data q l) as Hs. rewrite HS in Hs.
  apply StronglySorted_inv in Hs. destruct Hs as [_ Hx].
  rewrite Forall_forall in Hx.
  pose proof (sorted_by_In_l q i Hi) as Hi'. rewrite HS in Hi'.
  destruct Hi' as [->|Hi']; [lia|].
  pose proof (before_value data q x i (Hx i Hi')). lia.
Qed.

Lemma covered_finish : forall b q pre x,
  sorted_by data q l = pre ++ [x] ->
  covered data k l b q (Some (get_value data x q)) ->
  covered data k l b q None.
Proof.
  intros b q pre x HS Hc val _ HL HR.
  destruct (Z.lt_ge_cases val (get_value data x q)) as [Hlt|Hge];
    [apply Hc; assumption|].
  exfalso. apply HR. unfold right_of. apply filter_none. intros i Hi.
  apply negb_false_iff, Z.leb_le.
  pose proof (sorted_by_sorted data q l) as Hs. rewrite HS in Hs.
  apply StronglySorted_app_inv in Hs. destruct Hs as [_ [_ Hpre]].
  pose proof (sorted_by_In_l q i Hi) as Hi'. rewrite HS in Hi'.
  apply in_app_or in Hi'. destruct Hi' as [Hi'|[->|[]]]; [|lia].
  assert (H : before data q i x)
    by (apply Hpre; [exact Hi' | left; reflexivity]).
  apply before_value in H. lia.
Qed.

Lemma covered_skip : forall b q x y,
  get_value data y q <= get_value data x q ->
  covered data k l b q (Some (get_value data x q)) ->
  covered data k l b q (Some (get_value data y q)).
Proof.
  intros b q x y Hxy Hc val Hval HL HR. apply Hc; auto. simpl in *. lia.
Qed.

(** A candidate whose two sides were searched to optimality extends the
    covered thresholds up to the next point. *)
Lemma covered_step : forall b b' q pre x y rest vl vr v',
  sorted_by data q l = pre ++ x :: y :: rest ->
  covered data k l b q (Some (get_value data x q)) ->
  dle b b' -> b' = Fin v' -> small v' ->
  bounds data k (pre ++ [x]) vl -> bounds data k (y :: rest) vr ->
  vl + vr <= v' ->
  covered data k l b' q (Some (get_value data y q)).
Proof.
  intros b b' q pre x y rest vl vr v' HS Hc Hle Hb' Hs' Hbl Hbr Hv
         val Hval HL HR.
  destruct (Z.lt_ge_cases val (get_value data x q)) as [Hlt|Hge].
  - apply (covered_mono data k l b b' q _ Hle Hc); assumption.
  - exists v'. split; [exact Hb'|]. split; [exact Hs'|].
    assert (Hsplit : split_of data 1 l q val (pre ++ [x]) (y :: rest)).
    { apply split_of_between; auto. }
    destruct (split_of_sides _ _ _ _ _ _ _ l Hsplit (Permutation_refl l))
      as [HPl HPr].
    intros tl tr H1 H2 H3 H4.
    rewrite (policy_reward_perm data tl _ _ HPl).
    rewrite (policy_reward_perm data tr _ _ HPr).
    specialize (Hbl tl H1 H3). specialize (Hbr tr H2 H4). lia.
Qed.

Lemma leaf_bound_candidate : forall pre rest vl vr v',
  Permutation (pre ++ rest) l -> small v' ->
  bounds data k pre vl -> bounds data k rest vr -> vl + vr <= v' ->
  leaf_bound data l (Fin v').
Proof.
  intros pre rest vl vr v' HP Hs' Hbl Hbr Hv. right. exists v'.
  split; [reflexivity|]. split; [exact Hs'|]. intros a Ha.
  rewrite <- (column_sum_perm data a _ _ HP), column_sum_app.
  specialize (Hbl (PLeaf a) Ha (Nat.le_0_l _)).
  specialize (Hbr (PLeaf a) Ha (Nat.le_0_l _)).
  simpl in Hbl, Hbr. lia.
Qed.

(** When no threshold was ever found to separate the observations, the
    best leaf is the best tree of any depth. *)
Lemma bounds_no_split : forall v,
  (forall a, (a < num_rewards data)%nat -> column_sum data a l <= v) ->
  (forall q, (q < num_features data)%nat ->
     covered data (k - 1) l NInf q None) ->
  bounds data k l v.
Proof.
  intros v Hleaf Hc. apply bounds_intro; [exact Hleaf|].
  intros q val Hq Hk HL HR.
  destruct (Hc q Hq val I HL HR) as [v' [E [Hs' _]]].
  exfalso. symmetry in E. exact (Fin_not_NInf v' Hs' E).
Qed.

Lemma bounds_covered : forall v,
  small v -> leaf_bound data l (Fin v) ->
  (forall q, (q < num_features data)%nat ->
     covered data (k - 1) l (Fin v) q None) ->
  bounds data k l v.
Proof.
  intros v Hs Hleaf Hc. apply bounds_intro.
  - destruct Hleaf as [E|[v0 [E [Hs0 Hmax]]]].
    + exfalso. exact (Fin_not_NInf v Hs E).
    + apply Fin_inj in E; auto. subst v0. exact Hmax.
  - intros q val Hq Hk HL HR.
    destruct (Hc q Hq val I HL HR) as [v' [E [Hs' Hp]]].
    apply Fin_inj in E; auto. subst v'. exact Hp.
Qed.

End Covering.

(** Two integers bounded by the magnitudes of the two sides of a split of
    [l] are small, and so is their sum. *)
Lemma small_pair : forall data l pre rest vl vr,
  small_data data ->
  observations data l -> Permutation (pre ++ rest) l ->
  Z.abs vl <= mag data pre -> Z.abs vr <= mag data rest ->
  small vl /\ small vr /\ small (vl + vr) /\
  Z.abs (vl + vr) <= mag data l.
Proof.
  intros data l pre rest vl vr Hsmall Hobs HP Hl Hr.
  pose proof (small_observations data l Hsmall Hobs) as Hs.
  unfold small_rewards in Hs.
  rewrite <- (mag_perm data _ _ HP), mag_app in *.
  pose proof (mag_nonneg data pre). pose proof (mag_nonneg data rest).
  unfold small. lia.
Qed.

Section RPkgOptimalLevelOne.

Variable data : Data.
Hypothesis Hnf : (1 <= num_features data)%nat.
Hypothesis Hnr : (1 <= num_rewards data)%nat.
Hypothesis Hsmall : small_data data.

Lemma bounds_zero : forall part v,
  (forall a, (a < num_rewards data)%nat -> column_sum data a part <= v) ->
  bounds data 0 part v.
Proof.
  intros part v H [a|q val tl tr] Hok Hd; simpl in *; [auto | lia].
Qed.

Lemma side_max_step : forall b act part a,
  (a < num_rewards data)%nat -> small_rewards data part ->
  side_max data b act part a ->
  side_max data
    (fst (if dlt b (Fin (column_sum data a part))
          then (Fin (column_sum data a part), a) else (b, act)))
    (snd (if dlt b (Fin (column_sum data a part))
          then (Fin (column_sum data a part), a) else (b, act)))
    part (S a).
Proof.
  intros b act part a Ha Hs H. right.
  assert (Hsm : forall d, (d < num_rewards data)%nat ->
                  small (column_sum data d part))
    by (intros d Hd; apply small_column_sum; assumption).
  destruct (dlt b (Fin (column_sum data a part))) eqn:E; cbn [fst snd].
  - split; [lia|]. split; [reflexivity|]. intros d Hd.
    destruct H as [[-> _]|[Hact [-> Hmax]]].
    + replace d with 0%nat by lia. lia.
    + rewrite dlt_Fin in E by (apply Hsm; lia). apply Z.ltb_lt in E.
      destruct (Nat.eq_dec d a) as [->|]; [lia|].
      specialize (Hmax d ltac:(lia)). lia.
  - destruct H as [[_ ->]|[Hact [-> Hmax]]].
    { rewrite dlt_NInf_Fin in E by (apply Hsm; lia). discriminate. }
    rewrite dlt_Fin in E by (apply Hsm; lia). apply Z.ltb_ge in E.
    split; [lia|]. split; [reflexivity|]. intros d Hd.
    destruct (Nat.eq_dec d a) as [->|]; [lia|]. apply Hmax. lia.
Qed.

(** The action loop of a candidate returns, for each side, an action of
    maximal column sum over the side. *)
Lemma side_actions_max : forall sum_array sp n nd a lb rb la ra,
  small_rewards data sp ->
  filled data sum_array sp -> (n <= length sp)%nat ->
  (a + nd <= num_rewards data)%nat -> (1 <= a + nd)%nat ->
  side_max data lb la (firstn n sp) a ->
  side_max data rb ra (skipn n sp) a ->
  exists la' ra',
    RPkg.side_actions sum_array n (length sp) (seq a nd) lb rb la ra
    = Ret (Fin (column_sum data la' (firstn n sp)),
           Fin (column_sum data ra' (skipn n sp)), la', ra') /\
    (la' < a + nd)%nat /\ (ra' < a + nd)%nat /\
    (forall d, (d < a + nd)%nat ->
       column_sum data d (firstn n sp)
       <= column_sum data la' (firstn n sp)) /\
    (forall d, (d < a + nd)%nat ->
       column_sum data d (skipn n sp)
       <= column_sum data ra' (skipn n sp)).
Proof.
  intros sa sp n. induction nd as [|nd IH];
    intros a lb rb la ra Hs Hfill Hn Ha Ha1 Hl Hr.
  - rewrite Nat.add_0_r in *.
    destruct Hl as [[-> _]|[Hla [-> Hlmax]]]; [lia|].
    destruct Hr as [[-> _]|[Hra [-> Hrmax]]]; [lia|].
    exists la, ra. auto.
  - cbn [seq RPkg.side_actions].
    assert (Hd : (a < num_rewards data)%nat) by lia.
    pose proof (small_rewards_firstn data n sp Hs) as Hsl.
    pose proof (small_rewards_skipn data n sp Hs) as Hsr.
    destruct (Hfill a) as [row [Hrow Hsum]]; [lia|].
    rewrite (at_Some _ _ _ _ Hrow). cbn [bind].
    rewrite (at_Some _ _ _ _ (Hsum n Hn)). cbn [bind].
    rewrite (at_Some _ _ _ _ (Hsum (length sp) (Nat.le_refl _))).
    cbn [bind]. rewrite firstn_all.
    rewrite !reward_sum_column_sum by assumption.
    assert (Hdiff : column_sum data a sp - column_sum data a (firstn n sp)
                    = column_sum data a (skipn n sp)).
    { rewrite <- (firstn_skipn n sp) at 1. rewrite column_sum_app. lia. }
    rewrite dsub_Fin;
      try (rewrite Hdiff); try (apply small_column_sum; assumption).
    pose proof (side_max_step _ _ _ _ Hd Hsl Hl) as Hl'.
    pose proof (side_max_step _ _ _ _ Hd Hsr Hr) as Hr'.
    replace (a + S nd)%nat with (S a + nd)%nat by lia.
    destruct (dlt lb (Fin (column_sum data a (firstn n sp))));
      destruct (dlt rb (Fin (column_sum data a (skipn n sp))));
      cbn [fst snd] in Hl', Hr'; apply IH; auto; lia.
Qed.

Lemma level_zero_learning_opt : forall l this_depth,
  observations data l ->
  exists nd,
    RPkg.level_zero_learning data (frame_of data l) this_depth
    = Ret (RPkg.Leaf nd) /\
    (RPkg.action_id nd < num_rewards data)%nat /\
    RPkg.reward nd = Fin (column_sum data (RPkg.action_id nd) l) /\
    (forall a, (a < num_rewards data)%nat ->
       column_sum data a l <= column_sum data (RPkg.action_id nd) l).
Proof.
  intros l td Hobs. unfold RPkg.level_zero_learning.
  destruct (level_zero_loop_argmax data l (num_rewards data) 0 neg_INF
                                   0%nat Hnf)
    as [ba [E [Hlt [Hmax _]]]]; [| lia | left; auto | lia |].
  { eapply small_rewards_perm;
      [symmetry; apply sorted_by_perm; exact Hobs|].
    apply small_observations; assumption. }
  rewrite E. cbn [bind].
  assert (HP : forall a,
    column_sum data a (sorted_by data 0 l) = column_sum data a l).
  { intros a. apply column_sum_perm, sorted_by_perm. assumption. }
  eexists. split; [reflexivity|]. cbn.
  split; [exact Hlt|]. split; [f_equal; apply HP|].
  intros a Ha. rewrite <- !HP. auto.
Qed.

Section OneFrame.

Variable l : list nat.
Hypothesis Hobs : observations data l.

Lemma level_one_scan_opt : forall p it prefix sc st sum_array,
  (p < num_features data)%nat ->
  sorted_by data p l = prefix ++ it -> it <> [] -> 0 <= sc ->
  filled data sum_array (sorted_by data p l) ->
  l1_names data st -> leaf_bound data l (RPkg.best_reward st) ->
  covered data 0 l (RPkg.best_reward st) p
          (Some (get_value data (hd 0%nat it) p)) ->
  exists st',
    RPkg.level_one_scan data p (length l) 1 1 sum_array it
                        (length prefix) sc (length prefix) st = Ret st' /\
    l1_names data st' /\ leaf_bound data l (RPkg.best_reward st') /\
    dle (RPkg.best_reward st) (RPkg.best_reward st') /\
    covered data 0 l (RPkg.best_reward st') p None.
Proof.
  intros p. induction it as [|point it IH];
    intros prefix sc st sa Hp HS Hne Hsc Hfill Hnm Hlb Hcov.
  - contradiction.
  - cbn [RPkg.level_one_scan]. destruct it as [|next it].
    + exists st. split; [reflexivity|]. split; [assumption|].
      split; [assumption|].
      split; [apply dle_refl; eapply leaf_bound_settled; eauto|].
      eapply covered_finish; eauto.
    + assert (Hlen : length l = (length prefix + 2 + length it)%nat).
      { rewrite <- (sorted_by_length data p l Hobs), HS, length_app.
        simpl. lia. }
      assert (HS' : sorted_by data p l = (prefix ++ [point]) ++ next :: it).
      { rewrite HS, <- app_assoc. reflexivity. }
      assert (Hl' : S (length prefix) = length (prefix ++ [point])).
      { rewrite length_app. simpl. lia. }
      pose proof (sorted_by_adjacent data p l prefix point next it HS)
        as Hadj.
      cbn [hd] in Hcov.
      destruct (get_value data point p =? get_value data next p) eqn:E1.
      { rewrite Hl'. apply IH; auto; try discriminate; try lia.
        cbn [hd]. apply Z.eqb_eq in E1.
        eapply covered_skip; [|exact Hcov]. lia. }
      apply Z.eqb_neq in E1.
      assert (E2 : (S (length prefix) <? 1)%nat
                   || (size_sub (length l) (S (length prefix))
                       <? Z.of_nat 1) = false).
      { apply orb_false_intro; [apply Nat.ltb_ge; lia|].
        rewrite size_sub_le by lia. apply Z.ltb_ge. lia. }
      rewrite E2.
      assert (E3 : (sc + 1 >=? 1) = true) by (apply Z.geb_le; lia).
      rewrite E3.
      destruct (side_actions_max sa (sorted_by data p l)
                  (S (length prefix)) (num_rewards data) 0
                  neg_INF neg_INF 0%nat 0%nat)
        as [la [ra [E4 [Hla [Hra [Hlmax Hrmax]]]]]]; auto;
        try (left; auto; fail); try lia.
      { apply small_sorted_by; assumption. }
      { rewrite sorted_by_length by assumption. lia. }
      rewrite sorted_by_length in E4 by assumption.
      rewrite E4. cbn [bind].
      rewrite HS', Hl', firstn_exact in Hlmax.
      rewrite HS', Hl', skipn_exact in Hrmax.
      rewrite HS', Hl', firstn_exact, skipn_exact. rewrite <- Hl'.
      set (cl := column_sum data la (prefix ++ [point])) in *.
      set (cr := column_sum data ra (next :: it)) in *.
      assert (Hbl : bounds data 0 (prefix ++ [point]) cl)
        by (apply bounds_zero; auto).
      assert (Hbr : bounds data 0 (next :: it) cr)
        by (apply bounds_zero; auto).
      assert (HP : Permutation ((prefix ++ [point]) ++ next :: it) l).
      { rewrite <- HS'. apply sorted_by_perm. assumption. }
      destruct (small_pair data l (prefix ++ [point]) (next :: it) cl cr
                           Hsmall Hobs HP)
        as [Hscl [Hscr [Hsum _]]];
        try (apply column_sum_mag; lia).
      rewrite dadd_Fin by assumption.
      set (st' := if dlt (RPkg.best_reward st) (Fin (cl + cr))
                  then RPkg.mkL1 la ra (get_value data point p) p
                                 (Fin (cl + cr)) (Fin cl) (Fin cr)
                  else st).
      assert (Hst' : l1_names data st' /\
                     leaf_bound data l (RPkg.best_reward st') /\
                     dle (RPkg.best_reward st) (RPkg.best_reward st') /\
                     exists v', RPkg.best_reward st' = Fin v' /\
                                small v' /\ cl + cr <= v').
      { unfold st'.
        destruct (dlt (RPkg.best_reward st) (Fin (cl + cr))) eqn:E5.
        - unfold l1_names.
          cbn [RPkg.best_reward RPkg.best_action_left
               RPkg.best_action_right RPkg.split_var].
          split; [intros _; auto|].
          split; [eapply (leaf_bound_candidate data 0 l _ _ cl cr);
                  [exact HP | exact Hsum | exact Hbl | exact Hbr | lia]|].
          split; [apply dlt_dle;
                  [eapply leaf_bound_settled; eauto | exact Hsum
                   | exact E5]|].
          exists (cl + cr). split; [reflexivity|]. split; [exact Hsum | lia].
        - split; [assumption|]. split; [assumption|].
          split; [apply dle_refl; eapply leaf_bound_settled; eauto|].
          apply dlt_false_Fin;
            [eapply leaf_bound_settled; eauto | exact Hsum | exact E5]. }
      destruct Hst' as [Hnm' [Hlb' [Hle' [v' [Ev' [Hsv' Hv']]]]]].
      assert (Hcov' : covered data 0 l (RPkg.best_reward st') p
                              (Some (get_value data next p))).
      { eapply covered_step; eauto. }
      destruct (IH (prefix ++ [point]) 0 st' sa)
        as [st'' [E6 [Hnm'' [Hlb'' [Hle'' Hcov'']]]]]; auto;
        try discriminate; try lia.
      rewrite <- Hl' in E6.
      exists st''. split; [exact E6|]. split; [assumption|].
      split; [assumption|]. split; [|assumption].
      eapply dle_trans; eauto.
Qed.

Lemma level_one_features_opt : forall n a st sum_array,
  (a + n <= num_features data)%nat -> (1 <= length l)%nat ->
  sum_shape data sum_array ->
  l1_names data st -> leaf_bound data l (RPkg.best_reward st) ->
  (forall q, (q < a)%nat -> covered data 0 l (RPkg.best_reward st) q None) ->
  exists st' sum_array',
    RPkg.level_one_features data (seq a n) (frame_of data l) (length l)
                            1 1 sum_array st = Ret (st', sum_array') /\
    l1_names data st' /\ leaf_bound data l (RPkg.best_reward st') /\
    (forall q, (q < a + n)%nat ->
       covered data 0 l (RPkg.best_reward st') q None).
Proof.
  induction n as [|n IH]; intros a st sa Ha Hl Hsh Hnm Hlb Hcov.
  - exists st, sa. rewrite Nat.add_0_r. auto.
  - cbn [seq RPkg.level_one_features].
    rewrite at_frame_of by lia. cbn [bind].
    destruct (fill_sum_array_filled data (sorted_by data a l) sa)
      as [sa' [E1 [Hsh' Hfill]]]; auto.
    { rewrite sorted_by_length by assumption.
      apply observations_length. assumption. }
    rewrite E1. cbn [bind].
    destruct (sorted_by data a l) as [|x rest] eqn:HS.
    { pose proof (sorted_by_length data a l Hobs) as HL.
      rewrite HS in HL. simpl in HL. lia. }
    destruct (level_one_scan_opt a (x :: rest) [] 0 st sa')
      as [st' [E2 [Hnm' [Hlb' [Hle' Hcov']]]]]; auto;
      try discriminate; try lia.
    { rewrite HS. assumption. }
    { cbn [hd]. eapply covered_start; eauto. }
    simpl length in E2. rewrite E2. cbn [bind].
    replace (a + S n)%nat with (S a + n)%nat by lia.
    apply IH; auto; try lia.
    intros q Hq. destruct (Nat.eq_dec q a) as [->|]; [assumption|].
    eapply covered_mono; [exact Hle'|]. apply Hcov. lia.
Qed.

End OneFrame.

End RPkgOptimalLevelOne.

Section RPkgOptimal.

Variable data : Data.
Hypothesis Hnf : (1 <= num_features data)%nat.
Hypothesis Hnr : (1 <= num_rewards data)%nat.
Hypothesis Hsmall : small_data data.

(** The reward a tree with exact rewards records is the double of an
    integer bounded by the magnitude of its observations. *)
Lemma exact_tree_value : forall m l t,
  observations data l -> exact_tree data m l t ->
  RPkg.reward (RPkg.node_data t) = Fin (routed_reward data t l) /\
  Z.abs (routed_reward data t l) <= mag data l.
Proof.
  intros m l t Hobs Hb. split.
  - eapply exact_reward; eauto. apply small_observations; assumption.
  - eapply routed_reward_mag; eauto.
Qed.

Lemma level_one_learning_opt : forall l sum_array this_depth,
  observations data l -> (1 <= length l)%nat -> sum_shape data sum_array ->
  exists t sum_array',
    RPkg.level_one_learning data (frame_of data l) sum_array 1 1 this_depth
    = Ret (t, sum_array') /\
    sum_shape data sum_array' /\ opt_tree data 1 l t.
Proof.
  intros l sa td Hobs Hl Hsh.
  destruct (level_one_learning_exact data 1 1 Hnf Hnr Hsmall l Hobs sa td
                                     Hl Hsh)
    as [t [sa' [E [Hsh' Hb]]]].
  exists t, sa'. split; [exact E|]. split; [exact Hsh'|].
  split; [exact Hb|].
  destruct (exact_tree_value 1 l t Hobs Hb) as [Hval Hmag].
  assert (Hsv : small (routed_reward data t l)).
  { pose proof (small_observations data l Hsmall Hobs) as Hs.
    unfold small_rewards in Hs. unfold small. lia. }
  unfold RPkg.level_one_learning in E.
  rewrite at_frame_of in E by lia. cbn [bind] in E.
  rewrite sorted_by_length in E by assumption.
  destruct (level_one_features_opt data Hnf Hnr Hsmall l Hobs
              (num_features data) 0
              (RPkg.mkL1 0 0 0 0 neg_INF neg_INF neg_INF) sa)
    as [st [sa1 [E1 [Hnm [Hlb Hcov]]]]]; auto.
  { intros H. exfalso. apply H. reflexivity. }
  { left. reflexivity. }
  { intros q Hq. lia. }
  rewrite E1 in E. cbn [bind] in E.
  destruct Hlb as [Eb|[v [Eb [Hs Hmax]]]].
  - rewrite Eb in E. change (dlt neg_INF NInf) with false in E.
    destruct (level_zero_learning_opt data Hnf Hnr Hsmall l (td + 1) Hobs)
      as [nd [E3 [Ha [Hr Hmx]]]].
    rewrite E3 in E. cbn [bind] in E. injection E as <- <-.
    cbn. split; [exact Ha|]. split; [lia|].
    eexists. split; [exact Hr|].
    split; [apply column_sum_mag; exact Ha|].
    apply bounds_no_split; auto.
    intros q Hq. rewrite <- Eb. apply Hcov. lia.
  - assert (Hbv : bounds data 1 l v).
    { apply bounds_covered; auto.
      - right. exists v. auto.
      - intros q Hq. rewrite <- Eb. apply Hcov. lia. }
    assert (Hne : RPkg.best_reward st <> NInf).
    { rewrite Eb. apply Fin_not_NInf. exact Hs. }
    destruct (Hnm Hne) as [Hla [Hra Hvar]].
    rewrite Eb in E. unfold neg_INF in E.
    rewrite dlt_NInf_Fin in E by exact Hs.
    destruct (RPkg.best_action_left st =? RPkg.best_action_right st)%nat.
    + injection E as <- <-. cbn in Hval, Hmag |- *.
      apply Fin_inj in Hval; auto. rewrite <- Hval in Hmag.
      split; [exact Hla|]. split; [lia|].
      exists v. split; [reflexivity|]. split; [exact Hmag | exact Hbv].
    + injection E as <- <-. cbn in Hval, Hmag |- *.
      apply Fin_inj in Hval; auto. rewrite <- Hval in Hmag.
      split; [auto|]. split; [lia|].
      exists v. split; [reflexivity|]. split; [exact Hmag | exact Hbv].
Qed.

Lemma leaf_opt_tree : forall k l t nd,
  exact_tree data 1 l t -> t = RPkg.Leaf nd ->
  (RPkg.action_id nd < num_rewards data)%nat ->
  RPkg.reward nd = Fin (column_sum data (RPkg.action_id nd) l) ->
  bounds data k l (column_sum data (RPkg.action_id nd) l) ->
  opt_tree data k l t.
Proof.
  intros k l t nd Hb -> Ha Hr Hbd. split; [exact Hb|]. cbn.
  split; [exact Ha|]. split; [lia|]. eexists. split; [exact Hr|].
  split; [apply column_sum_mag; exact Ha | exact Hbd].
Qed.

Section Loops.

Variable search : family -> list (list double) -> run (RPkg.Node * list (list double)).
Variable kc : nat.
Variable bound : nat.
Hypothesis Hsearch : forall l' sum_array,
  observations data l' -> (1 <= length l' <= bound)%nat ->
  sum_shape data sum_array ->
  exists t sum_array',
    search (frame_of data l') sum_array = Ret (t, sum_array') /\
    sum_shape data sum_array' /\ opt_tree data kc l' t.

Variable l : list nat.
Hypothesis Hobs : observations data l.
Hypothesis Hbound : (length l <= S bound)%nat.

(** The reward of a best candidate is the double of the sum of the two
    small integers its trees record. *)
Lemma best_reward_of_value : forall tl tr p v vl vr,
  RPkg.reward (RPkg.node_data tl) = Fin vl ->
  RPkg.reward (RPkg.node_data tr) = Fin vr ->
  small vl -> small vr -> Z.abs (vl + vr) <= mag data l ->
  best_reward_of (Some (tl, tr, p, v)) = Fin (vl + vr) /\ small (vl + vr).
Proof.
  intros tl tr p v vl vr Hl Hr Hsl Hsr Hm.
  assert (Hs : small (vl + vr)).
  { pose proof (small_observations data l Hsmall Hobs) as Hs.
    unfold small_rewards in Hs. unfold small. lia. }
  split; [|exact Hs]. cbn. rewrite Hl, Hr. apply dadd_Fin; assumption.
Qed.

Lemma best_opt_settled : forall best,
  best_opt data kc l best -> settled (best_reward_of best).
Proof.
  intros [[[[bl br] bp] bv]|] H; [|left; reflexivity].
  destruct H as [_ [_ [_ [vl [vr [Hl [Hr [Hsl [Hsr Hm]]]]]]]]].
  destruct (best_reward_of_value bl br bp bv vl vr Hl Hr Hsl Hsr Hm)
    as [E Hs].
  right. exists (vl + vr). auto.
Qed.

Lemma split_loop_opt : forall p iters pre rest sc best sum_array,
  (p < num_features data)%nat ->
  sorted_by data p l = pre ++ rest -> length rest = S iters -> 0 <= sc ->
  sum_shape data sum_array -> best_opt data kc l best ->
  leaf_bound data l (best_reward_of best) ->
  covered data kc l (best_reward_of best) p
          (Some (get_value data (hd 0%nat rest) p)) ->
  exists best' sum_array',
    RPkg.split_loop data search iters p (length l) 1 1
                    (frame_of data pre) (frame_of data rest)
                    sc (length pre) best sum_array
    = Ret (best', sum_array') /\
    sum_shape data sum_array' /\ best_opt data kc l best' /\
    leaf_bound data l (best_reward_of best') /\
    dle (best_reward_of best) (best_reward_of best') /\
    covered data kc l (best_reward_of best') p None.
Proof.
  intros p. induction iters as [|iters IH];
    intros pre rest sc best sa Hp HS Hlen Hsc Hsh Hbest Hlb Hcov.
  - destruct rest as [|x [|y rest]]; try discriminate.
    exists best, sa. split; [reflexivity|]. split; [assumption|].
    split; [assumption|]. split; [assumption|].
    split; [apply dle_refl, best_opt_settled; assumption|].
    eapply covered_finish; eauto.
  - destruct rest as [|x rest]; [discriminate|].
    destruct rest as [|y rest]; [discriminate|].
    cbn [hd] in Hcov.
    assert (Hperm : Permutation (pre ++ x :: y :: rest) l).
    { rewrite <- HS. apply sorted_by_perm. assumption. }
    assert (Hall : observations data (pre ++ x :: y :: rest)).
    { eapply observations_perm; [symmetry; exact Hperm | assumption]. }
    pose proof (sorted_by_sorted data p l) as Hs. rewrite HS in Hs.
    apply StronglySorted_app_inv in Hs. destruct Hs as [_ [Hs _]].
    assert (Hs' : StronglySorted (before data p) (y :: rest))
      by (inversion Hs; assumption).
    assert (Hlt' : forall i, In i (y :: rest) -> (i < num_rows data)%nat).
    { intros i Hi. apply (proj2 Hall). apply in_or_app. right. right. auto. }
    assert (Hll : length l = (length pre + 2 + length rest)%nat).
    { rewrite <- (Permutation_length Hperm), length_app. simpl. lia. }
    assert (HS' : sorted_by data p l = (pre ++ [x]) ++ y :: rest).
    { rewrite HS, <- app_assoc. reflexivity. }
    assert (Hl' : S (length pre) = length (pre ++ [x])).
    { rewrite length_app. simpl. lia. }
    pose proof (sorted_by_adjacent data p l pre x y rest HS) as Hadj.
    cbn [RPkg.split_loop].
    rewrite move_point_spec by assumption. cbn [bind].
    rewrite at_frame_of by assumption. cbn [bind].
    rewrite sorted_by_self by assumption.
    destruct (get_value data x p >=? get_value data y p) eqn:E1.
    { rewrite Hl'. apply IH; auto; try lia;
        try (simpl in Hlen |- *; lia).
      cbn [hd]. apply Z.geb_le in E1.
      eapply covered_skip; [|exact Hcov]. exact E1. }
    assert (Hxy : get_value data x p < get_value data y p).
    { destruct (Z.geb_spec (get_value data x p) (get_value data y p));
        [discriminate | lia]. }
    assert (E2 : (S (length pre) <? 1)%nat
                 || (size_sub (length l) (S (length pre)) <? Z.of_nat 1)
                 = false).
    { apply orb_false_intro; [apply Nat.ltb_ge; lia|].
      rewrite size_sub_le by lia. apply Z.ltb_ge. lia. }
    rewrite E2.
    assert (E3 : (sc + 1 >=? 1) = true) by (apply Z.geb_le; lia).
    rewrite E3.
    assert (Hboth : observations data ((pre ++ [x]) ++ y :: rest)).
    { rewrite <- app_assoc. exact Hall. }
    destruct (observations_app _ _ _ Hboth) as [Hobl Hobr].
    destruct (Hsearch (pre ++ [x]) sa)
      as [tl [sa1 [El [Hsh1 [Hbl [Hokl [Hdl [vl [Hrl [Hml Hbdl]]]]]]]]]];
      auto.
    { rewrite <- Hl'. lia. }
    rewrite El. cbn [bind].
    destruct (Hsearch (y :: rest) sa1)
      as [tr [sa2 [Er [Hsh2 [Hbr [Hokr [Hdr [vr [Hrr [Hmr Hbdr]]]]]]]]]];
      auto.
    { simpl. lia. }
    rewrite Er. cbn [bind].
    assert (HP : Permutation ((pre ++ [x]) ++ y :: rest) l).
    { rewrite <- HS'. apply sorted_by_perm. assumption. }
    destruct (small_pair data l (pre ++ [x]) (y :: rest) vl vr
                         Hsmall Hobs HP Hml Hmr)
      as [Hsl [Hsr [Hsum Hmag]]].
    set (cand := Some (tl, tr, p, get_value data x p) : RPkg.Best).
    set (best' := match best with
                  | None => cand
                  | Some (bl, br, _, _) =>
                      if dlt (dadd (RPkg.reward (RPkg.node_data bl))
                                   (RPkg.reward (RPkg.node_data br)))
                             (dadd (RPkg.reward (RPkg.node_data tl))
                                   (RPkg.reward (RPkg.node_data tr)))
                      then cand else best
                  end).
    assert (Hcand : best_reward_of cand = Fin (vl + vr)).
    { unfold cand. cbn. rewrite Hrl, Hrr. apply dadd_Fin; assumption. }
    assert (Hpick : best' = if dlt (best_reward_of best) (Fin (vl + vr))
                            then cand else best).
    { unfold best'. destruct best as [[[[bl br] bp] bv]|].
      - rewrite <- Hcand. reflexivity.
      - cbn [best_reward_of]. rewrite dlt_NInf_Fin by exact Hsum.
        reflexivity. }
    pose proof (best_opt_settled best Hbest) as Hset.
    assert (Hst' : best_opt data kc l best' /\
                   leaf_bound data l (best_reward_of best') /\
                   dle (best_reward_of best) (best_reward_of best') /\
                   exists v', best_reward_of best' = Fin v' /\
                              small v' /\ vl + vr <= v').
    { rewrite Hpick.
      destruct (dlt (best_reward_of best) (Fin (vl + vr))) eqn:E5.
      - split.
        { unfold cand. cbn. split; [exact Hp|].
          split; [split; assumption|]. split; [split; assumption|].
          exists vl, vr. auto. }
        rewrite Hcand.
        split; [eapply (leaf_bound_candidate data kc l _ _ vl vr);
                [exact HP | exact Hsum | exact Hbdl | exact Hbdr | lia]|].
        split; [apply dlt_dle; assumption|].
        exists (vl + vr). split; [reflexivity|]. split; [exact Hsum | lia].
      - split; [assumption|]. split; [assumption|].
        split; [apply dle_refl; exact Hset|].
        apply dlt_false_Fin; assumption. }
    destruct Hst' as [Hbest' [Hlb' [Hle' [v' [Ev' [Hsv' Hv']]]]]].
    assert (Hcov' : covered data kc l (best_reward_of best') p
                            (Some (get_value data y p))).
    { eapply covered_step; eauto. }
    destruct (IH (pre ++ [x]) (y :: rest) 0 best' sa2)
      as [best'' [sa3 [E6 [Hsh3 [Hbest'' [Hlb'' [Hle'' Hcov'']]]]]]]; auto;
      try lia; try (simpl in Hlen |- *; lia).
    rewrite <- Hl' in E6.
    exists best'', sa3. split; [exact E6|]. split; [assumption|].
    split; [assumption|]. split; [assumption|]. split; [|assumption].
    eapply dle_trans; eauto.
Qed.

Lemma feature_loop_opt : forall n a best sum_array,
  (a + n <= num_features data)%nat -> (1 <= length l)%nat ->
  sum_shape data sum_array -> best_opt data kc l best ->
  leaf_bound data l (best_reward_of best) ->
  (forall q, (q < a)%nat ->
     covered data kc l (best_reward_of best) q None) ->
  exists best' sum_array',
    RPkg.feature_loop data search (seq a n) (frame_of data l) (length l)
                      1 1 best sum_array
    = Ret (best', sum_array') /\
    sum_shape data sum_array' /\ best_opt data kc l best' /\
    leaf_bound data l (best_reward_of best') /\
    (forall q, (q < a + n)%nat ->
       covered data kc l (best_reward_of best') q None).
Proof.
  induction n as [|n IH]; intros a best sa Ha Hl Hsh Hbest Hlb Hcov.
  - exists best, sa. rewrite Nat.add_0_r. auto.
  - cbn [seq RPkg.feature_loop].
    rewrite loop_bound_pos by assumption.
    rewrite frame_of_empty, <- (frame_of_sorted_by data a l).
    destruct (sorted_by data a l) as [|x rest] eqn:HS.
    { pose proof (sorted_by_length data a l Hobs) as HL.
      rewrite HS in HL. simpl in HL. lia. }
    destruct (split_loop_opt a (length l - 1) [] (x :: rest) 0 best sa)
      as [best' [sa' [E [Hsh' [Hbest' [Hlb' [Hle' Hcov']]]]]]]; auto;
      try lia.
    { rewrite <- HS, sorted_by_length by assumption. lia. }
    { cbn [hd]. eapply covered_start; eauto. }
    simpl length in E. rewrite E. cbn [bind].
    rewrite <- HS, frame_of_sorted_by.
    replace (a + S n)%nat with (S a + n)%nat by lia.
    apply IH; auto; try lia.
    intros q Hq. destruct (Nat.eq_dec q a) as [->|]; [assumption|].
    eapply covered_mono; [exact Hle'|]. apply Hcov. lia.
Qed.

End Loops.

(** At level [k], with every split admitted ([split_step = 1],
    [min_node_size = 1]), the search returns a tree of depth at most [k]
    whose reward no tree of depth at most [k] exceeds. *)
Lemma find_best_split_opt : forall fuel k l sum_array this_depth,
  observations data l -> (1 <= length l <= fuel)%nat ->
  sum_shape data sum_array ->
  exists t sum_array',
    RPkg.find_best_split data fuel (frame_of data l) (Z.of_nat k) 1 1
                         sum_array this_depth = Ret (t, sum_array') /\
    sum_shape data sum_array' /\ opt_tree data k l t.
Proof.
  induction fuel as [|fuel IH]; intros k l sa td Hobs Hl Hsh; [lia|].
  destruct (find_best_split_exact data 1 1 Hnf Hnr Hsmall (S fuel) l
              (Z.of_nat k) sa td Hobs Hl Hsh) as [t [sa' [E [Hsh' Hb]]]].
  exists t, sa'. split; [exact E|]. split; [exact Hsh'|].
  cbn [RPkg.find_best_split] in E.
  destruct k as [|[|k]].
  - cbn [Z.of_nat Z.eqb] in E.
    destruct (level_zero_learning_opt data Hnf Hnr Hsmall l (td + 1) Hobs)
      as [nd [E3 [Ha [Hr Hmax]]]].
    rewrite E3 in E. cbn [bind] in E. injection E as <- <-.
    eapply leaf_opt_tree; eauto. apply bounds_zero; auto.
  - change (Z.of_nat 1) with 1 in E. cbn [Z.eqb Pos.eqb] in E.
    destruct (level_one_learning_opt l sa (td + 1) Hobs ltac:(lia) Hsh)
      as [t' [sa1 [E1 [_ Hopt]]]].
    rewrite E1 in E. injection E as <- <-. exact Hopt.
  - assert (E0 : (Z.of_nat (S (S k)) =? 0) = false)
      by (apply Z.eqb_neq; lia).
    assert (E1 : (Z.of_nat (S (S k)) =? 1) = false)
      by (apply Z.eqb_neq; lia).
    rewrite E0, E1 in E.
    rewrite at_frame_of in E by lia. cbn [bind] in E.
    rewrite sorted_by_length in E by assumption.
    replace (Z.of_nat (S (S k)) - 1) with (Z.of_nat (S k)) in E by lia.
    destruct (feature_loop_opt
                (fun sets sa0 =>
                   RPkg.find_best_split data fuel sets (Z.of_nat (S k)) 1 1
                                        sa0 (td + 1))
                (S k) fuel
                (fun l' sa0 Ho Hl' Hs' => IH (S k) l' sa0 (td + 1)
                                            Ho Hl' Hs')
                l Hobs ltac:(lia) (num_features data) 0 None sa)
      as [best [sa1 [E2 [Hsh1 [Hbest [Hlb Hcov]]]]]]; auto; try lia;
      try solve [exact I | left; reflexivity | intros q Hq; lia].
    rewrite E2 in E. cbn [bind] in E.
    destruct best as [[[[bl br] bp] bv]|].
    + destruct Hbest
        as [Hp [[Hokl Hdl] [[Hokr Hdr] [vl [vr [Hrl [Hrr [Hsl [Hsr Hm]]]]]]]]].
      assert (Hev : best_reward_of (Some (bl, br, bp, bv)) = Fin (vl + vr)
                    /\ small (vl + vr))
        by (eapply best_reward_of_value; eauto).
      destruct Hev as [Ebr Hsum].
      assert (Hbd : bounds data (S (S k)) l (vl + vr)).
      { apply bounds_covered; auto.
        - rewrite <- Ebr. exact Hlb.
        - intros q Hq. specialize (Hcov q Hq). rewrite Ebr in Hcov.
          replace (S (S k) - 1)%nat with (S k) by lia. exact Hcov. }
      cbn [best_reward_of] in Ebr.
      split; [exact Hb|].
      destruct (RPkg.is_leaf bl && RPkg.is_leaf br
                && (RPkg.action_id (RPkg.node_data bl)
                    =? RPkg.action_id (RPkg.node_data br))%nat) eqn:E3.
      * injection E as <- <-. cbn.
        apply andb_prop in E3. destruct E3 as [E3 _].
        apply andb_prop in E3. destruct E3 as [Ll _].
        destruct bl as [ndl|]; [|discriminate]. cbn in Hokl, Ebr |- *.
        split; [exact Hokl|]. split; [lia|].
        exists (vl + vr). auto.
      * injection E as <- <-. cbn.
        split; [auto|]. split; [lia|].
        exists (vl + vr). auto.
    + destruct (level_zero_learning_opt data Hnf Hnr Hsmall l (td + 1) Hobs)
        as [nd [E3 [Ha [Hr Hmax]]]].
      rewrite E3 in E. cbn [bind] in E. injection E as <- <-.
      eapply leaf_opt_tree; eauto.
      apply bounds_no_split; auto.
Qed.

End RPkgOptimal.

(** What C3 says of the r-package search, at every depth [k] and with
    small rewards: with every split admitted, the reward of the returned
    tree is the maximum, over all axis-aligned trees of depth at most
    [k], of the reward collected on the rows. *)
Lemma exact_search_optimal : forall data fuel k,
  valid_data data -> small_data data -> (num_rows data <= fuel)%nat ->
  exists t v,
    RPkg.tree_search data fuel (Z.of_nat k) 1 1 = Ret t /\
    RPkg.reward (RPkg.node_data t) = Fin v /\
    optimal data k (seq 0 (num_rows data)) v.
Proof.
  intros data fuel k [HN [Hp [Hd _]]] Hs Hfuel.
  unfold RPkg.tree_search. rewrite frame_of_root.
  destruct (find_best_split_opt data Hp Hd Hs fuel k (seq 0 (num_rows data))
              (new_sum_array data) 0)
    as [t [sa [E [_ [Hb [Hok [Hdep [v [Hr [Hm Hbd]]]]]]]]]].
  - apply observations_root.
  - rewrite length_seq. lia.
  - apply new_sum_array_shape.
  - rewrite E. exists t, v. split; [reflexivity|]. split; [exact Hr|].
    split; [|exact Hbd].
    exists (to_policy t). split; [exact Hok|]. split; [exact Hdep|].
    rewrite policy_reward_to_policy.
    destruct (exact_tree_value data Hs 1 _ t (observations_root data) Hb)
      as [Hrr Hmr].
    rewrite Hr in Hrr. apply Fin_inj in Hrr; [symmetry; exact Hrr | |].
    + unfold small, small_data, small_rewards in *. lia.
    + unfold small, small_data, small_rewards in *. lia.
Qed.

(** ** The original search with small rewards *)

Section CoreOptimalLevelOne.

Variable data : Data.
Hypothesis Hnf : (1 <= num_features data)%nat.
Hypothesis Hnr : (1 <= num_rewards data)%nat.
Hypothesis Hmax : Z.of_nat (num_rewards data) <= SIZE_MAX.
Hypothesis Hsmall : small_data data.

Lemma action_ok_of_nat : forall d,
  (d < num_rewards data)%nat -> action_ok data (Z.of_nat d).
Proof. intros d Hd. unfold action_ok. lia. Qed.

Lemma core_ok_leaf : forall nd a,
  Core.action_id nd = Z.of_nat a -> (a < num_rewards data)%nat ->
  core_ok data (Core.Leaf nd).
Proof.
  intros nd a Ea Ha. split; [reflexivity|].
  split; [intros _; cbn; rewrite Ea; apply action_ok_of_nat; exact Ha|].
  discriminate.
Qed.

Lemma column_sum_sides : forall a q val l,
  column_sum data a (left_of data q val l)
  + column_sum data a (right_of data q val l)
  = column_sum data a l.
Proof.
  intros a q val. unfold left_of, right_of.
  induction l as [|i l IH]; simpl; [reflexivity|].
  destruct (get_value data i q <=? val); simpl; lia.
Qed.

Lemma core_side_max_step : forall b act part a,
  (a < num_rewards data)%nat -> small_rewards data part ->
  core_side_max data b act part a ->
  core_side_max data
    (fst (if dlt b (Fin (column_sum data a part))
          then (Fin (column_sum data a part), Z.of_nat a) else (b, act)))
    (snd (if dlt b (Fin (column_sum data a part))
          then (Fin (column_sum data a part), Z.of_nat a) else (b, act)))
    part (S a).
Proof.
  intros b act part a Ha Hs H. right.
  assert (Hsm : forall d, (d < num_rewards data)%nat ->
                  small (column_sum data d part))
    by (intros d Hd; apply small_column_sum; assumption).
  destruct (dlt b (Fin (column_sum data a part))) eqn:E; cbn [fst snd].
  - exists a. split; [reflexivity|]. split; [lia|]. split; [reflexivity|].
    intros d Hd. destruct H as [[-> _]|[d0 [-> [Hact [-> Hmx]]]]].
    + replace d with 0%nat by lia. lia.
    + rewrite dlt_Fin in E by (apply Hsm; lia). apply Z.ltb_lt in E.
      destruct (Nat.eq_dec d a) as [->|]; [lia|].
      specialize (Hmx d ltac:(lia)). lia.
  - destruct H as [[_ ->]|[d0 [-> [Hact [-> Hmx]]]]].
    { rewrite dlt_NInf_Fin in E by (apply Hsm; lia). discriminate. }
    rewrite dlt_Fin in E by (apply Hsm; lia). apply Z.ltb_ge in E.
    exists d0. split; [reflexivity|]. split; [lia|]. split; [reflexivity|].
    intros d Hd.
    destruct (Nat.eq_dec d a) as [->|]; [lia|]. apply Hmx. lia.
Qed.

Lemma core_level_zero_loop_argmax :
  forall l n a best_reward best_action,
  small_rewards data (sorted_by data 0 l) ->
  (a + n <= num_rewards data)%nat ->
  core_side_max data best_reward best_action (sorted_by data 0 l) a ->
  (1 <= a + n)%nat ->
  exists ba,
    Core.level_zero_loop data (frame_of data l) (seq a n)
                         best_reward best_action
    = Ret (Fin (column_sum data ba (sorted_by data 0 l)), Z.of_nat ba) /\
    (ba < a + n)%nat /\
    (forall d, (d < a + n)%nat ->
       column_sum data d (sorted_by data 0 l)
       <= column_sum data ba (sorted_by data 0 l)).
Proof.
  intros l. induction n as [|n IH]; intros a br ba Hs Hn Hinv Han.
  - destruct Hinv as [[-> _]|[d [-> [Hd [-> Hmx]]]]]; [lia|].
    exists d. rewrite Nat.add_0_r. auto.
  - cbn [seq Core.level_zero_loop]. rewrite at_frame_of by lia.
    cbn [bind]. rewrite reward_sum_column_sum by (auto; lia).
    replace (a + S n)%nat with (S a + n)%nat by lia.
    assert (Ha : (a < num_rewards data)%nat) by lia.
    pose proof (core_side_max_step _ _ _ _ Ha Hs Hinv) as Hinv'.
    destruct (dlt br (Fin (column_sum data a (sorted_by data 0 l))));
      cbn [fst snd] in Hinv'; apply IH; auto; lia.
Qed.

Lemma core_level_zero_learning_opt : forall l,
  observations data l ->
  exists nd a,
    Core.level_zero_learning data (frame_of data l) = Ret (Core.Leaf nd) /\
    Core.action_id nd = Z.of_nat a /\ (a < num_rewards data)%nat /\
    Core.reward nd = Fin (column_sum data a l) /\
    (forall d, (d < num_rewards data)%nat ->
       column_sum data d l <= column_sum data a l).
Proof.
  intros l Hobs. unfold Core.level_zero_learning.
  destruct (core_level_zero_loop_argmax l (num_rewards data) 0 neg_INF
                                        SIZE_MAX)
    as [ba [E [Hlt Hmx]]]; [| lia | left; auto | lia |].
  { eapply small_rewards_perm;
      [symmetry; apply sorted_by_perm; exact Hobs|].
    apply small_observations; assumption. }
  rewrite E. cbn [bind].
  assert (HP : forall a,
    column_sum data a (sorted_by data 0 l) = column_sum data a l).
  { intros a. apply column_sum_perm, sorted_by_perm. assumption. }
  do 2 eexists. split; [reflexivity|]. cbn.
  split; [reflexivity|]. split; [exact Hlt|]. split; [f_equal; apply HP|].
  intros d Hd. rewrite <- !HP. auto.
Qed.

Lemma core_side_actions_max : forall sum_array sp n nd a lb rb la ra,
  small_rewards data sp ->
  filled data sum_array sp -> (n <= length sp)%nat ->
  (a + nd <= num_rewards data)%nat -> (1 <= a + nd)%nat ->
  core_side_max data lb la (firstn n sp) a ->
  core_side_max data rb ra (skipn n sp) a ->
  exists la' ra',
    Core.side_actions sum_array n (length sp) (seq a nd) lb rb la ra
    = Ret (Fin (column_sum data la' (firstn n sp)),
           Fin (column_sum data ra' (skipn n sp)),
           Z.of_nat la', Z.of_nat ra') /\
    (la' < a + nd)%nat /\ (ra' < a + nd)%nat /\
    (forall d, (d < a + nd)%nat ->
       column_sum data d (firstn n sp)
       <= column_sum data la' (firstn n sp)) /\
    (forall d, (d < a + nd)%nat ->
       column_sum data d (skipn n sp)
       <= column_sum data ra' (skipn n sp)).
Proof.
  intros sa sp n. induction nd as [|nd IH];
    intros a lb rb la ra Hs Hfill Hn Ha Ha1 Hl Hr.
  - rewrite Nat.add_0_r in *.
    destruct Hl as [[-> _]|[dl [-> [Hla [-> Hlmax]]]]]; [lia|].
    destruct Hr as [[-> _]|[dr [-> [Hra [-> Hrmax]]]]]; [lia|].
    exists dl, dr. auto.
  - cbn [seq Core.side_actions].
    assert (Hd : (a < num_rewards data)%nat) by lia.
    pose proof (small_rewards_firstn data n sp Hs) as Hsl.
    pose proof (small_rewards_skipn data n sp Hs) as Hsr.
    destruct (Hfill a) as [row [Hrow Hsum]]; [lia|].
    rewrite (at_Some _ _ _ _ Hrow). cbn [bind].
    rewrite (at_Some _ _ _ _ (Hsum n Hn)). cbn [bind].
    rewrite (at_Some _ _ _ _ (Hsum (length sp) (Nat.le_refl _))).
    cbn [bind]. rewrite firstn_all.
    rewrite !reward_sum_column_sum by assumption.
    assert (Hdiff : column_sum data a sp - column_sum data a (firstn n sp)
                    = column_sum data a (skipn n sp)).
    { rewrite <- (firstn_skipn n sp) at 1. rewrite column_sum_app. lia. }
    rewrite dsub_Fin;
      try (rewrite Hdiff); try (apply small_column_sum; assumption).
    pose proof (core_side_max_step _ _ _ _ Hd Hsl Hl) as Hl'.
    pose proof (core_side_max_step _ _ _ _ Hd Hsr Hr) as Hr'.
    replace (a + S nd)%nat with (S a + nd)%nat by lia.
    destruct (dlt lb (Fin (column_sum data a (firstn n sp))));
      destruct (dlt rb (Fin (column_sum data a (skipn n sp))));
      cbn [fst snd] in Hl', Hr'; apply IH; auto; lia.
Qed.

Section OneFrame.

Variable l : list nat.
Hypothesis Hobs : observations data l.

Lemma core_level_one_scan_opt : forall p it prefix st sum_array,
  (p < num_features data)%nat ->
  sorted_by data p l = prefix ++ it -> it <> [] ->
  filled data sum_array (sorted_by data p l) ->
  core_l1_opt data l st -> leaf_bound data l (Core.best_reward st) ->
  covered data 0 l (Core.best_reward st) p
          (Some (get_value data (hd 0%nat it) p)) ->
  exists st',
    Core.level_one_scan data p (length l) sum_array it (length prefix) st
    = Ret st' /\
    core_l1_opt data l st' /\ leaf_bound data l (Core.best_reward st') /\
    dle (Core.best_reward st) (Core.best_reward st') /\
    covered data 0 l (Core.best_reward st') p None.
Proof.
  intros p. induction it as [|point it IH];
    intros prefix st sa Hp HS Hne Hfill Hnm Hlb Hcov.
  - contradiction.
  - cbn [Core.level_one_scan]. destruct it as [|next it].
    + exists st. split; [reflexivity|]. split; [assumption|].
      split; [assumption|].
      split; [apply dle_refl; eapply leaf_bound_settled; eauto|].
      eapply covered_finish; eauto.
    + assert (Hlen : length l = (length prefix + 2 + length it)%nat).
      { rewrite <- (sorted_by_length data p l Hobs), HS, length_app.
        simpl. lia. }
      assert (HS' : sorted_by data p l = (prefix ++ [point]) ++ next :: it).
      { rewrite HS, <- app_assoc. reflexivity. }
      assert (Hl' : S (length prefix) = length (prefix ++ [point])).
      { rewrite length_app. simpl. lia. }
      pose proof (sorted_by_adjacent data p l prefix point next it HS)
        as Hadj.
      cbn [hd] in Hcov.
      destruct (get_value data point p =? get_value data next p) eqn:E1.
      { rewrite Hl'. apply IH; auto; try discriminate.
        cbn [hd]. apply Z.eqb_eq in E1.
        eapply covered_skip; [|exact Hcov]. lia. }
      apply Z.eqb_neq in E1.
      destruct (core_side_actions_max sa (sorted_by data p l)
                  (S (length prefix)) (num_rewards data) 0
                  neg_INF neg_INF SIZE_MAX SIZE_MAX)
        as [la [ra [E4 [Hla [Hra [Hlmax Hrmax]]]]]]; auto;
        try (left; auto; fail); try lia.
      { apply small_sorted_by; assumption. }
      { rewrite sorted_by_length by assumption. lia. }
      rewrite sorted_by_length in E4 by assumption.
      rewrite E4. cbn [bind].
      rewrite HS', Hl', firstn_exact in Hlmax.
      rewrite HS', Hl', skipn_exact in Hrmax.
      rewrite HS', Hl', firstn_exact, skipn_exact. rewrite <- Hl'.
      set (cl := column_sum data la (prefix ++ [point])) in *.
      set (cr := column_sum data ra (next :: it)) in *.
      assert (Hbl : bounds data 0 (prefix ++ [point]) cl)
        by (apply bounds_zero; auto).
      assert (Hbr : bounds data 0 (next :: it) cr)
        by (apply bounds_zero; auto).
      assert (HP : Permutation ((prefix ++ [point]) ++ next :: it) l).
      { rewrite <- HS'. apply sorted_by_perm. assumption. }
      assert (Hsplit : split_of data 1 l p (get_value data point p)
                                (prefix ++ [point]) (next :: it)).
      { apply split_of_between; auto. lia. }
      destruct (split_of_sides _ _ _ _ _ _ _ l Hsplit (Permutation_refl l))
        as [HPl HPr].
      destruct (small_pair data l (prefix ++ [point]) (next :: it) cl cr
                           Hsmall Hobs HP)
        as [Hscl [Hscr [Hsum _]]];
        try (apply column_sum_mag; lia).
      rewrite dadd_Fin by assumption.
      set (st' := if dlt (Core.best_reward st) (Fin (cl + cr))
                  then Core.mkL1 (Z.of_nat la) (Z.of_nat ra)
                                 (get_value data point p) (Z.of_nat p)
                                 (Fin (cl + cr)) (Fin cl) (Fin cr)
                  else st).
      assert (Hst' : core_l1_opt data l st' /\
                     leaf_bound data l (Core.best_reward st') /\
                     dle (Core.best_reward st) (Core.best_reward st') /\
                     exists v', Core.best_reward st' = Fin v' /\
                                small v' /\ cl + cr <= v').
      { unfold st'.
        destruct (dlt (Core.best_reward st) (Fin (cl + cr))) eqn:E5.
        - split.
          { right. exists la, ra, p, (cl + cr).
            cbn [Core.best_action_left Core.best_action_right
                 Core.split_var Core.best_reward Core.split_val].
            repeat (split; [auto; lia|]).
            cbn [policy_reward].
            rewrite (column_sum_perm data la _ _ HPl).
            rewrite (column_sum_perm data ra _ _ HPr). reflexivity. }
          cbn [Core.best_reward].
          split; [eapply (leaf_bound_candidate data 0 l _ _ cl cr);
                  [exact HP | exact Hsum | exact Hbl | exact Hbr | lia]|].
          split; [apply dlt_dle;
                  [eapply leaf_bound_settled; eauto | exact Hsum
                   | exact E5]|].
          exists (cl + cr). split; [reflexivity|]. split; [exact Hsum | lia].
        - split; [assumption|]. split; [assumption|].
          split; [apply dle_refl; eapply leaf_bound_settled; eauto|].
          apply dlt_false_Fin;
            [eapply leaf_bound_settled; eauto | exact Hsum | exact E5]. }
      destruct Hst' as [Hnm' [Hlb' [Hle' [v' [Ev' [Hsv' Hv']]]]]].
      assert (Hcov' : covered data 0 l (Core.best_reward st') p
                              (Some (get_value data next p))).
      { eapply covered_step; eauto. }
      destruct (IH (prefix ++ [point]) st' sa)
        as [st'' [E6 [Hnm'' [Hlb'' [Hle'' Hcov'']]]]]; auto;
        try discriminate.
      rewrite <- Hl' in E6.
      exists st''. split; [exact E6|]. split; [assumption|].
      split; [assumption|]. split; [|assumption].
      eapply dle_trans; eauto.
Qed.

Lemma core_level_one_features_opt : forall n a st sum_array,
  (a + n <= num_features data)%nat -> (1 <= length l)%nat ->
  sum_shape data sum_array ->
  core_l1_opt data l st -> leaf_bound data l (Core.best_reward st) ->
  (forall q, (q < a)%nat -> covered data 0 l (Core.best_reward st) q None) ->
  exists st' sum_array',
    Core.level_one_features data (seq a n) (frame_of data l) (length l)
                            sum_array st = Ret (st', sum_array') /\
    sum_shape data sum_array' /\
    core_l1_opt data l st' /\ leaf_bound data l (Core.best_reward st') /\
    (forall q, (q < a + n)%nat ->
       covered data 0 l (Core.best_reward st') q None).
Proof.
  induction n as [|n IH]; intros a st sa Ha Hl Hsh Hnm Hlb Hcov.
  - exists st, sa. rewrite Nat.add_0_r. auto.
  - cbn [seq Core.level_one_features].
    rewrite at_frame_of by lia. cbn [bind].
    destruct (fill_sum_array_filled data (sorted_by data a l) sa)
      as [sa' [E1 [Hsh' Hfill]]]; auto.
    { rewrite sorted_by_length by assumption.
      apply observations_length. assumption. }
    rewrite E1. cbn [bind].
    destruct (sorted_by data a l) as [|x rest] eqn:HS.
    { pose proof (sorted_by_length data a l Hobs) as HL.
      rewrite HS in HL. simpl in HL. lia. }
    destruct (core_level_one_scan_opt a (x :: rest) [] st sa')
      as [st' [E2 [Hnm' [Hlb' [Hle' Hcov']]]]]; auto;
      try discriminate; try lia.
    { rewrite HS. assumption. }
    { cbn [hd]. eapply covered_start; eauto. }
    simpl length in E2. rewrite E2. cbn [bind].
    replace (a + S n)%nat with (S a + n)%nat by lia.
    apply IH; auto; try lia.
    intros q Hq. destruct (Nat.eq_dec q a) as [->|]; [assumption|].
    eapply covered_mono; [exact Hle'|]. apply Hcov. lia.
Qed.

Lemma core_level_one_learning_opt : forall sum_array,
  (1 <= length l)%nat -> sum_shape data sum_array ->
  exists t sum_array',
    Core.level_one_learning data (frame_of data l) sum_array
    = Ret (t, sum_array') /\
    sum_shape data sum_array' /\ core_ok data t /\ core_opt data 1 l t.
Proof.
  intros sa Hl Hsh. unfold Core.level_one_learning.
  rewrite at_frame_of by lia. cbn [bind].
  rewrite sorted_by_length by assumption.
  destruct (core_level_one_features_opt (num_features data) 0
              (Core.mkL1 SIZE_MAX SIZE_MAX (-1) SIZE_MAX
                         neg_INF neg_INF neg_INF) sa)
    as [st [sa1 [E1 [Hsh1 [Hnm [Hlb Hcov]]]]]]; auto;
    try solve [left; reflexivity | intros q Hq; lia].
  rewrite E1. cbn [bind].
  destruct Hlb as [Eb|[v [Eb [Hs Hmx]]]].
  - rewrite Eb. change (dlt neg_INF NInf) with false. cbn iota.
    destruct (core_level_zero_learning_opt l Hobs)
      as [nd [a [E3 [Ea [Ha [Hr Hmx]]]]]].
    rewrite E3. cbn [bind].
    do 2 eexists. split; [reflexivity|]. split; [assumption|].
    split; [eapply core_ok_leaf; eauto|].
    unfold core_opt. cbn [core_to_policy Core.node_data].
    rewrite Ea, Nat2Z.id. cbn [policy_ok policy_depth policy_reward].
    split; [exact Ha|]. split; [lia|].
    eexists. split; [exact Hr|]. split; [reflexivity|].
    apply bounds_no_split; auto.
    intros q Hq. rewrite <- Eb. apply Hcov. lia.
  - assert (Hbv : bounds data 1 l v).
    { apply bounds_covered; auto.
      - right. exists v. auto.
      - intros q Hq. rewrite <- Eb. apply Hcov. lia. }
    destruct Hnm as [Hnm|[la [ra [p [v0 [El [Er [Ep [Hla [Hra [Hp [Ev Hpr]]]]]]]]]]]].
    { exfalso. rewrite Eb in Hnm. exact (Fin_not_NInf v Hs Hnm). }
    assert (Hs0 : small v0).
    { pose proof (policy_reward_mag data
                    (PSplit p (Core.split_val st) (PLeaf la) (PLeaf ra)) l
                    ltac:(cbn; auto)) as Hm.
      pose proof (small_observations data l Hsmall Hobs) as Hsl.
      unfold small_rewards in Hsl. unfold small. lia. }
    assert (Hv0 : v0 = v).
    { rewrite Eb in Ev. symmetry. apply Fin_inj; auto. }
    rewrite Hv0 in Hpr. clear Hv0 Hs0 Ev v0.
    rewrite Eb. unfold neg_INF. rewrite dlt_NInf_Fin by exact Hs.
    destruct (Core.best_action_left st =? Core.best_action_right st) eqn:E2.
    + do 2 eexists. split; [reflexivity|]. split; [assumption|].
      split; [eapply core_ok_leaf; eauto|].
      unfold core_opt.
      cbn [core_to_policy Core.node_data Core.new_Node Core.action_id
           Core.reward].
      rewrite El, Nat2Z.id. cbn [policy_ok policy_depth policy_reward].
      split; [exact Hla|]. split; [lia|].
      eexists. split; [reflexivity|]. split; [|exact Hbv].
      apply Z.eqb_eq in E2. rewrite El, Er in E2.
      apply Nat2Z.inj in E2. subst ra.
      rewrite <- Hpr. cbn [policy_reward]. symmetry.
      apply column_sum_sides.
    + do 2 eexists. split; [reflexivity|]. split; [assumption|].
      split.
      { split; [|split; [discriminate | reflexivity]].
        cbn. rewrite E2. reflexivity. }
      unfold core_opt.
      cbn [core_to_policy Core.node_data Core.new_Node Core.action_id
           Core.reward Core.index Core.value Core.set_children].
      rewrite ?El, ?Er, ?Ep, ?Nat2Z.id.
      cbn [policy_ok policy_depth policy_reward] in *.
      split; [auto|]. split; [lia|].
      eexists. split; [reflexivity|]. split; [exact Hpr | exact Hbv].
Qed.

End OneFrame.

End CoreOptimalLevelOne.

Section CoreRecursion.

Variable data : Data.
Hypothesis Hnf : (1 <= num_features data)%nat.
Hypothesis Hnr : (1 <= num_rewards data)%nat.
Hypothesis Hmax : Z.of_nat (num_rewards data) <= SIZE_MAX.
Hypothesis Hsmall : small_data data.

Lemma core_level_zero_learning_ok : forall l,
  observations data l ->
  exists t,
    Core.level_zero_learning data (frame_of data l) = Ret t /\
    core_ok data t.
Proof.
  intros l Hobs.
  destruct (core_level_zero_learning_opt data Hnf Hnr Hsmall l Hobs)
    as [nd [a [E [Ea [Ha _]]]]].
  eexists. split; [exact E|]. eapply core_ok_leaf; eauto.
Qed.

Section Loops.

Variable search : family -> list (list double) -> run (Core.Node * list (list double)).
Variable bound : nat.
Hypothesis Hsearch : forall l' sum_array,
  observations data l' -> (1 <= length l' <= bound)%nat ->
  sum_shape data sum_array ->
  exists t sum_array',
    search (frame_of data l') sum_array = Ret (t, sum_array') /\
    sum_shape data sum_array' /\ core_ok data t.

Variable l : list nat.
Hypothesis Hobs : observations data l.
Hypothesis Hbound : (length l <= S bound)%nat.

Lemma core_split_loop_ok : forall p iters pre rest best leaf sum_array,
  (p < num_features data)%nat ->
  sorted_by data p l = pre ++ rest -> length rest = S iters ->
  sum_shape data sum_array ->
  core_best_ok data best -> core_leaf_ok data leaf ->
  exists best' leaf' sum_array',
    Core.split_loop data search iters p
                    (frame_of data pre) (frame_of data rest)
                    best leaf sum_array
    = Ret (best', leaf', sum_array') /\
    core_best_ok data best' /\ core_leaf_ok data leaf' /\
    sum_shape data sum_array'.
Proof.
  intros p. induction iters as [|iters IH];
    intros pre rest best leaf sa Hp HS Hlen Hsh Hbest Hleaf.
  - exists best, leaf, sa. auto.
  - destruct rest as [|x rest]; [discriminate|].
    destruct rest as [|y rest]; [discriminate|].
    assert (Hperm : Permutation (pre ++ x :: y :: rest) l).
    { rewrite <- HS. apply sorted_by_perm. assumption. }
    assert (Hall : observations data (pre ++ x :: y :: rest)).
    { eapply observations_perm; [symmetry; exact Hperm | assumption]. }
    pose proof (sorted_by_sorted data p l) as Hs. rewrite HS in Hs.
    apply StronglySorted_app_inv in Hs. destruct Hs as [_ [Hs _]].
    assert (Hs' : StronglySorted (before data p) (y :: rest))
      by (inversion Hs; assumption).
    assert (Hlt' : forall i, In i (y :: rest) -> (i < num_rows data)%nat).
    { intros i Hi. apply (proj2 Hall). apply in_or_app. right. right. auto. }
    assert (Hll : length l = (length pre + 2 + length rest)%nat).
    { rewrite <- (Permutation_length Hperm), length_app. simpl. lia. }
    assert (HS' : sorted_by data p l = (pre ++ [x]) ++ y :: rest).
    { rewrite HS, <- app_assoc. reflexivity. }
    assert (Hnext : forall best' leaf' sa',
      sum_shape data sa' -> core_best_ok data best' ->
      core_leaf_ok data leaf' ->
      exists best'' leaf'' sa'',
        Core.split_loop data search iters p
                        (frame_of data (pre ++ [x]))
                        (frame_of data (y :: rest)) best' leaf' sa'
        = Ret (best'', leaf'', sa'') /\
        core_best_ok data best'' /\ core_leaf_ok data leaf'' /\
        sum_shape data sa'').
    { intros best' leaf' sa' Hsh' Hbest' Hleaf'.
      apply IH; auto; simpl in Hlen |- *; lia. }
    cbn [Core.split_loop].
    rewrite move_point_spec by assumption. cbn [bind].
    rewrite at_frame_of by assumption. cbn [bind].
    rewrite sorted_by_self by assumption.
    destruct (get_value data x p >=? get_value data y p) eqn:E1;
      [apply Hnext; assumption|].
    assert (Hboth : observations data ((pre ++ [x]) ++ y :: rest)).
    { rewrite <- app_assoc. exact Hall. }
    destruct (observations_app _ _ _ Hboth) as [Hobl Hobr].
    destruct (Hsearch (pre ++ [x]) sa) as [tl [sa1 [El [Hsh1 Hbl]]]]; auto.
    { rewrite length_app. simpl. lia. }
    rewrite El. cbn [bind].
    destruct (Hsearch (y :: rest) sa1) as [tr [sa2 [Er [Hsh2 Hbr]]]]; auto.
    { simpl. lia. }
    rewrite Er. cbn [bind].
    match goal with
    | |- context [if ?b then _ else _] => destruct b
    end; [|apply Hnext; assumption].
    destruct (negb (Core.action_id (Core.node_data tl) =? SIZE_MAX)
              && (Core.action_id (Core.node_data tl)
                  =? Core.action_id (Core.node_data tr))) eqn:E2.
    + apply Hnext; [assumption | exact I |].
      apply andb_prop in E2. destruct E2 as [E2 _].
      apply negb_true_iff, Z.eqb_neq in E2.
      split; [reflexivity|]. split; [|discriminate]. intros _. cbn.
      destruct Hbl as [_ [Hleafl Hintl]].
      destruct (core_is_leaf tl); [auto | exfalso; auto].
    + apply Hnext; [assumption | | assumption].
      split; [assumption|]. split; assumption.
Qed.

Lemma core_feature_loop_ok : forall ps best leaf sum_array,
  (forall p, In p ps -> (p < num_features data)%nat) ->
  (1 <= length l)%nat ->
  sum_shape data sum_array ->
  core_best_ok data best -> core_leaf_ok data leaf ->
  exists best' leaf' sum_array',
    Core.feature_loop data search ps (frame_of data l) (length l)
                      best leaf sum_array
    = Ret (best', leaf', sum_array') /\
    core_best_ok data best' /\ core_leaf_ok data leaf' /\
    sum_shape data sum_array'.
Proof.
  induction ps as [|p ps IH]; intros best leaf sa Hps Hl Hsh Hbest Hleaf.
  - exists best, leaf, sa. auto.
  - cbn [Core.feature_loop].
    rewrite loop_bound_pos by assumption.
    rewrite frame_of_empty, <- (frame_of_sorted_by data p l).
    destruct (core_split_loop_ok p (length l - 1) [] (sorted_by data p l)
                                 best leaf sa)
      as [best' [leaf' [sa' [E [Hbest' [Hleaf' Hsh']]]]]]; auto.
    { apply Hps. left; reflexivity. }
    { rewrite sorted_by_length by assumption. lia. }
    rewrite E. cbn [bind].
    rewrite frame_of_sorted_by.
    apply IH; auto. intros q Hq. apply Hps. right; assumption.
Qed.

End Loops.

Lemma core_find_best_split_ok : forall fuel l level sum_array,
  observations data l -> (1 <= length l <= fuel)%nat ->
  sum_shape data sum_array ->
  exists t sum_array',
    Core.find_best_split data fuel (frame_of data l) level sum_array
    = Ret (t, sum_array') /\
    sum_shape data sum_array' /\ core_ok data t.
Proof.
  induction fuel as [|fuel IH]; intros l level sa Hobs Hl Hsh; [lia|].
  cbn [Core.find_best_split].
  destruct (level =? 1) eqn:E1.
  { edestruct (core_level_one_learning_opt data Hnf Hnr Hsmall l Hobs sa)
      as [t [sa' [E [Hsh' [Hok _]]]]]; eauto; try lia. }
  rewrite at_frame_of by lia. cbn [bind].
  rewrite sorted_by_length by assumption.
  destruct (core_feature_loop_ok
              (fun sets sa0 =>
                 Core.find_best_split data fuel sets (level - 1) sa0)
              fuel
              (fun l' sa' Ho Hl' Hs' => IH l' (level - 1) sa' Ho Hl' Hs')
              l Hobs ltac:(lia) (seq 0 (num_features data)) None None sa)
    as [best [leaf [sa' [E [Hbest [Hleaf Hsh']]]]]]; auto.
  { intros p Hp. apply in_seq in Hp. lia. }
  { lia. }
  { exact I. }
  { exact I. }
  rewrite E. cbn [bind].
  destruct best as [[[[bl br] bp] bv]|].
  - destruct Hbest as [Hbl [Hbr Hkeep]].
    do 2 eexists. split; [reflexivity|]. split; [assumption|].
    split; [|split; [discriminate | reflexivity]].
    cbn. rewrite (proj1 Hbl), (proj1 Hbr), !andb_true_r.
    apply negb_true_iff.
    destruct (core_is_leaf bl) eqn:Ll; [|reflexivity].
    destruct (core_is_leaf br) eqn:Lr; [|reflexivity].
    simpl. destruct Hbl as [_ [Hal _]].
    assert (Hne : (Core.action_id (Core.node_data bl) =? SIZE_MAX) = false).
    { specialize (Hal Ll). unfold action_ok in Hal.
      apply Z.eqb_neq. lia. }
    rewrite Hne in Hkeep. exact Hkeep.
  - destruct leaf as [t|].
    + do 2 eexists. split; [reflexivity|]. split; assumption.
    + destruct (core_level_zero_learning_ok l Hobs) as [t [E3 Hok]].
      rewrite E3. cbn [bind].
      do 2 eexists. split; [reflexivity|]. split; assumption.
Qed.

End CoreRecursion.

Section CoreOptimal.

Variable data : Data.
Hypothesis Hnf : (1 <= num_features data)%nat.
Hypothesis Hnr : (1 <= num_rewards data)%nat.
Hypothesis Hmax : Z.of_nat (num_rewards data) <= SIZE_MAX.
Hypothesis Hsmall : small_data data.

(** A tree whose root carries an action is a leaf for an action of the
    data. *)
Lemma core_ok_action : forall t,
  core_ok data t -> Core.action_id (Core.node_data t) <> SIZE_MAX ->
  exists nd a,
    t = Core.Leaf nd /\ Core.action_id nd = Z.of_nat a /\
    (a < num_rewards data)%nat.
Proof.
  intros t [_ [Hleaf Hint]] Hne. destruct t as [nd|nd tl tr].
  - destruct (Hleaf eq_refl) as [H0 H1]. cbn in H0, H1.
    exists nd, (Z.to_nat (Core.action_id nd)).
    split; [reflexivity|]. split; lia.
  - exfalso. apply Hne. apply Hint. reflexivity.
Qed.

Section Loops.

Variable search : family -> list (list double) -> run (Core.Node * list (list double)).
Variable kc : nat.
Variable bound : nat.
Hypothesis Hsearch : forall l' sum_array,
  observations data l' -> (1 <= length l' <= bound)%nat ->
  sum_shape data sum_array ->
  exists t sum_array',
    search (frame_of data l') sum_array = Ret (t, sum_array') /\
    sum_shape data sum_array' /\ core_ok data t /\ core_opt data kc l' t.

Variable l : list nat.
Hypothesis Hobs : observations data l.
Hypothesis Hbound : (length l <= S bound)%nat.

Lemma core_split_loop_opt : forall p iters pre rest best leaf sum_array,
  (p < num_features data)%nat ->
  sorted_by data p l = pre ++ rest -> length rest = S iters ->
  sum_shape data sum_array ->
  core_best_opt data kc l best -> core_leaf_opt data l leaf ->
  leaf_bound data l (core_cur best leaf) ->
  covered data kc l (core_cur best leaf) p
          (Some (get_value data (hd 0%nat rest) p)) ->
  exists best' leaf' sum_array',
    Core.split_loop data search iters p
                    (frame_of data pre) (frame_of data rest)
                    best leaf sum_array
    = Ret (best', leaf', sum_array') /\
    sum_shape data sum_array' /\
    core_best_opt data kc l best' /\ core_leaf_opt data l leaf' /\
    leaf_bound data l (core_cur best' leaf') /\
    dle (core_cur best leaf) (core_cur best' leaf') /\
    covered data kc l (core_cur best' leaf') p None.
Proof.
  intros p. induction iters as [|iters IH];
    intros pre rest best leaf sa Hp HS Hlen Hsh Hbest Hleaf Hlb Hcov.
  - destruct rest as [|x [|y rest]]; try discriminate.
    exists best, leaf, sa. split; [reflexivity|]. split; [assumption|].
    split; [assumption|]. split; [assumption|]. split; [assumption|].
    split; [apply dle_refl; eapply leaf_bound_settled; eauto|].
    eapply covered_finish; eauto.
  - destruct rest as [|x rest]; [discriminate|].
    destruct rest as [|y rest]; [discriminate|].
    cbn [hd] in Hcov.
    assert (Hperm : Permutation (pre ++ x :: y :: rest) l).
    { rewrite <- HS. apply sorted_by_perm. assumption. }
    assert (Hall : observations data (pre ++ x :: y :: rest)).
    { eapply observations_perm; [symmetry; exact Hperm | assumption]. }
    pose proof (sorted_by_sorted data p l) as Hs. rewrite HS in Hs.
    apply StronglySorted_app_inv in Hs. destruct Hs as [_ [Hs _]].
    assert (Hs' : StronglySorted (before data p) (y :: rest))
      by (inversion Hs; assumption).
    assert (Hlt' : forall i, In i (y :: rest) -> (i < num_rows data)%nat).
    { intros i Hi. apply (proj2 Hall). apply in_or_app. right. right. auto. }
    assert (Hll : length l = (length pre + 2 + length rest)%nat).
    { rewrite <- (Permutation_length Hperm), length_app. simpl. lia. }
    assert (HS' : sorted_by data p l = (pre ++ [x]) ++ y :: rest).
    { rewrite HS, <- app_assoc. reflexivity. }
    assert (HP' : Permutation ((pre ++ [x]) ++ y :: rest) l).
    { rewrite <- HS'. apply sorted_by_perm. assumption. }
    pose proof (sorted_by_adjacent data p l pre x y rest HS) as Hadj.
    assert (Hnext : forall best' leaf' sa',
      sum_shape data sa' ->
      core_best_opt data kc l best' -> core_leaf_opt data l leaf' ->
      leaf_bound data l (core_cur best' leaf') ->
      dle (core_cur best leaf) (core_cur best' leaf') ->
      covered data kc l (core_cur best' leaf') p
              (Some (get_value data y p)) ->
      exists best'' leaf'' sa'',
        Core.split_loop data search iters p
                        (frame_of data (pre ++ [x]))
                        (frame_of data (y :: rest)) best' leaf' sa'
        = Ret (best'', leaf'', sa'') /\
        sum_shape data sa'' /\
        core_best_opt data kc l best'' /\ core_leaf_opt data l leaf'' /\
        leaf_bound data l (core_cur best'' leaf'') /\
        dle (core_cur best leaf) (core_cur best'' leaf'') /\
        covered data kc l (core_cur best'' leaf'') p None).
    { intros best' leaf' sa' Hsh' Hbest' Hleaf' Hlb' Hle' Hcov'.
      destruct (IH (pre ++ [x]) (y :: rest) best' leaf' sa')
        as [b2 [f2 [sa2 [E [Hsh2 [Hb2 [Hf2 [Hlb2 [Hle2 Hcov2]]]]]]]]]; auto;
        try (simpl in Hlen |- *; lia).
      exists b2, f2, sa2. split; [exact E|]. split; [assumption|].
      split; [assumption|]. split; [assumption|]. split; [assumption|].
      split; [|assumption]. eapply dle_trans; eauto. }
    cbn [Core.split_loop].
    rewrite move_point_spec by assumption. cbn [bind].
    rewrite at_frame_of by assumption. cbn [bind].
    rewrite sorted_by_self by assumption.
    destruct (get_value data x p >=? get_value data y p) eqn:E1.
    { apply Hnext; auto;
        [apply dle_refl; eapply leaf_bound_settled; eauto|].
      apply Z.geb_le in E1.
      eapply covered_skip; [|exact Hcov]. exact E1. }
    assert (Hxy : get_value data x p < get_value data y p).
    { destruct (Z.geb_spec (get_value data x p) (get_value data y p));
        [discriminate | lia]. }
    assert (Hboth : observations data ((pre ++ [x]) ++ y :: rest)).
    { rewrite <- app_assoc. exact Hall. }
    destruct (observations_app _ _ _ Hboth) as [Hobl Hobr].
    destruct (Hsearch (pre ++ [x]) sa)
      as [tl [sa1 [El [Hsh1 [Hokl [Hpl [Hdl [vl [Hrl [Hal Hbdl]]]]]]]]]];
      auto.
    { rewrite length_app. simpl. lia. }
    rewrite El. cbn [bind].
    destruct (Hsearch (y :: rest) sa1)
      as [tr [sa2 [Er [Hsh2 [Hokr [Hpr [Hdr [vr [Hrr [Har Hbdr]]]]]]]]]];
      auto.
    { simpl. lia. }
    rewrite Er. cbn [bind].
    assert (Hml : Z.abs vl <= mag data (pre ++ [x])).
    { rewrite <- Hal. apply policy_reward_mag. exact Hpl. }
    assert (Hmr : Z.abs vr <= mag data (y :: rest)).
    { rewrite <- Har. apply policy_reward_mag. exact Hpr. }
    destruct (small_pair data l (pre ++ [x]) (y :: rest) vl vr
                         Hsmall Hobs HP' Hml Hmr)
      as [Hsl [Hsr [Hsum Hmag]]].
    rewrite Hrl, Hrr. rewrite dadd_Fin by assumption.
    pose proof (leaf_bound_settled data l _ Hlb) as Hset.
    assert (Hsplit : split_of data 1 l p (get_value data x p)
                              (pre ++ [x]) (y :: rest)).
    { apply split_of_between; auto. lia. }
    destruct (split_of_sides _ _ _ _ _ _ _ l Hsplit (Permutation_refl l))
      as [HPl HPr].
    assert (Hlbc : leaf_bound data l (Fin (vl + vr))).
    { eapply (leaf_bound_candidate data kc l _ _ vl vr);
        [exact HP' | exact Hsum | exact Hbdl | exact Hbdr | lia]. }
    match goal with
    | |- context [if ?b then _ else _] => destruct b eqn:Ebetter
    end.
    + assert (Hge : dle (core_cur best leaf) (Fin (vl + vr))).
      { destruct best as [[[[bl br] bp] bv]|].
        - apply dlt_dle; assumption.
        - cbn [core_cur] in Hset |- *.
          destruct leaf as [t|]; [|left; reflexivity].
          destruct Hleaf as [nd [a [-> [Ea [Ha Hr]]]]].
          cbn [Core.node_data]. rewrite Hr.
          right. exists (column_sum data a l), (vl + vr).
          splits; auto.
          + apply small_column_sum; [exact Ha|].
            apply small_observations; assumption.
          + destruct Hlbc as [E|[v0 [E [Hs0 Hmx]]]].
            * exfalso. exact (Fin_not_NInf _ Hsum E).
            * apply Fin_inj in E; auto. subst v0. apply Hmx. exact Ha. }
      destruct (negb (Core.action_id (Core.node_data tl) =? SIZE_MAX)
                && (Core.action_id (Core.node_data tl)
                    =? Core.action_id (Core.node_data tr))) eqn:E2.
      * apply andb_prop in E2. destruct E2 as [E2 E3].
        apply negb_true_iff, Z.eqb_neq in E2. apply Z.eqb_eq in E3.
        destruct (core_ok_action tl Hokl E2) as [ndl [a [-> [Ea Ha]]]].
        cbn [Core.node_data] in *.
        assert (E2' : Core.action_id (Core.node_data tr) <> SIZE_MAX)
          by (rewrite <- E3; exact E2).
        destruct (core_ok_action tr Hokr E2') as [ndr [a' [-> [Ea' Ha']]]].
        cbn [Core.node_data] in *.
        assert (a' = a) by (apply Nat2Z.inj; congruence). subst a'.
        cbn [core_to_policy policy_reward] in Hal, Har.
        rewrite Ea, Nat2Z.id in Hal. rewrite Ea', Nat2Z.id in Har.
        assert (Hcs : column_sum data a l = vl + vr).
        { rewrite <- (column_sum_perm data a _ _ HP'), column_sum_app.
          lia. }
        apply Hnext; auto.
        -- exact I.
        -- do 2 eexists. split; [reflexivity|]. cbn.
           split; [exact Ea|]. split; [exact Ha|]. rewrite Hcs.
           reflexivity.
        -- eapply covered_step; eauto; try reflexivity; try lia.
      * assert (Hcur : core_cur (Some (tl, tr, Z.of_nat p,
                                       get_value data x p)) leaf
                       = Fin (vl + vr)).
        { cbn [core_cur]. rewrite Hrl, Hrr. apply dadd_Fin; assumption. }
        apply Hnext; auto; try (rewrite Hcur; auto).
        -- exists p, vl, vr. splits; auto.
           cbn [policy_reward].
           rewrite (policy_reward_perm data _ _ _ HPl).
           rewrite (policy_reward_perm data _ _ _ HPr). lia.
        -- eapply covered_step; eauto; try reflexivity; try lia.
    + destruct best as [[[[bl br] bp] bv]|]; [|discriminate].
      destruct (dlt_false_Fin _ _ Hset Hsum Ebetter) as [v' [Ev' [Hsv' Hv']]].
      apply Hnext; auto; [apply dle_refl; exact Hset|].
      eapply covered_step; eauto. apply dle_refl; exact Hset.
Qed.

Lemma core_feature_loop_opt : forall n a best leaf sum_array,
  (a + n <= num_features data)%nat -> (1 <= length l)%nat ->
  sum_shape data sum_array ->
  core_best_opt data kc l best -> core_leaf_opt data l leaf ->
  leaf_bound data l (core_cur best leaf) ->
  (forall q, (q < a)%nat ->
     covered data kc l (core_cur best leaf) q None) ->
  exists best' leaf' sum_array',
    Core.feature_loop data search (seq a n) (frame_of data l) (length l)
                      best leaf sum_array
    = Ret (best', leaf', sum_array') /\
    sum_shape data sum_array' /\
    core_best_opt data kc l best' /\ core_leaf_opt data l leaf' /\
    leaf_bound data l (core_cur best' leaf') /\
    (forall q, (q < a + n)%nat ->
       covered data kc l (core_cur best' leaf') q None).
Proof.
  induction n as [|n IH]; intros a best leaf sa Ha Hl Hsh Hbest Hleaf Hlb Hcov.
  - exists best, leaf, sa. rewrite Nat.add_0_r. auto 10.
  - cbn [seq Core.feature_loop].
    rewrite loop_bound_pos by assumption.
    rewrite frame_of_empty, <- (frame_of_sorted_by data a l).
    destruct (sorted_by data a l) as [|x rest] eqn:HS.
    { pose proof (sorted_by_length data a l Hobs) as HL.
      rewrite HS in HL. simpl in HL. lia. }
    destruct (core_split_loop_opt a (length l - 1) [] (x :: rest)
                                  best leaf sa)
      as [best' [leaf' [sa' [E [Hsh' [Hbest' [Hleaf' [Hlb' [Hle' Hcov']]]]]]]]];
      auto; try lia.
    { rewrite <- HS, sorted_by_length by assumption. lia. }
    { cbn [hd]. eapply covered_start; eauto. }
    rewrite E. cbn [bind].
    rewrite <- HS, frame_of_sorted_by.
    replace (a + S n)%nat with (S a + n)%nat by lia.
    apply IH; auto; try lia.
    intros q Hq. destruct (Nat.eq_dec q a) as [->|]; [assumption|].
    eapply covered_mono; [exact Hle'|]. apply Hcov. lia.
Qed.

End Loops.

(** At level [k >= 1] the original search returns a tree that stands for
    a policy tree of depth at most [k], records the reward that tree
    collects, and is not exceeded by any tree of depth at most [k]. *)
Lemma core_find_best_split_opt : forall fuel k l sum_array,
  observations data l -> (1 <= length l <= fuel)%nat ->
  sum_shape data sum_array ->
  exists t sum_array',
    Core.find_best_split data fuel (frame_of data l) (Z.of_nat (S k))
                         sum_array = Ret (t, sum_array') /\
    sum_shape data sum_array' /\ core_ok data t /\ core_opt data (S k) l t.
Proof.
  induction fuel as [|fuel IH]; intros k l sa Hobs Hl Hsh; [lia|].
  destruct (core_find_best_split_ok data Hnf Hnr Hmax Hsmall (S fuel) l
              (Z.of_nat (S k)) sa Hobs Hl Hsh) as [t [sa' [E [Hsh' Hok]]]].
  exists t, sa'. split; [exact E|]. split; [exact Hsh'|].
  split; [exact Hok|].
  cbn [Core.find_best_split] in E.
  destruct k as [|k].
  - change (Z.of_nat 1) with 1 in E. cbn [Z.eqb Pos.eqb] in E.
    destruct (core_level_one_learning_opt data Hnf Hnr Hsmall l Hobs sa
                                          ltac:(lia) Hsh)
      as [t' [sa1 [E1 [_ [_ Hopt]]]]].
    rewrite E1 in E. injection E as <- <-. exact Hopt.
  - assert (E1 : (Z.of_nat (S (S k)) =? 1) = false)
      by (apply Z.eqb_neq; lia).
    rewrite E1 in E.
    rewrite at_frame_of in E by lia. cbn [bind] in E.
    rewrite sorted_by_length in E by assumption.
    replace (Z.of_nat (S (S k)) - 1) with (Z.of_nat (S k)) in E by lia.
    destruct (core_feature_loop_opt
                (fun sets sa0 =>
                   Core.find_best_split data fuel sets (Z.of_nat (S k)) sa0)
                (S k) fuel
                (fun l' sa0 Ho Hl' Hs' => IH k l' sa0 Ho Hl' Hs')
                l Hobs ltac:(lia) (num_features data) 0 None None sa)
      as [best [leaf [sa1 [E2 [Hsh1 [Hbest [Hleaf [Hlb Hcov]]]]]]]];
      auto; try lia;
      try solve [exact I | left; reflexivity | intros q Hq; lia].
    rewrite E2 in E. cbn [bind] in E.
    destruct best as [[[[bl br] bp] bv]|].
    + destruct Hbest
        as [p [vl [vr [-> [Hp [Hrl [Hrr [Hsl [Hsr
             [Hpl [Hpr [Hdl [Hdr Hat]]]]]]]]]]]]].
      assert (Hsum : small (vl + vr)).
      { pose proof (policy_reward_mag data
                      (PSplit p bv (core_to_policy bl) (core_to_policy br))
                      l ltac:(cbn; auto)) as Hm.
        rewrite Hat in Hm.
        pose proof (small_observations data l Hsmall Hobs) as Hs.
        unfold small_rewards in Hs. unfold small. lia. }
      cbn [core_cur] in Hlb, Hcov. rewrite Hrl, Hrr in Hlb, Hcov.
      rewrite dadd_Fin in Hlb, Hcov by assumption.
      injection E as <- <-. unfold core_opt.
      cbn [core_to_policy Core.node_data Core.new_Node Core.action_id
           Core.reward Core.index Core.value Core.set_children].
      rewrite Nat2Z.id. cbn [policy_ok policy_depth].
      split; [auto|]. split; [lia|].
      exists (vl + vr). rewrite Hrl, Hrr.
      split; [apply dadd_Fin; assumption|].
      split; [exact Hat|].
      apply bounds_covered; auto.
    + destruct leaf as [t0|].
      * destruct Hleaf as [nd [a [-> [Ea [Ha Hr]]]]].
        cbn [core_cur Core.node_data] in Hlb, Hcov. rewrite Hr in Hlb, Hcov.
        injection E as <- <-. unfold core_opt.
        cbn [core_to_policy Core.node_data].
        rewrite Ea, Nat2Z.id. cbn [policy_ok policy_depth policy_reward].
        split; [exact Ha|]. split; [lia|].
        eexists. split; [exact Hr|]. split; [reflexivity|].
        apply bounds_covered; auto.
        apply small_column_sum; [exact Ha|].
        apply small_observations; assumption.
      * destruct (core_level_zero_learning_opt data Hnf Hnr Hsmall l Hobs)
          as [nd [a [E3 [Ea [Ha [Hr Hmx]]]]]].
        rewrite E3 in E. cbn [bind] in E. injection E as <- <-.
        unfold core_opt. cbn [core_to_policy Core.node_data].
        rewrite Ea, Nat2Z.id. cbn [policy_ok policy_depth policy_reward].
        split; [exact Ha|]. split; [lia|].
        eexists. split; [exact Hr|]. split; [reflexivity|].
        apply bounds_no_split; auto.
Qed.

End CoreOptimal.

(** What C3 says of the original search, at every depth [k >= 1] and on
    data with small rewards: the reward of the returned tree is the
    maximum, over all axis-aligned trees of depth at most [k], of the
    reward collected on the rows. *)
Lemma core_search_optimal : forall data fuel k,
  valid_data data -> small_data data -> (num_rows data <= fuel)%nat ->
  exists t v,
    Core.tree_search data fuel (Z.of_nat (S k)) = Ret t /\
    Core.reward (Core.node_data t) = Fin v /\
    optimal data (S k) (seq 0 (num_rows data)) v.
Proof.
  intros data fuel k [HN [Hp [Hd Hm]]] Hsmall Hfuel.
  unfold Core.tree_search. rewrite frame_of_root.
  destruct (core_find_best_split_opt data Hp Hd Hm Hsmall fuel k
              (seq 0 (num_rows data)) (new_sum_array data))
    as [t [sa [E [_ [_ [Hok [Hdep [v [Hr [Hat Hbd]]]]]]]]]].
  - apply observations_root.
  - rewrite length_seq. lia.
  - apply new_sum_array_shape.
  - rewrite E. exists t, v. split; [reflexivity|]. split; [exact Hr|].
    split; [|exact Hbd].
    exists (core_to_policy t). auto.
Qed.

(** ** The comparator and the sorted sets *)

(** X1: the comparator of [create_sorted_sets] is a strict total order
    on the samples: irreflexive, transitive, and between two different
    samples exactly one direction holds, also when they have the same
    feature value.  So a [flat_set] built with it never takes two samples
    for one. *)
Theorem X1_cmp_func_strict_total_order : forall data j x y z,
  cmp_func data j x x = false /\
  (cmp_func data j x y = true -> cmp_func data j y z = true ->
   cmp_func data j x z = true) /\
  (x <> y -> cmp_func data j x y = negb (cmp_func data j y x)).
Proof.
  intros data j x y z. split; [|split].
  - destruct (cmp_func data j x x) eqn:E; [|reflexivity].
    exfalso. exact (before_irrefl data j x E).
  - intros H1 H2. exact (before_trans data j x y z H1 H2).
  - intros Hxy.
    destruct (cmp_func data j x y) eqn:E1;
      destruct (cmp_func data j y x) eqn:E2; try reflexivity.
    + exfalso. exact (before_asym data j x y E1 E2).
    + exfalso. apply Hxy. exact (before_total data j x y E1 E2).
Qed.

Section SortedSetFacts.

Variable data : Data.
Variable j : nat.

Lemma insert_present : forall x s,
  StronglySorted (before data j) s -> In x s ->
  insert (cmp_func data j) x s = s.
Proof.
  intros x s Hs Hin. apply (sorted_unique data j).
  - apply insert_sorted. exact Hs.
  - exact Hs.
  - intros y. rewrite insert_In. split; [intros [->|H]; auto | auto].
Qed.

Lemma insert_absent_perm : forall x s,
  StronglySorted (before data j) s -> ~ In x s ->
  Permutation (insert (cmp_func data j) x s) (x :: s).
Proof.
  intros x s Hs Hnin. apply NoDup_Permutation.
  - apply (sorted_NoDup data j), insert_sorted. exact Hs.
  - constructor; [exact Hnin | apply (sorted_NoDup data j); exact Hs].
  - intros y. rewrite insert_In. simpl. split; intros [H|H]; auto.
Qed.

Lemma erase_insert : forall x s,
  StronglySorted (before data j) s -> ~ In x s ->
  erase_found (cmp_func data j) x (insert (cmp_func data j) x s) = Ret s.
Proof.
  intros x s Hs Hnin.
  rewrite (erase_found_sorted data j).
  - apply (f_equal Ret). apply (sorted_unique data j).
    + apply sorted_filter, insert_sorted. exact Hs.
    + exact Hs.
    + intros y. rewrite filter_In, insert_In, negb_true_iff, Nat.eqb_neq.
      split.
      * intros [[->|H] Hne]; [contradiction | exact H].
      * intros H. split; [right; exact H|]. intros ->. contradiction.
  - apply insert_sorted. exact Hs.
  - apply insert_In. left. reflexivity.
Qed.

Lemma insert_erase : forall x s,
  StronglySorted (before data j) s -> In x s ->
  exists s',
    erase_found (cmp_func data j) x s = Ret s' /\
    ~ In x s' /\ StronglySorted (before data j) s' /\
    insert (cmp_func data j) x s' = s.
Proof.
  intros x s Hs Hin.
  exists (filter (fun y => negb (y =? x)%nat) s).
  split; [apply erase_found_sorted; assumption|].
  assert (Hnin : ~ In x (filter (fun y => negb (y =? x)%nat) s)).
  { rewrite filter_In, negb_true_iff, Nat.eqb_neq. intros [_ H]. auto. }
  split; [exact Hnin|].
  split; [apply sorted_filter; exact Hs|].
  apply (sorted_unique data j).
  - apply insert_sorted, sorted_filter. exact Hs.
  - exact Hs.
  - intros y. rewrite insert_In, filter_In, negb_true_iff, Nat.eqb_neq.
    split.
    + intros [->|[H _]]; assumption.
    + intros H. destruct (Nat.eq_dec y x) as [->|Hne]; auto.
Qed.

Lemma erase_absent : forall x s,
  ~ In x s -> erase_found (cmp_func data j) x s = Undefined.
Proof.
  intros x. induction s as [|y s IH]; intros Hnin; [reflexivity|].
  cbn [erase_found].
  destruct (cmp_func data j y x) eqn:E1.
  - rewrite IH; [reflexivity|]. intros H. apply Hnin. right. exact H.
  - destruct (cmp_func data j x y) eqn:E2; [reflexivity|].
    exfalso. apply Hnin. left.
    symmetry. exact (before_total data j x y E2 E1).
Qed.

End SortedSetFacts.

(** [insert] on a sorted set keeps it sorted and adds exactly the point;
    a point that is already in the set leaves it unchanged, and a new one
    makes it one longer. *)
Lemma insert_keeps_sorted_set : forall data j x s,
  StronglySorted (before data j) s ->
  StronglySorted (before data j) (insert (cmp_func data j) x s) /\
  (forall y, In y (insert (cmp_func data j) x s) <-> y = x \/ In y s) /\
  (In x s -> insert (cmp_func data j) x s = s) /\
  (~ In x s -> length (insert (cmp_func data j) x s) = S (length s)).
Proof.
  intros data j x s Hs.
  split; [apply insert_sorted; exact Hs|].
  split; [intros y; apply insert_In|].
  split; [apply insert_present; exact Hs|].
  intros Hnin.
  rewrite (Permutation_length (insert_absent_perm data j x s Hs Hnin)).
  reflexivity.
Qed.

(** X2: on a sorted set, erasing a point that was just inserted gives
    the set back, and inserting a point that was just erased gives the set
    back. *)
Theorem X2_erase_insert_round_trip : forall data j x s,
  StronglySorted (before data j) s ->
  (~ In x s ->
   erase_found (cmp_func data j) x (insert (cmp_func data j) x s) = Ret s) /\
  (In x s ->
   exists s',
     erase_found (cmp_func data j) x s = Ret s' /\ ~ In x s' /\
     insert (cmp_func data j) x s' = s).
Proof.
  intros data j x s Hs. split.
  - intros Hnin. apply erase_insert; assumption.
  - intros Hin.
    destruct (insert_erase data j x s Hs Hin) as [s' [E [Hnin [_ Hi]]]].
    exists s'. auto.
Qed.

Lemma X2_erase_insert_round_trip_witness :
  StronglySorted (before data_two_regimes 0) [0; 2]%nat /\
  (~ In 1%nat [0; 2]%nat ->
   erase_found (cmp_func data_two_regimes 0) 1%nat
               (insert (cmp_func data_two_regimes 0) 1%nat [0; 2]%nat)
   = Ret [0; 2]%nat) /\
  (In 1%nat [0; 2]%nat ->
   exists s',
     erase_found (cmp_func data_two_regimes 0) 1%nat [0; 2]%nat = Ret s' /\
     ~ In 1%nat s' /\
     insert (cmp_func data_two_regimes 0) 1%nat s' = [0; 2]%nat).
Proof.
  assert (H : StronglySorted (before data_two_regimes 0) [0; 2]%nat).
  { repeat constructor. }
  split; [exact H|].
  exact (X2_erase_insert_round_trip data_two_regimes 0 1%nat [0; 2]%nat H).
Defined.

(** X3: [s.erase(s.find(x))] for a point that is not in the set erases
    [end()], which is undefined behaviour. *)
Theorem X3_erase_absent_undefined : forall data j x s,
  StronglySorted (before data j) s -> ~ In x s ->
  erase_found (cmp_func data j) x s = Undefined.
Proof.
  intros data j x s _ Hnin. apply erase_absent. exact Hnin.
Qed.

Lemma X3_erase_absent_undefined_witness :
  erase_found (cmp_func data_two_regimes 0) 1%nat [0; 2]%nat = Undefined.
Proof.
  apply X3_erase_absent_undefined.
  - repeat constructor.
  - simpl. intros [H|[H|[]]]; discriminate.
Defined.

(** X4: [create_sorted_sets(data, false)] returns one set per feature;
    set [j] holds every sample [0 .. num_rows - 1] once, in the order of
    the comparator of feature [j].  With [make_empty] it returns one empty
    set per feature. *)
Theorem X4_create_sorted_sets_full : forall data,
  length (create_sorted_sets data false) = num_features data /\
  (forall j, (j < num_features data)%nat ->
     exists s,
       nth_error (create_sorted_sets data false) j = Some s /\
       StronglySorted (before data j) s /\
       Permutation s (seq 0 (num_rows data))) /\
  create_sorted_sets data true = repeat [] (num_features data).
Proof.
  intros data. unfold create_sorted_sets. split; [|split].
  - rewrite length_map, length_seq. reflexivity.
  - intros j Hj. exists (fill_set data j). split; [|split].
    + rewrite nth_error_map, nth_error_seq.
      destruct (Nat.ltb_spec j (num_features data)); [reflexivity | lia].
    + apply fill_set_sorted.
    + apply NoDup_Permutation.
      * apply (sorted_NoDup data j), fill_set_sorted.
      * apply seq_NoDup.
      * intros i. rewrite fill_set_In, in_seq. lia.
  - rewrite map_const, length_seq. reflexivity.
Qed.

(** ** The best action of a leaf *)

Section LevelZero.

Variable data : Data.
Variable sorted_sets : family.
Variable s0 : list nat.
Hypothesis Hs0 : nth_error sorted_sets 0 = Some s0.
Hypothesis Hsmall0 : small_rewards data s0.

(** The state of the loop of [level_zero_learning] after the actions
    below [a]: nothing yet, or the first best action so far. *)
Let first_best (a : nat) (best_reward : double) (best_action : nat) : Prop :=
  (a = 0%nat /\ best_reward = NInf) \/
  ((best_action < a)%nat /\
   best_reward = Fin (column_sum data best_action s0) /\
   (forall d, (d < a)%nat ->
      column_sum data d s0 <= column_sum data best_action s0) /\
   (forall d, (d < best_action)%nat ->
      column_sum data d s0 < column_sum data best_action s0)).

Lemma first_best_step : forall a best_reward best_action,
  (a < num_rewards data)%nat ->
  first_best a best_reward best_action ->
  if dlt best_reward (Fin (column_sum data a s0))
  then first_best (S a) (Fin (column_sum data a s0)) a
  else first_best (S a) best_reward best_action.
Proof.
  intros a br ba Ha Hinv.
  assert (Hsm : forall d, (d < num_rewards data)%nat ->
                  small (column_sum data d s0))
    by (intros d Hd; apply small_column_sum; assumption).
  destruct (dlt br (Fin (column_sum data a s0))) eqn:E; right.
  - split; [lia|]. split; [reflexivity|].
    destruct Hinv as [[-> _]|[Hba [-> [Hmax Hfirst]]]].
    + split; intros d Hd; [|lia]. replace d with 0%nat by lia. lia.
    + rewrite dlt_Fin in E by (apply Hsm; lia). apply Z.ltb_lt in E.
      split; intros d Hd.
      * destruct (Nat.eq_dec d a) as [->|]; [lia|].
        specialize (Hmax d ltac:(lia)). lia.
      * specialize (Hmax d Hd). lia.
  - destruct Hinv as [[_ ->]|[Hba [-> [Hmax Hfirst]]]].
    { rewrite dlt_NInf_Fin in E by (apply Hsm; lia). discriminate. }
    rewrite dlt_Fin in E by (apply Hsm; lia). apply Z.ltb_ge in E.
    split; [lia|]. split; [reflexivity|]. split; [|assumption].
    intros d Hd. destruct (Nat.eq_dec d a) as [->|]; [lia|].
    apply Hmax. lia.
Qed.

Lemma rpkg_level_zero_loop_first_best : forall n a best_reward best_action,
  (a + n <= num_rewards data)%nat ->
  first_best a best_reward best_action -> (1 <= a + n)%nat ->
  exists best_action',
    RPkg.level_zero_loop data sorted_sets (seq a n) best_reward best_action
    = Ret (Fin (column_sum data best_action' s0), best_action') /\
    first_best (a + n) (Fin (column_sum data best_action' s0)) best_action'.
Proof.
  induction n as [|n IH]; intros a br ba Hle Hinv Han.
  - rewrite Nat.add_0_r.
    destruct Hinv as [[-> _]|[Hba [-> Hrest]]]; [lia|].
    exists ba. split; [reflexivity|]. right. auto.
  - cbn [seq RPkg.level_zero_loop]. rewrite (at_Some _ _ _ _ Hs0).
    cbn [bind]. rewrite reward_sum_column_sum by (auto; lia).
    replace (a + S n)%nat with (S a + n)%nat by lia.
    pose proof (first_best_step a br ba ltac:(lia) Hinv) as Hstep.
    destruct (dlt br (Fin (column_sum data a s0))); apply IH; auto; lia.
Qed.

Lemma core_level_zero_loop_first_best :
  forall n a best_reward best_action act,
  (a + n <= num_rewards data)%nat ->
  first_best a best_reward best_action ->
  (a <> 0%nat -> act = Z.of_nat best_action) -> (1 <= a + n)%nat ->
  exists best_action',
    Core.level_zero_loop data sorted_sets (seq a n) best_reward act
    = Ret (Fin (column_sum data best_action' s0), Z.of_nat best_action') /\
    first_best (a + n) (Fin (column_sum data best_action' s0)) best_action'.
Proof.
  induction n as [|n IH]; intros a br ba act Hle Hinv Hact Han.
  - rewrite Nat.add_0_r.
    destruct Hinv as [[-> _]|[Hba [-> Hrest]]]; [lia|].
    exists ba. rewrite Hact by lia. split; [reflexivity|]. right. auto.
  - cbn [seq Core.level_zero_loop]. rewrite (at_Some _ _ _ _ Hs0).
    cbn [bind]. rewrite reward_sum_column_sum by (auto; lia).
    replace (a + S n)%nat with (S a + n)%nat by lia.
    pose proof (first_best_step a br ba ltac:(lia) Hinv) as Hstep.
    destruct (dlt br (Fin (column_sum data a s0))) eqn:E.
    + apply (IH (S a) _ a); auto; lia.
    + apply (IH (S a) _ ba); auto; try lia.
      intros _. apply Hact.
      destruct Hinv as [[_ ->]|[Hba _]]; [|lia].
      rewrite dlt_NInf_Fin in E; [discriminate|].
      apply small_column_sum; [lia | assumption].
Qed.

Lemma first_best_all : forall best_reward a,
  first_best (num_rewards data) best_reward a ->
  (1 <= num_rewards data)%nat -> least_argmax data s0 a.
Proof.
  intros br a [[H _]|[Ha [_ [Hmax Hfirst]]]] Hnr; [lia|].
  split; [exact Ha|]. split; assumption.
Qed.

End LevelZero.

Lemma level_zero_learning_first_best :
  forall data sorted_sets s0 this_depth,
  nth_error sorted_sets 0 = Some s0 -> (1 <= num_rewards data)%nat ->
  small_rewards data s0 ->
  exists a,
    least_argmax data s0 a /\
    RPkg.level_zero_learning data sorted_sets this_depth
    = Ret (RPkg.Leaf (RPkg.mkNodeData 0 0 (Fin (column_sum data a s0)) a
                                      this_depth 0 [])) /\
    Core.level_zero_learning data sorted_sets
    = Ret (Core.Leaf (Core.mkNodeData SIZE_MAX (-1)
                                      (Fin (column_sum data a s0))
                                      (Z.of_nat a))).
Proof.
  intros data sets s0 td Hs0 Hnr Hsm.
  destruct (rpkg_level_zero_loop_first_best data sets s0 Hs0 Hsm
              (num_rewards data) 0 neg_INF 0%nat)
    as [a [E Hinv]]; [lia | left; auto | lia |].
  destruct (core_level_zero_loop_first_best data sets s0 Hs0 Hsm
              (num_rewards data) 0 neg_INF 0%nat SIZE_MAX)
    as [a' [E' Hinv']]; [lia | left; auto | intros H; lia | lia |].
  cbn [Nat.add] in Hinv, Hinv'.
  pose proof (first_best_all data s0 _ _ Hinv Hnr) as Ha.
  pose proof (first_best_all data s0 _ _ Hinv' Hnr) as Ha'.
  assert (a' = a).
  { destruct Ha as [H1 [H2 H3]]. destruct Ha' as [H1' [H2' H3']].
    destruct (Nat.lt_trichotomy a' a) as [H|[H|H]]; [|exact H|].
    - specialize (H3 a' H). specialize (H2' a H1). lia.
    - specialize (H3' a H). specialize (H2 a' H1'). lia. }
  subst a'.
  exists a. split; [exact Ha|].
  unfold RPkg.level_zero_learning, Core.level_zero_learning.
  rewrite E, E'. split; reflexivity.
Qed.

(** X5: [level_zero_learning] reads only [sorted_sets[0]]; with at least
    one action and rewards small enough for every partial sum over the
    points of that set to be exact in a double (the absolute values of
    the rewards of the points add up to less than 2^53), it returns a leaf
    for the first action with the largest column sum over the points of
    that set, with that sum as its reward.
    The r-package leaf has index 0, value 0, the given depth and height 0;
    the original leaf has index [(size_t) -1] and value -1. *)
Theorem X5_level_zero_learning_first_best_action :
  forall data sorted_sets s0 this_depth,
  nth_error sorted_sets 0 = Some s0 -> (1 <= num_rewards data)%nat ->
  small_rewards data s0 ->
  exists a,
    least_argmax data s0 a /\
    RPkg.level_zero_learning data sorted_sets this_depth
    = Ret (RPkg.Leaf (RPkg.mkNodeData 0 0 (Fin (column_sum data a s0)) a
                                      this_depth 0 [])) /\
    Core.level_zero_learning data sorted_sets
    = Ret (Core.Leaf (Core.mkNodeData SIZE_MAX (-1)
                                      (Fin (column_sum data a s0))
                                      (Z.of_nat a))).
Proof.
  intros data sets s0 td Hs0 Hnr Hsm.
  exact (level_zero_learning_first_best data sets s0 td Hs0 Hnr Hsm).
Qed.

Lemma X5_level_zero_learning_first_best_action_witness :
  exists a,
    least_argmax data_two_regimes [0; 1; 2; 3]%nat a /\
    RPkg.level_zero_learning data_two_regimes
                             (create_sorted_sets data_two_regimes false) 0
    = Ret (RPkg.Leaf
             (RPkg.mkNodeData
                0 0 (Fin (column_sum data_two_regimes a [0; 1; 2; 3]%nat))
                a 0 0 [])) /\
    Core.level_zero_learning data_two_regimes
                             (create_sorted_sets data_two_regimes false)
    = Ret (Core.Leaf
             (Core.mkNodeData
                SIZE_MAX (-1)
                (Fin (column_sum data_two_regimes a [0; 1; 2; 3]%nat))
                (Z.of_nat a))).
Proof.
  apply X5_level_zero_learning_first_best_action.
  - reflexivity.
  - vm_compute. lia.
  - vm_compute. reflexivity.
Defined.

(** ** The scratch array of cumulative sums *)

(** X6: on a scratch array of the shape [tree_search] gives it, the
    cumulative-sum pass of [level_one_learning] over the points of a set
    succeeds, keeps the shape, and leaves in entry [k] of row [d] the
    running sum of doubles of the rewards of action [d] over the first
    [k] points, for every [k] up to the number of points; when the
    rewards of the points are small, that entry is the exact sum. *)
Theorem X6_fill_sum_array_prefix_sums : forall data points sum_array,
  sum_shape data sum_array -> (length points <= num_rows data)%nat ->
  exists sum_array',
    fill_sum_array data (seq 0 (num_rewards data)) points sum_array
    = Ret sum_array' /\
    sum_shape data sum_array' /\
    forall d k, (d < num_rewards data)%nat -> (k <= length points)%nat ->
      exists row,
        nth_error sum_array' d = Some row /\
        nth_error row k = Some (reward_sum data (firstn k points) d) /\
        (small_rewards data points ->
         nth_error row k = Some (Fin (column_sum data d (firstn k points)))).
Proof.
  intros data points sa Hsh Hlen.
  destruct (fill_sum_array_filled data points sa Hsh Hlen)
    as [sa' [E [Hsh' Hfill]]].
  exists sa'. split; [exact E|]. split; [exact Hsh'|].
  intros d k Hd Hk. destruct (Hfill d Hd) as [row [Hrow Hsum]].
  exists row. split; [exact Hrow|]. split; [apply Hsum; exact Hk|].
  intros Hs. rewrite (Hsum k Hk). f_equal.
  apply reward_sum_column_sum; [exact Hd|].
  apply small_rewards_firstn. exact Hs.
Qed.

Lemma X6_fill_sum_array_prefix_sums_witness :
  exists sum_array',
    fill_sum_array data_two_regimes (seq 0 (num_rewards data_two_regimes))
                   [0; 1; 2]%nat (new_sum_array data_two_regimes)
    = Ret sum_array' /\
    sum_shape data_two_regimes sum_array' /\
    forall d k, (d < num_rewards data_two_regimes)%nat ->
      (k <= length [0; 1; 2]%nat)%nat ->
      exists row,
        nth_error sum_array' d = Some row /\
        nth_error row k
        = Some (reward_sum data_two_regimes (firstn k [0; 1; 2]%nat) d) /\
        (small_rewards data_two_regimes [0; 1; 2]%nat ->
         nth_error row k
         = Some (Fin (column_sum data_two_regimes d
                                 (firstn k [0; 1; 2]%nat)))).
Proof.
  apply X6_fill_sum_array_prefix_sums.
  - apply new_sum_array_shape.
  - vm_compute. lia.
Defined.

Lemma set_at_out_of_range : forall (A : Type) (a : A) (v : list A) i,
  (length v <= i)%nat -> set_at v i a = Undefined.
Proof.
  intros A a. induction v as [|b v IH]; intros i Hi; [reflexivity|].
  destruct i as [|i]; [simpl in Hi; lia|].
  cbn [set_at]. rewrite IH by (simpl in Hi; lia). reflexivity.
Qed.

Lemma at_out_of_range : forall (A : Type) (v : list A) i,
  (length v <= i)%nat -> at_ v i = Undefined.
Proof.
  intros A v i Hi. unfold at_.
  rewrite (proj2 (nth_error_None v i) Hi). reflexivity.
Qed.

(** X7: the cumulative-sum loop writes entry [n + k] of row [d] for the
    [k]-th point; on a row with no room for all the points it indexes the
    row out of range, which is undefined behaviour. *)
Theorem X7_fill_sum_row_out_of_range : forall data d points n sum_array row,
  nth_error sum_array d = Some row -> points <> [] ->
  (length row <= n + length points)%nat ->
  fill_sum_row data d points n sum_array = Undefined.
Proof.
  intros data d. induction points as [|point points IH];
    intros n sa row Hrow Hne Hlen; [contradiction|].
  cbn [fill_sum_row]. rewrite (at_Some _ _ _ _ Hrow). cbn [bind].
  replace (S n - 1)%nat with n by lia.
  destruct (Nat.le_gt_cases (length row) n) as [Hn|Hn].
  { rewrite at_out_of_range by exact Hn. reflexivity. }
  destruct (at_Ret _ row n Hn) as [prev [E _]]. rewrite E. cbn [bind].
  destruct (Nat.le_gt_cases (length row) (S n)) as [Hn'|Hn'].
  { rewrite set_at_out_of_range by exact Hn'. reflexivity. }
  destruct (set_at_spec _ (dadd prev (Fin (get_reward data point d))) row
                        (S n) Hn')
    as [row' [E1 [Hl1 _]]].
  rewrite E1. cbn [bind].
  assert (Hd : (d < length sa)%nat).
  { apply nth_error_Some. rewrite Hrow. discriminate. }
  destruct (set_at_spec _ row' sa d Hd) as [sa' [E2 [_ Hnth]]].
  rewrite E2. cbn [bind].
  apply (IH (S n) sa' row').
  - rewrite Hnth, Nat.eqb_refl. reflexivity.
  - intros ->. simpl in Hlen. lia.
  - rewrite Hl1. simpl in Hlen. lia.
Qed.

Lemma X7_fill_sum_row_out_of_range_witness :
  fill_sum_row data_two_points 0 [0; 1]%nat 0 [[Fin 0; Fin 0]] = Undefined.
Proof.
  apply (X7_fill_sum_row_out_of_range data_two_points 0 [0; 1]%nat 0
                                      [[Fin 0; Fin 0]] [Fin 0; Fin 0]).
  - reflexivity.
  - discriminate.
  - simpl. lia.
Defined.

(** ** The reward of the returned tree *)

Lemma optimal_unique : forall data k obs v v',
  optimal data k obs v -> optimal data k obs v' -> v = v'.
Proof.
  intros data k obs v v' [[t [Hok [Hd Hr]]] Hb] [[t' [Hok' [Hd' Hr']]] Hb'].
  specialize (Hb t' Hok' Hd'). specialize (Hb' t Hok Hd). lia.
Qed.

Lemma bounds_deeper : forall data k k' obs v,
  (k <= k')%nat -> bounds data k' obs v -> bounds data k obs v.
Proof.
  intros data k k' obs v Hk Hb t Hok Hd. apply Hb; [exact Hok | lia].
Qed.

Lemma exact_rewards_ok : forall data m l t,
  exact_tree data m l t ->
  forall obs, Permutation obs l -> rewards_ok data obs t.
Proof.
  intros data m l t Hb.
  induction Hb
    as [l nd Ha Hr | l pre rest nd tl tr Hsp Hbl IHl Hbr IHr Hpr Hr];
    intros obs Hobs.
  - cbn [rewards_ok]. rewrite Hr. f_equal.
    apply column_sum_perm. symmetry. exact Hobs.
  - cbn [rewards_ok].
    destruct (split_of_routes _ _ _ _ _ _ _ Hsp Hobs) as [HPl HPr].
    split; [exact Hr|]. split; [apply IHl | apply IHr]; assumption.
Qed.

(** X8: on data whose rewards are small (the absolute values of all
    rewards add up to less than 2^53, so that every sum the search forms
    is exact in a double), with every split admitted ([split_step = 1],
    [min_node_size = 1]) the r-package search at depth [k >= 0] returns a
    tree of depth at most [k] whose recorded reward is what the tree
    collects on the rows, and no axis-aligned tree of depth at most [k]
    over the features and actions of the data collects more. *)
Theorem X8_rpkg_tree_search_optimal : forall data fuel k,
  valid_data data -> small_data data -> (num_rows data <= fuel)%nat ->
  exists t v,
    RPkg.tree_search data fuel (Z.of_nat k) 1 1 = Ret t /\
    RPkg.reward (RPkg.node_data t) = Fin v /\
    policy_ok data (to_policy t) /\
    (policy_depth (to_policy t) <= k)%nat /\
    policy_reward data (to_policy t) (seq 0 (num_rows data)) = v /\
    forall p, policy_ok data p -> (policy_depth p <= k)%nat ->
      policy_reward data p (seq 0 (num_rows data)) <= v.
Proof.
  intros data fuel k [HN [Hp [Hd _]]] Hs Hfuel.
  unfold RPkg.tree_search. rewrite frame_of_root.
  destruct (find_best_split_opt data Hp Hd Hs fuel k (seq 0 (num_rows data))
              (new_sum_array data) 0)
    as [t [sa [E [_ [Hb [Hok [Hdep [v [Hr [Hm Hbd]]]]]]]]]].
  - apply observations_root.
  - rewrite length_seq. lia.
  - apply new_sum_array_shape.
  - rewrite E. exists t, v. split; [reflexivity|]. split; [exact Hr|].
    split; [exact Hok|]. split; [exact Hdep|]. split; [|exact Hbd].
    rewrite policy_reward_to_policy.
    destruct (exact_tree_value data Hs 1 _ t (observations_root data) Hb)
      as [Hrr Hmr].
    rewrite Hr in Hrr. apply Fin_inj in Hrr; [symmetry; exact Hrr | |].
    + unfold small, small_data, small_rewards in *. lia.
    + unfold small, small_data, small_rewards in *. lia.
Qed.

Lemma X8_rpkg_tree_search_optimal_witness :
  exists t v,
    RPkg.tree_search data_two_regimes 4 (Z.of_nat 2) 1 1 = Ret t /\
    RPkg.reward (RPkg.node_data t) = Fin v /\
    policy_ok data_two_regimes (to_policy t) /\
    (policy_depth (to_policy t) <= 2)%nat /\
    policy_reward data_two_regimes (to_policy t)
                  (seq 0 (num_rows data_two_regimes)) = v /\
    forall p, policy_ok data_two_regimes p -> (policy_depth p <= 2)%nat ->
      policy_reward data_two_regimes p (seq 0 (num_rows data_two_regimes))
      <= v.
Proof.
  apply X8_rpkg_tree_search_optimal.
  - unfold valid_data. vm_compute. repeat split; try lia; discriminate.
  - vm_compute. reflexivity.
  - vm_compute. lia.
Defined.

(** X9: on data whose rewards are small (the absolute values of all
    rewards add up to less than 2^53), the original search at depth
    [k >= 1] returns a tree of depth at most [k] whose recorded reward is
    what the tree collects on the rows, and no axis-aligned tree of depth
    at most [k] collects more. *)
Theorem X9_core_tree_search_optimal : forall data fuel k,
  valid_data data -> small_data data -> (num_rows data <= fuel)%nat ->
  (1 <= k)%nat ->
  exists t v,
    Core.tree_search data fuel (Z.of_nat k) = Ret t /\
    Core.reward (Core.node_data t) = Fin v /\
    policy_ok data (core_to_policy t) /\
    (policy_depth (core_to_policy t) <= k)%nat /\
    policy_reward data (core_to_policy t) (seq 0 (num_rows data)) = v /\
    forall p, policy_ok data p -> (policy_depth p <= k)%nat ->
      policy_reward data p (seq 0 (num_rows data)) <= v.
Proof.
  intros data fuel k [HN [Hp [Hd Hm]]] Hs Hfuel Hk.
  destruct k as [|k]; [lia|].
  unfold Core.tree_search. rewrite frame_of_root.
  destruct (core_find_best_split_opt data Hp Hd Hm Hs fuel k
              (seq 0 (num_rows data)) (new_sum_array data))
    as [t [sa [E [_ [_ [Hok [Hdep [v [Hr [Hat Hbd]]]]]]]]]].
  - apply observations_root.
  - rewrite length_seq. lia.
  - apply new_sum_array_shape.
  - rewrite E. exists t, v. cbn [bind]. auto 10.
Qed.

Lemma X9_core_tree_search_optimal_witness :
  exists t v,
    Core.tree_search data_two_regimes 4 (Z.of_nat 2) = Ret t /\
    Core.reward (Core.node_data t) = Fin v /\
    policy_ok data_two_regimes (core_to_policy t) /\
    (policy_depth (core_to_policy t) <= 2)%nat /\
    policy_reward data_two_regimes (core_to_policy t)
                  (seq 0 (num_rows data_two_regimes)) = v /\
    forall p, policy_ok data_two_regimes p -> (policy_depth p <= 2)%nat ->
      policy_reward data_two_regimes p (seq 0 (num_rows data_two_regimes))
      <= v.
Proof.
  apply X9_core_tree_search_optimal.
  - unfold valid_data. vm_compute. repeat split; try lia; discriminate.
  - vm_compute. reflexivity.
  - vm_compute. lia.
  - lia.
Defined.

(** X10: on data whose rewards are small (the absolute values of all
    rewards add up to less than 2^53), at every depth [k >= 1] the
    r-package search with [split_step = 1] and [min_node_size = 1] and the
    original search return trees with the same reward. *)
Theorem X10_fork_agrees_with_original : forall data fuel k,
  valid_data data -> small_data data -> (num_rows data <= fuel)%nat ->
  (1 <= k)%nat ->
  exists t t' v,
    RPkg.tree_search data fuel (Z.of_nat k) 1 1 = Ret t /\
    Core.tree_search data fuel (Z.of_nat k) = Ret t' /\
    RPkg.reward (RPkg.node_data t) = Fin v /\
    Core.reward (Core.node_data t') = Fin v.
Proof.
  intros data fuel k Hv Hs Hfuel Hk. destruct k as [|k]; [lia|].
  destruct (exact_search_optimal data fuel (S k) Hv Hs Hfuel)
    as [t [v [E [Hr Hopt]]]].
  destruct (core_search_optimal data fuel k Hv Hs Hfuel)
    as [t' [v' [E' [Hr' Hopt']]]].
  exists t, t', v. split; [exact E|]. split; [exact E'|].
  split; [exact Hr|].
  rewrite Hr'. f_equal. exact (optimal_unique _ _ _ _ _ Hopt' Hopt).
Qed.

Lemma X10_fork_agrees_with_original_witness :
  exists t t' v,
    RPkg.tree_search data_two_regimes 4 (Z.of_nat 2) 1 1 = Ret t /\
    Core.tree_search data_two_regimes 4 (Z.of_nat 2) = Ret t' /\
    RPkg.reward (RPkg.node_data t) = Fin v /\
    Core.reward (Core.node_data t') = Fin v.
Proof.
  apply X10_fork_agrees_with_original.
  - unfold valid_data. vm_compute. repeat split; try lia; discriminate.
  - vm_compute. reflexivity.
  - vm_compute. lia.
  - lia.
Defined.

(** X11: on data whose rewards are small (the absolute values of all
    rewards add up to less than 2^53), with every split admitted, the
    reward of the r-package search does not decrease when the depth grows
    by one, and at every depth it is at least the column sum of every
    single action. *)
Theorem X11_reward_grows_with_depth : forall data fuel k,
  valid_data data -> small_data data -> (num_rows data <= fuel)%nat ->
  exists t1 t2 v1 v2,
    RPkg.tree_search data fuel (Z.of_nat k) 1 1 = Ret t1 /\
    RPkg.tree_search data fuel (Z.of_nat (S k)) 1 1 = Ret t2 /\
    RPkg.reward (RPkg.node_data t1) = Fin v1 /\
    RPkg.reward (RPkg.node_data t2) = Fin v2 /\
    v1 <= v2 /\
    forall a, (a < num_rewards data)%nat ->
      column_sum data a (seq 0 (num_rows data)) <= v1.
Proof.
  intros data fuel k Hv Hs Hfuel.
  destruct (exact_search_optimal data fuel k Hv Hs Hfuel)
    as [t1 [v1 [E1 [Hr1 [[p1 [Hok1 [Hd1 Hp1]]] Hb1]]]]].
  destruct (exact_search_optimal data fuel (S k) Hv Hs Hfuel)
    as [t2 [v2 [E2 [Hr2 [_ Hb2]]]]].
  exists t1, t2, v1, v2. splits; auto.
  - rewrite <- Hp1. apply Hb2; [exact Hok1 | lia].
  - intros a Ha. apply (Hb1 (PLeaf a)); [exact Ha | simpl; lia].
Qed.

Lemma X11_reward_grows_with_depth_witness :
  exists t1 t2 v1 v2,
    RPkg.tree_search data_two_regimes 4 (Z.of_nat 0) 1 1 = Ret t1 /\
    RPkg.tree_search data_two_regimes 4 (Z.of_nat 1) 1 1 = Ret t2 /\
    RPkg.reward (RPkg.node_data t1) = Fin v1 /\
    RPkg.reward (RPkg.node_data t2) = Fin v2 /\
    v1 <= v2 /\
    forall a, (a < num_rewards data_two_regimes)%nat ->
      column_sum data_two_regimes a (seq 0 (num_rows data_two_regimes))
      <= v1.
Proof.
  apply X11_reward_grows_with_depth.
  - unfold valid_data. vm_compute. repeat split; try lia; discriminate.
  - vm_compute. reflexivity.
  - vm_compute. lia.
Defined.

(** X12: on data whose rewards are small (the absolute values of all
    rewards add up to less than 2^53), for every depth, [split_step] and
    [min_node_size], in the tree the r-package search returns every leaf
    records the column sum of its action over the rows routed to it (left
    when the feature value is at most the split value), and every
    internal node records the sum, added as doubles, of the rewards of
    its two children. *)
Theorem X12_rewards_add_up :
  forall data fuel depth split_step min_node_size,
  valid_data data -> small_data data -> (num_rows data <= fuel)%nat ->
  exists t,
    RPkg.tree_search data fuel depth split_step min_node_size = Ret t /\
    rewards_ok data (seq 0 (num_rows data)) t.
Proof.
  intros data fuel depth ss mns Hv Hs Hfuel.
  destruct (tree_search_exact data fuel depth ss mns Hv Hs Hfuel)
    as [t [E Hb]].
  exists t. split; [exact E|].
  exact (exact_rewards_ok _ _ _ _ Hb _ (Permutation_refl _)).
Qed.

Lemma X12_rewards_add_up_witness :
  exists t,
    RPkg.tree_search data_two_regimes 4 2 1 1 = Ret t /\
    rewards_ok data_two_regimes (seq 0 (num_rows data_two_regimes)) t.
Proof.
  apply X12_rewards_add_up.
  - unfold valid_data. vm_compute. repeat split; try lia; discriminate.
  - vm_compute. reflexivity.
  - vm_compute. lia.
Defined.

